(** * Badger [Stream]: a shallow embedding of vendor/github.com/dgraph-io/badger/stream.go

    The development follows the source file top to bottom: byte slices and
    their comparison, the storage cursor the stream consumes, the default
    key-expansion policy [ToList], the range splitter [produceRanges], the
    per-range scan [iterate] of [produceKVs], and finally the goroutines of
    [Orchestrate] as a labelled transition system over the three channels. *)

From Stdlib Require Import String.
From Stdlib Require Import List ZArith NArith Bool Lia Permutation Sorted.
From Stdlib Require Strings.Byte.
Import ListNotations.

Local Open Scope Z_scope.

(* ------------------------------------------------------------------ *)
(** ** Byte slices ([[]byte]) and the functions of package [bytes] *)

Module Bytes.

Definition t : Type := list Byte.byte.

Definition byte_compare (a b : Byte.byte) : comparison :=
  N.compare (Byte.to_N a) (Byte.to_N b).

(** [bytes.Compare]: lexicographic comparison. *)
Definition Compare (a b : t) : comparison := list_compare byte_compare a b.

(** [bytes.Equal]: same length and same contents; a nil slice equals an
    empty one. *)
Fixpoint Equal (a b : t) : bool :=
  match a, b with
  | [], [] => true
  | x :: a', y :: b' => Byte.eqb x y && Equal a' b'
  | _, _ => false
  end.

(** [bytes.HasPrefix s p]. *)
Fixpoint HasPrefix (s p : t) : bool :=
  match p, s with
  | [], _ => true
  | y :: p', x :: s' => Byte.eqb x y && HasPrefix s' p'
  | _ :: _, [] => false
  end.

(** [bytes.Compare a b >= 0]. *)
Definition geb (a b : t) : bool :=
  match Compare a b with Lt => false | _ => true end.

(** [bytes.Compare a b < 0]. *)
Definition ltb (a b : t) : bool := negb (geb a b).

End Bytes.

(* ------------------------------------------------------------------ *)
(** ** Errors *)

(** [context.Canceled] is what [ctx.Err()] returns once the context is
    done; every other error (a failed value copy, a failing [Send], a
    failing user [KeyToList]) is opaque to the stream and carried as is. *)
Inductive error : Type :=
| Canceled
| Failure (msg : string).

Inductive result (A : Type) : Type :=
| Ok (a : A)
| Err (e : error).
Arguments Ok {A} a.
Arguments Err {A} e.

(* ------------------------------------------------------------------ *)
(** ** Protocol buffer messages [pb.KV] and [pb.KVList] *)

Module pb.

Record KV : Type := mkKV {
  Key : Bytes.t;
  Value : Bytes.t;
  UserMeta : Bytes.t;
  Version : Z;
  ExpiresAt : Z
}.

(** [pb.KVList] has the single field [Kv []*KV]. *)
Definition KVList : Type := list KV.

End pb.

(* ------------------------------------------------------------------ *)
(** ** The storage cursor *)

(** Modelled from the spec: the type [Item] and its methods are declared in
    iterator.go, which is not part of the sources at hand.  An item is the
    spec's VersionedEntry: key, version, value, user-metadata, expiry-time,
    deletion flag and discard-earlier-versions flag.  [valueCopy] is what
    [item.ValueCopy(nil)] returns, a copy of the value or an error;
    [isDeletedOrExpired] is what [item.IsDeletedOrExpired()] reports. *)
Record Item : Type := mkItem {
  key : Bytes.t;
  version : Z;
  valueCopy : result Bytes.t;
  userMeta : Byte.byte;
  expiresAt : Z;
  isDeletedOrExpired : bool;
  discardEarlierVersions : bool
}.

(** Modelled from the spec: the type [Iterator] (iterator.go) is a
    seekable, forward-iterating cursor over the entries of a snapshot,
    sorted by key and then by descending version.  [data] is the whole
    snapshot, [cur] what is left from the current position on, and [Prefix]
    the [IteratorOptions.Prefix] the cursor was opened with: [Valid] is
    true only on an entry whose key has that prefix (stream.go, line 142). *)
Record Iterator : Type := mkIterator {
  Prefix : Bytes.t;
  data : list Item;
  cur : list Item
}.

Definition Valid (itr : Iterator) : bool :=
  match cur itr with
  | [] => false
  | item :: _ => Bytes.HasPrefix (key item) (Prefix itr)
  end.

Definition Next (itr : Iterator) : Iterator :=
  mkIterator (Prefix itr) (data itr) (tl (cur itr)).

Fixpoint seekFrom (k : Bytes.t) (l : list Item) : list Item :=
  match l with
  | [] => []
  | item :: l' => if Bytes.ltb (key item) k then seekFrom k l' else l
  end.

(** [itr.Seek(k)]: the first entry of the snapshot whose key is at least [k]. *)
Definition Seek (k : Bytes.t) (itr : Iterator) : Iterator :=
  mkIterator (Prefix itr) (data itr) (seekFrom k (data itr)).

(* ------------------------------------------------------------------ *)
(** ** The store and the stream *)

Record Options : Type := mkOptions {
  NumVersionsToKeep : Z;
  managedTxns : bool
}.

(** Modelled from the spec: [DB] (db.go) is used through three
    capabilities, the options, the split points [KeySplits] and the
    entries a read transaction sees.  [entries] lists every version of
    every key in cursor order. *)
Record DB : Type := mkDB {
  opt : Options;
  KeySplits : Bytes.t -> list Bytes.t;
  entries : list Item
}.

(** A read transaction is the list of entries it can see. *)
Definition Txn : Type := list Item.

(** Modelled from the spec: [NewTransactionAt readTs] pins the snapshot to
    the logical time [readTs]; [NewTransaction] reads the latest committed
    state. *)
Definition NewTransactionAt (db : DB) (readTs : Z) : Txn :=
  filter (fun item => version item <=? readTs) (entries db).

Definition NewTransaction (db : DB) : Txn := entries db.

Definition NewIterator (txn : Txn) (prefix : Bytes.t) : Iterator :=
  mkIterator prefix txn txn.

(** What [KeyToList] returns: [(nil, err)], or a possibly nil list. *)
Definition KeyToListFn : Type :=
  Bytes.t -> Iterator -> result (option pb.KVList) * Iterator.

Record keyRange : Type := mkKeyRange {
  left : Bytes.t;
  right : Bytes.t
}.

Record Stream : Type := mkStream {
  StPrefix : Bytes.t;
  readTs : Z;
  db : DB;
  ChooseKey : option (Item -> bool);
  KeyToList : option KeyToListFn;
  Send : option (pb.KVList -> option error)
}.

Definition pageSize : Z := Z.shiftl 4 20.

(* ------------------------------------------------------------------ *)
(** ** [ToList], the default key-expansion policy *)

Definition toKV (item : Item) (valCopy : Bytes.t) : pb.KV :=
  pb.mkKV (key item) valCopy [userMeta item] (version item) (expiresAt item).

(** The loop of [ToList], by recursion on what is left of the cursor; it
    returns the result together with the position the cursor is left at.
    A [break] leaves the cursor on the current entry: the post statement
    [itr.Next()] only runs when the body falls through. *)
Fixpoint ToList_loop (st : Stream) (k : Bytes.t) (pfx : Bytes.t)
    (snapshot : list Item) (rest : list Item) (list : pb.KVList)
    : result (option pb.KVList) * Iterator :=
  let itr := mkIterator pfx snapshot rest in
  match rest with
  | [] => (Ok (Some list), itr)
  | item :: rest' =>
      if negb (Valid itr) then (Ok (Some list), itr)
      else if isDeletedOrExpired item then (Ok (Some list), itr)
      else if negb (Bytes.Equal k (key item)) then (Ok (Some list), itr)
      else
        match valueCopy item with
        | Err err => (Err err, itr)
        | Ok valCopy =>
            let list := list ++ [toKV item valCopy] in
            if NumVersionsToKeep (opt (db st)) =? 1 then (Ok (Some list), itr)
            else if discardEarlierVersions item then (Ok (Some list), itr)
            else ToList_loop st k pfx snapshot rest' list
        end
  end.

Definition ToList (st : Stream) : KeyToListFn :=
  fun k itr => ToList_loop st k (Prefix itr) (data itr) (cur itr) [].

(** [Orchestrate] installs [ToList] when [KeyToList] was left nil. *)
Definition keyToList (st : Stream) : KeyToListFn :=
  match KeyToList st with
  | Some f => f
  | None => ToList st
  end.

(* ------------------------------------------------------------------ *)
(** ** [produceRanges], the range splitter *)

(** The values sent on [rangeCh], in the order they are sent; the channel
    is closed after the last one. *)
Fixpoint produceRanges_from (start : Bytes.t) (splits : list Bytes.t)
    : list keyRange :=
  match splits with
  | [] => [mkKeyRange start []]
  | k :: splits' => mkKeyRange start k :: produceRanges_from k splits'
  end.

Definition produceRanges (st : Stream) : list keyRange :=
  produceRanges_from (StPrefix st) (KeySplits (db st) (StPrefix st)).

(* ------------------------------------------------------------------ *)
(** ** [produceKVs], the scan worker *)

(** [list.Size()], the serialized size of a [pb.KVList], is generated code
    (pb/pb.pb.go) outside the sources at hand: the stream is parametric in
    it. *)
Class KVListSize : Type := Size : pb.KVList -> Z.

(** Go's [int] is 64 bits wide here; [size += list.Size()] wraps. *)
Definition wrap_int (z : Z) : Z := (z + 2 ^ 63) mod 2 ^ 64 - 2 ^ 63.

(** How a call of [iterate] ends: it returns [nil] or an error, or it never
    returns (a user [KeyToList] that moves the cursor backwards). *)
Inductive outcome : Type :=
| Returned (err : option error)
| Spinning.

Record iterResult : Type := mkIterResult {
  pushed : list pb.KVList;   (* the pages sent on [kvChan], in order *)
  sizeAfter : Z;             (* [size] when the call ends *)
  ending : outcome
}.

Definition push (page : pb.KVList) (r : iterResult) : iterResult :=
  mkIterResult (page :: pushed r) (sizeAfter r) (ending r).

(** After the loop: [if len(outList.Kv) > 0 { st.kvChan <- outList }]. *)
Definition iterate_end (outList : pb.KVList) (size : Z) : iterResult :=
  mkIterResult (if 0 <? Z.of_nat (length outList) then [outList] else [])
               size (Returned None).

Definition rejects (st : Stream) (item : Item) : bool :=
  match ChooseKey st with
  | Some choose => negb (choose item)
  | None => false
  end.

Definition nilOrEmpty (list : option pb.KVList) : bool :=
  match list with
  | None => true
  | Some l => Z.of_nat (length l) =? 0
  end.

Definition Kv (list : option pb.KVList) : pb.KVList :=
  match list with
  | None => []
  | Some l => l
  end.

Section Scan.

Context `{KVListSize}.

(** The loop of [iterate]; one unit of [fuel] per turn of the loop. *)
Fixpoint iterate_loop (fuel : nat) (st : Stream) (kr : keyRange)
    (itr : Iterator) (prevKey : Bytes.t) (outList : pb.KVList) (size : Z)
    : iterResult :=
  match fuel with
  | O => mkIterResult [] size Spinning
  | S fuel =>
      match cur itr with
      | [] => iterate_end outList size
      | item :: _ =>
          if negb (Valid itr) then iterate_end outList size
          else if Bytes.Equal (key item) prevKey then
            iterate_loop fuel st kr (Next itr) prevKey outList size
          else
            let prevKey := key item in
            if (0 <? Z.of_nat (length (right kr)))
               && Bytes.geb (key item) (right kr)
            then iterate_end outList size
            else if rejects st item then
              iterate_loop fuel st kr itr prevKey outList size
            else
              match keyToList st (key item) itr with
              | (Err err, _) => mkIterResult [] size (Returned (Some err))
              | (Ok list, itr) =>
                  if nilOrEmpty list then
                    iterate_loop fuel st kr itr prevKey outList size
                  else
                    let outList := outList ++ Kv list in
                    let size := wrap_int (size + Size (Kv list)) in
                    if size >=? pageSize then
                      push outList (iterate_loop fuel st kr itr prevKey [] 0)
                    else iterate_loop fuel st kr itr prevKey outList size
              end
      end
  end.

(** The transaction [produceKVs] opens. *)
Definition produceKVs_txn (st : Stream) : Txn :=
  if readTs st >? 0 then NewTransactionAt (db st) (readTs st)
  else NewTransaction (db st).

(** Two turns of the loop per entry, and one to see the end: enough for
    [ToList], which only moves the cursor forward (see [iterate_range]). *)
Definition enough (txn : Txn) : nat := S (2 * length txn).

(** The closure [iterate] of [produceKVs]: a fresh cursor on the
    transaction, options [AllVersions] and [Prefix], sought to [kr.left]. *)
Definition iterate (st : Stream) (txn : Txn) (kr : keyRange) (size : Z)
    : iterResult :=
  let itr := NewIterator txn (StPrefix st) in
  iterate_loop (enough txn) st kr (Seek (left kr) itr) [] [] size.

(** [produceKVs] on the ranges one worker receives, in order, when no
    cancellation interferes: the pages it sends, and how it ends.  The
    counter [size] is declared outside [iterate] and lives across ranges. *)
Fixpoint produceKVs_ranges (st : Stream) (txn : Txn) (krs : list keyRange)
    (size : Z) : iterResult :=
  match krs with
  | [] => mkIterResult [] size (Returned None)
  | kr :: krs' =>
      let r := iterate st txn kr size in
      match ending r with
      | Returned None =>
          let r' := produceKVs_ranges st txn krs' (sizeAfter r) in
          mkIterResult (pushed r ++ pushed r') (sizeAfter r') (ending r')
      | _ => r
      end
  end.

Definition produceKVs (st : Stream) (krs : list keyRange) : iterResult :=
  produceKVs_ranges st (produceKVs_txn st) krs 0.

End Scan.

(* ------------------------------------------------------------------ *)
(** ** [NewStream] and [NewStreamAt] *)

(** A Go [panic] unwinds the caller: the constructor hands back no stream. *)
Inductive construction : Type :=
| Built (st : Stream)
| Panic (msg : string).

(** The fields a constructor leaves at their zero value. *)
Definition zeroStream (d : DB) (ts : Z) : Stream :=
  mkStream [] ts d None None None.

Definition NewStream (d : DB) : construction :=
  if managedTxns (opt d) then
    Panic "This API can not be called in managed mode."
  else Built (zeroStream d 0).

Definition NewStreamAt (d : DB) (ts : Z) : construction :=
  if negb (managedTxns (opt d)) then
    Panic "This API can only be called in managed mode."
  else Built (zeroStream d ts).

(* ------------------------------------------------------------------ *)
(** ** Channels *)

Module Chan.

(** A buffered channel: the values sent and not yet received, oldest
    first, and whether it was closed. *)
Record t (A : Type) : Type := mk {
  buf : list A;
  closed : bool
}.
Arguments mk {A} buf closed.
Arguments buf {A} _.
Arguments closed {A} _.

Definition make {A : Type} : t A := mk [] false.

(** [c <- x] on a channel of capacity [cap]: [None] while the buffer is
    full, when the sender waits.  (No goroutine of the stream sends on a
    channel that was closed.) *)
Definition send {A : Type} (cap : nat) (x : A) (c : t A) : option (t A) :=
  if closed c then None
  else if (length (buf c) <? cap)%nat then Some (mk (buf c ++ [x]) false)
  else None.

Inductive received (A : Type) : Type :=
| Got (x : A) (c : t A)   (* [x, ok := <-c] with [ok] true *)
| Closed                  (* [ok] false: closed and drained *)
| Blocked.                (* empty and open: the receiver waits *)
Arguments Got {A} x c.
Arguments Closed {A}.
Arguments Blocked {A}.

Definition recv {A : Type} (c : t A) : received A :=
  match buf c with
  | x :: b => Got x (mk b (closed c))
  | [] => if closed c then Closed else Blocked
  end.

Definition close {A : Type} (c : t A) : t A := mk (buf c) true.

End Chan.

(* ------------------------------------------------------------------ *)
(** ** [Orchestrate]: the goroutines as a transition system *)

(** [produceRanges]: the ranges still to send; after the last one the
    channel is closed. *)
Inductive splitterState : Type :=
| Splitting (pending : list keyRange)
| SplitDone.

(** One goroutine running [produceKVs]: at the [select] of its loop; inside
    [iterate], with the pages this call still has to send on [kvChan] and
    the way the call ends after them; back from [produceKVs] with an error
    and about to attempt [errCh <- err]; done ([wg.Done]). *)
Inductive workerState : Type :=
| WSelect (size : Z)
| WSending (pages : list pb.KVList) (after : outcome) (size : Z)
| WReport (err : error)
| WDone.

(** [streamKVs]: at the outer [select]; inside [slurp] with the batch
    gathered so far; returned, its result sent on [kvErr]. *)
Inductive drainerState : Type :=
| DSelect
| DSlurp (batch : pb.KVList)
| DDone.

(** The caller of [Orchestrate]: at [wg.Wait()], at [close(st.kvChan)], at
    the [select] on [errCh], at [<-kvErr], and returned. *)
Inductive callerState : Type :=
| CWait
| CClose
| CCheck
| CRecv
| CReturned (err : option error).

Record world : Type := mkWorld {
  ctxDone : bool;                    (* [ctx.Done()] is closed *)
  rangeCh : Chan.t keyRange;         (* capacity 3 *)
  kvChan : Chan.t pb.KVList;         (* capacity 3 *)
  errCh : Chan.t error;              (* capacity 1 *)
  kvErr : Chan.t (option error);     (* capacity 1 *)
  splitter : splitterState;
  workers : list workerState;
  drainer : drainerState;
  caller : callerState;
  sinkLog : list pb.KVList;          (* history: the batches given to [Send] *)
  reported : list error;             (* history: the errors workers came back with *)
  crashed : bool                     (* a goroutine panicked *)
}.

(** What a goroutine does next; for a [select] the action names the case
    the runtime picks among those that are ready. *)
Inductive action : Type :=
| Cancel                   (* the environment cancels the context *)
| SplitSend                (* [st.rangeCh <- keyRange{...}] *)
| SplitClose               (* [close(st.rangeCh)] *)
| WorkerRecv (i : nat)     (* [case kr, ok := <-st.rangeCh] *)
| WorkerCtx (i : nat)      (* [case <-ctx.Done()] *)
| WorkerPush (i : nat)     (* [st.kvChan <- outList] *)
| WorkerRet (i : nat)      (* [iterate] returns *)
| WorkerReport (i : nat)   (* [select { case errCh <- err: default: }] *)
| DrainCtx                 (* [case <-ctx.Done()] *)
| DrainTick                (* [case <-t.C] *)
| DrainRecv                (* [case kvs, ok := <-st.kvChan] of the outer loop *)
| DrainSlurp               (* [case kvs, ok := <-st.kvChan] of [slurp] *)
| DrainSend                (* [default: break loop], then [st.Send(batch)] *)
| MainWait                 (* [wg.Wait()] returns *)
| MainClose                (* [close(st.kvChan)] *)
| MainCheck                (* [select { case err := <-errCh: default: }] *)
| MainRecv.                (* [<-kvErr] *)

Definition setWorker (i : nat) (s : workerState) (ws : list workerState)
    : list workerState :=
  firstn i ws ++ s :: skipn (S i) ws.
Arguments setWorker : simpl never.

Definition isDone (s : workerState) : bool :=
  match s with
  | WDone => true
  | _ => false
  end.

Section Orchestrate.

Context `{KVListSize}.

Variable st : Stream.

Definition withWorker (w : world) (i : nat) (s : workerState) : world :=
  mkWorld (ctxDone w) (rangeCh w) (kvChan w) (errCh w) (kvErr w)
          (splitter w) (setWorker i s (workers w)) (drainer w) (caller w)
          (sinkLog w) (reported w) (crashed w).

Definition withRangeCh (w : world) (c : Chan.t keyRange) : world :=
  mkWorld (ctxDone w) c (kvChan w) (errCh w) (kvErr w)
          (splitter w) (workers w) (drainer w) (caller w)
          (sinkLog w) (reported w) (crashed w).

Definition withKvChan (w : world) (c : Chan.t pb.KVList) : world :=
  mkWorld (ctxDone w) (rangeCh w) c (errCh w) (kvErr w)
          (splitter w) (workers w) (drainer w) (caller w)
          (sinkLog w) (reported w) (crashed w).

Definition withSplitter (w : world) (s : splitterState) : world :=
  mkWorld (ctxDone w) (rangeCh w) (kvChan w) (errCh w) (kvErr w)
          s (workers w) (drainer w) (caller w)
          (sinkLog w) (reported w) (crashed w).

Definition withDrainer (w : world) (s : drainerState) : world :=
  mkWorld (ctxDone w) (rangeCh w) (kvChan w) (errCh w) (kvErr w)
          (splitter w) (workers w) s (caller w)
          (sinkLog w) (reported w) (crashed w).

Definition withCaller (w : world) (s : callerState) : world :=
  mkWorld (ctxDone w) (rangeCh w) (kvChan w) (errCh w) (kvErr w)
          (splitter w) (workers w) (drainer w) s
          (sinkLog w) (reported w) (crashed w).

(** [streamKVs] returns [r]: the goroutine sends it on [kvErr], which
    has room for it, and ends. *)
Definition drainerReturns (w : world) (r : option error) : world :=
  mkWorld (ctxDone w) (rangeCh w) (kvChan w) (errCh w)
          (Chan.mk (Chan.buf (kvErr w) ++ [r]) (Chan.closed (kvErr w)))
          (splitter w) (workers w) DDone (caller w)
          (sinkLog w) (reported w) (crashed w).

(** The non-blocking attempt [select { case errCh <- err: default: }]. *)
Definition trySend (err : error) (c : Chan.t error) : Chan.t error :=
  match Chan.send 1 err c with
  | Some c' => c'
  | None => c
  end.

Definition stepSplitter (a : action) (w : world) : option world :=
  match a, splitter w with
  | SplitSend, Splitting (kr :: pending) =>
      match Chan.send 3 kr (rangeCh w) with
      | Some c => Some (withSplitter (withRangeCh w c) (Splitting pending))
      | None => None
      end
  | SplitClose, Splitting [] =>
      Some (withSplitter (withRangeCh w (Chan.close (rangeCh w))) SplitDone)
  | _, _ => None
  end.

Definition stepWorker (a : action) (w : world) : option world :=
  match a with
  | WorkerRecv i =>
      match nth_error (workers w) i with
      | Some (WSelect size) =>
          match Chan.recv (rangeCh w) with
          | Chan.Got kr c =>
              let r := iterate st (produceKVs_txn st) kr size in
              Some (withWorker (withRangeCh w c) i
                      (WSending (pushed r) (ending r) (sizeAfter r)))
          | Chan.Closed => Some (withWorker w i WDone)
          | Chan.Blocked => None
          end
      | _ => None
      end
  | WorkerCtx i =>
      match nth_error (workers w) i with
      | Some (WSelect size) =>
          if ctxDone w then Some (withWorker w i (WReport Canceled))
          else None
      | _ => None
      end
  | WorkerPush i =>
      match nth_error (workers w) i with
      | Some (WSending (page :: pages) after size) =>
          match Chan.send 3 page (kvChan w) with
          | Some c =>
              Some (withWorker (withKvChan w c) i
                      (WSending pages after size))
          | None => None
          end
      | _ => None
      end
  | WorkerRet i =>
      match nth_error (workers w) i with
      | Some (WSending [] (Returned None) size) =>
          Some (withWorker w i (WSelect size))
      | Some (WSending [] (Returned (Some err)) size) =>
          Some (withWorker w i (WReport err))
      | _ => None
      end
  | WorkerReport i =>
      match nth_error (workers w) i with
      | Some (WReport err) =>
          Some (mkWorld (ctxDone w) (rangeCh w) (kvChan w)
                  (trySend err (errCh w)) (kvErr w)
                  (splitter w) (setWorker i WDone (workers w))
                  (drainer w) (caller w)
                  (sinkLog w) (reported w ++ [err]) (crashed w))
      | _ => None
      end
  | _ => None
  end.

(** [st.Send(batch)]; calling a nil [Send] panics. *)
Definition callSend (w : world) (batch : pb.KVList) : world :=
  match Send st with
  | None =>
      mkWorld (ctxDone w) (rangeCh w) (kvChan w) (errCh w) (kvErr w)
              (splitter w) (workers w) (drainer w) (caller w)
              (sinkLog w) (reported w) true
  | Some send =>
      let w' :=
        mkWorld (ctxDone w) (rangeCh w) (kvChan w) (errCh w) (kvErr w)
                (splitter w) (workers w) (drainer w) (caller w)
                (sinkLog w ++ [batch]) (reported w) (crashed w) in
      match send batch with
      | Some err => drainerReturns w' (Some err)
      | None => withDrainer w' DSelect
      end
  end.

Definition stepDrainer (a : action) (w : world) : option world :=
  match a, drainer w with
  | DrainCtx, DSelect =>
      if ctxDone w then Some (drainerReturns w (Some Canceled)) else None
  | DrainTick, DSelect => Some w
  | DrainRecv, DSelect =>
      match Chan.recv (kvChan w) with
      | Chan.Got kvs c => Some (withDrainer (withKvChan w c) (DSlurp kvs))
      | Chan.Closed => Some (drainerReturns w None)
      | Chan.Blocked => None
      end
  | DrainSlurp, DSlurp batch =>
      match Chan.recv (kvChan w) with
      | Chan.Got kvs c =>
          Some (withDrainer (withKvChan w c) (DSlurp (batch ++ kvs)))
      | _ => None
      end
  | DrainSend, DSlurp batch =>
      match Chan.recv (kvChan w) with
      | Chan.Got _ _ => None
      | _ => Some (callSend w batch)
      end
  | _, _ => None
  end.

Definition stepCaller (a : action) (w : world) : option world :=
  match a, caller w with
  | MainWait, CWait =>
      if forallb isDone (workers w) then Some (withCaller w CClose)
      else None
  | MainClose, CClose =>
      Some (withCaller (withKvChan w (Chan.close (kvChan w))) CCheck)
  | MainCheck, CCheck =>
      match Chan.recv (errCh w) with
      | Chan.Got err c =>
          Some (mkWorld (ctxDone w) (rangeCh w) (kvChan w) c (kvErr w)
                  (splitter w) (workers w) (drainer w)
                  (CReturned (Some err))
                  (sinkLog w) (reported w) (crashed w))
      | _ => Some (withCaller w CRecv)
      end
  | MainRecv, CRecv =>
      match Chan.recv (kvErr w) with
      | Chan.Got r c =>
          Some (mkWorld (ctxDone w) (rangeCh w) (kvChan w) (errCh w) c
                  (splitter w) (workers w) (drainer w) (CReturned r)
                  (sinkLog w) (reported w) (crashed w))
      | _ => None
      end
  | _, _ => None
  end.

(** One step of the program: [None] when the action is not enabled (the
    goroutine is elsewhere, or it waits), and nothing moves once a
    goroutine has panicked. *)
Definition step (a : action) (w : world) : option world :=
  if crashed w then None
  else
    match a with
    | Cancel =>
        Some (mkWorld true (rangeCh w) (kvChan w) (errCh w) (kvErr w)
                (splitter w) (workers w) (drainer w) (caller w)
                (sinkLog w) (reported w) (crashed w))
    | SplitSend | SplitClose => stepSplitter a w
    | WorkerRecv _ | WorkerCtx _ | WorkerPush _ | WorkerRet _
    | WorkerReport _ => stepWorker a w
    | DrainCtx | DrainTick | DrainRecv | DrainSlurp | DrainSend =>
        stepDrainer a w
    | MainWait | MainClose | MainCheck | MainRecv => stepCaller a w
    end.

Fixpoint run (acts : list action) (w : world) : option world :=
  match acts with
  | [] => Some w
  | a :: acts' =>
      match step a w with
      | Some w' => run acts' w'
      | None => None
      end
  end.

(** [Orchestrate(ctx, numGo, logPrefix)] once its goroutines are started:
    the splitter has its ranges to send, [numGo] workers are at their
    [select] with [size] zero, the drainer is at its own, and the caller
    waits.  [cancelled] tells whether [ctx] was done already. *)
Definition Orchestrate (cancelled : bool) (numGo : Z) : world :=
  mkWorld cancelled Chan.make Chan.make Chan.make Chan.make
          (Splitting (produceRanges st))
          (repeat (WSelect 0) (Z.to_nat numGo))
          DSelect CWait [] [] false.

(** The worlds a run of [Orchestrate] can be in. *)
Definition reachable (cancelled : bool) (numGo : Z) (w : world) : Prop :=
  exists acts, run acts (Orchestrate cancelled numGo) = Some w.

End Orchestrate.

(* ================================================================== *)
(** * Vocabulary of the statements *)

(** ** Cursor order and the default policy *)

(** The order of the storage cursor: by key, then by descending version. *)
Definition entryBefore (a b : Item) : Prop :=
  Bytes.Compare (key a) (key b) = Lt \/ (key a = key b /\ version b < version a).

Definition cursorOrder (l : list Item) : Prop := Sorted entryBefore l.

(** Every value copy on the way succeeds. *)
Definition copiesSucceed (l : list Item) : Prop :=
  Forall (fun e => exists v, valueCopy e = Ok v) l.

(** The Record an entry becomes. *)
Definition recordOf (e : Item) : pb.KV :=
  toKV e (match valueCopy e with Ok v => v | Err _ => [] end).

Definition keepsOne (st : Stream) : bool :=
  NumVersionsToKeep (opt (db st)) =? 1.

(** An entry the default policy does not go past: once it is included, the
    walk is over. *)
Definition lastKept (st : Stream) (e : Item) : Prop :=
  keepsOne st = true \/ discardEarlierVersions e = true.

(** An entry the default policy stops in front of. *)
Definition notKept (k : Bytes.t) (e : Item) : Prop :=
  isDeletedOrExpired e = true \/ key e <> k.

Definition liveAt (k : Bytes.t) (e : Item) : Prop :=
  key e = k /\ isDeletedOrExpired e = false.

(* ------------------------------------------------------------------ *)
(** ** Invariants of the runs *)

(** No page and no batch is empty, wherever it is on its way from a worker
    to the sink. *)
Definition pagesNonEmpty (s : workerState) : Prop :=
  match s with
  | WSending pages _ _ => Forall (fun page => page <> []) pages
  | _ => True
  end.

Definition batchNonEmpty (d : drainerState) : Prop :=
  match d with
  | DSlurp batch => batch <> []
  | _ => True
  end.

Definition nothingEmpty (w : world) : Prop :=
  Forall (fun page => page <> []) (Chan.buf (kvChan w))
  /\ Forall pagesNonEmpty (workers w)
  /\ batchNonEmpty (drainer w)
  /\ Forall (fun batch => batch <> []) (sinkLog w).

(** A channel nobody can send on for lack of room. *)
Definition full {A : Type} (cap : nat) (c : Chan.t A) : Prop :=
  (cap <= length (Chan.buf c))%nat.

(** Worker [i] has the page [page] to send while [kvChan] is full and the
    drainer is gone. *)
Definition workerStuck (i : nat) (page : pb.KVList) (w : world) : Prop :=
  (exists pages after size,
      nth_error (workers w) i = Some (WSending (page :: pages) after size))
  /\ full 3 (kvChan w)
  /\ drainer w = DDone
  /\ caller w = CWait.

(** The splitter has the range [kr] to send while [rangeCh] is full and
    every worker is gone. *)
Definition splitterStuck (kr : keyRange) (w : world) : Prop :=
  (exists pending, splitter w = Splitting (kr :: pending))
  /\ full 3 (rangeCh w)
  /\ Forall (fun s => s = WDone) (workers w).







(** What [streamKVs] can return: nil, [ctx.Err()] once the context is
    done, or the error [Send] returned for one of the batches. *)
Definition drainerOutcome (st : Stream) (w : world) (r : option error)
    : Prop :=
  r = None
  \/ (r = Some Canceled /\ ctxDone w = true)
  \/ (exists send batch err,
         Send st = Some send /\ In batch (sinkLog w)
         /\ send batch = Some err /\ r = Some err).

(** The error slot [errCh] holds the first error a worker came back with,
    until the caller takes it out; the caller moves on from [wg.Wait()]
    only when every worker is done, and returns the error of the slot, or
    else what the drainer returned. *)
Definition slotKeepsFirst (st : Stream) (w : world) : Prop :=
  Chan.closed (errCh w) = false
  /\ Forall (drainerOutcome st w) (Chan.buf (kvErr w))
  /\ match caller w with
     | CWait => Chan.buf (errCh w) = firstn 1 (reported w)
     | CClose | CCheck =>
         Chan.buf (errCh w) = firstn 1 (reported w)
         /\ Forall (fun s => s = WDone) (workers w)
     | CRecv =>
         reported w = [] /\ Chan.buf (errCh w) = []
         /\ Forall (fun s => s = WDone) (workers w)
     | CReturned r =>
         Forall (fun s => s = WDone) (workers w)
         /\ match reported w with
            | e :: _ => r = Some e
            | [] => drainerOutcome st w r
            end
     end.

(* ------------------------------------------------------------------ *)
(** ** Coverage *)

Fixpoint takeWhile {A : Type} (p : A -> bool) (l : list A) : list A :=
  match l with
  | [] => []
  | x :: l' => if p x then x :: takeWhile p l' else []
  end.

Fixpoint dropWhile {A : Type} (p : A -> bool) (l : list A) : list A :=
  match l with
  | [] => []
  | x :: l' => if p x then dropWhile p l' else l
  end.

(** The histories of the keys of a list in cursor order: its maximal runs
    of entries of one key, each from the highest version down. *)
Fixpoint histories (l : list Item) : list (list Item) :=
  match l with
  | [] => []
  | e :: l' =>
      match histories l' with
      | (e' :: g) :: gs =>
          if Bytes.Equal (key e) (key e') then (e :: e' :: g) :: gs
          else [e] :: (e' :: g) :: gs
      | _ => [[e]]
      end
  end.

(** What the default policy retains of the history of one key: its
    versions from the highest down, up to and without the first that is
    deleted or expired, and not beyond the highest when one version is
    kept, nor beyond a version flagged discard-earlier-versions. *)
Fixpoint retained (st : Stream) (g : list Item) : list Item :=
  match g with
  | [] => []
  | e :: g' =>
      if isDeletedOrExpired e then []
      else if keepsOne st || discardEarlierVersions e then [e]
      else e :: retained st g'
  end.

(** The Records of a list of entries in cursor order under the default
    policy. *)
Definition collapsed (st : Stream) (l : list Item) : pb.KVList :=
  map recordOf (concat (map (retained st) (histories l))).

Definition hasPrefix (P : Bytes.t) (e : Item) : bool :=
  Bytes.HasPrefix (key e) P.

(** The snapshot restricted to the prefix. *)
Definition withPrefix (P : Bytes.t) (l : list Item) : list Item :=
  filter (hasPrefix P) l.

(** The distinct keys of a list in cursor order, and those among them
    whose highest version is live. *)
Definition distinctKeys (l : list Item) : list Bytes.t :=
  map key (concat (map (firstn 1) (histories l))).

Definition liveKeys (l : list Item) : list Bytes.t :=
  map key
      (filter (fun e => negb (isDeletedOrExpired e))
              (concat (map (firstn 1) (histories l)))).

(** An entry the scan of the range [kr] under the prefix [P] goes through:
    the cursor is valid on it and its key is below the right bound. *)
Definition inScan (P : Bytes.t) (kr : keyRange) (e : Item) : bool :=
  hasPrefix P e
  && negb ((0 <? Z.of_nat (length (right kr))) && Bytes.geb (key e) (right kr)).

(** The entries of the range [kr]: those of the snapshot with the prefix,
    from [kr.left] on and below [kr.right]. *)
Definition entriesOf (P : Bytes.t) (kr : keyRange) (txn : list Item)
    : list Item :=
  filter (fun e => inScan P kr e && Bytes.geb (key e) (left kr)) txn.

(** The loop of [iterate] without its pages: the Records it gathers when it
    returns nil, in the order it appends them. *)
Fixpoint scan (fuel : nat) (st : Stream) (kr : keyRange) (itr : Iterator)
    (prevKey : Bytes.t) : option pb.KVList :=
  match fuel with
  | O => None
  | S fuel =>
      match cur itr with
      | [] => Some []
      | item :: _ =>
          if negb (Valid itr) then Some []
          else if Bytes.Equal (key item) prevKey then
            scan fuel st kr (Next itr) prevKey
          else if (0 <? Z.of_nat (length (right kr)))
                  && Bytes.geb (key item) (right kr)
          then Some []
          else if rejects st item then scan fuel st kr itr (key item)
          else
            match keyToList st (key item) itr with
            | (Err _, _) => None
            | (Ok list, itr) =>
                option_map (app (Kv list)) (scan fuel st kr itr (key item))
            end
      end
  end.

(** The split points the stream relies on: in ascending order, none of
    them empty, all with the prefix. *)
Definition splitsInOrder (P : Bytes.t) (splits : list Bytes.t) : Prop :=
  Sorted (fun a b => Bytes.geb b a = true) splits
  /\ Forall (fun s => s <> [] /\ Bytes.HasPrefix s P = true) splits.

(** The Records of all pages of a call of [iterate]. *)
Definition records (r : iterResult) : pb.KVList := concat (pushed r).

(* ------------------------------------------------------------------ *)
(** ** Delivery *)

Definition KV_eq_dec (x y : pb.KV) : {x = y} + {x <> y}.
Proof.
  decide equality;
    try apply Z.eq_dec; apply (list_eq_dec Byte.byte_eq_dec).
Defined.

(** How often the Record [x] occurs in a list. *)
Definition occurrences (x : pb.KV) (l : pb.KVList) : nat :=
  count_occ KV_eq_dec l x.
Arguments occurrences : simpl never.

(** The Records of the range [kr] under the default policy. *)
Definition recordsOfRange (st : Stream) (kr : keyRange) : pb.KVList :=
  collapsed st (entriesOf (StPrefix st) kr (produceKVs_txn st)).

Definition heldByWorker (s : workerState) : pb.KVList :=
  match s with
  | WSending pages _ _ => concat pages
  | _ => []
  end.

Definition heldByDrainer (d : drainerState) : pb.KVList :=
  match d with
  | DSlurp batch => batch
  | _ => []
  end.

Definition pendingRanges (s : splitterState) : list keyRange :=
  match s with
  | Splitting pending => pending
  | SplitDone => []
  end.

(** Every Record of the run, wherever it is: handed to the sink, in the
    batch of the drainer, in a page in [kvChan], in a page a worker still
    has to send, or still to come out of a range that waits in [rangeCh]
    or at the splitter. *)
Definition held (st : Stream) (w : world) : pb.KVList :=
  concat (sinkLog w)
  ++ heldByDrainer (drainer w)
  ++ concat (Chan.buf (kvChan w))
  ++ concat (map heldByWorker (workers w))
  ++ concat (map (recordsOfRange st) (Chan.buf (rangeCh w)))
  ++ concat (map (recordsOfRange st) (pendingRanges (splitter w))).

(** No Record is lost or made up on the way, every call of [iterate]
    returns nil, and every range starts at a key with the prefix. *)
Definition conserved (st : Stream) (w : world) : Prop :=
  (forall x, occurrences x (held st w)
             = occurrences x (concat (map (recordsOfRange st)
                                          (produceRanges st))))
  /\ Forall (fun s => forall pages after size,
                 s = WSending pages after size -> after = Returned None)
            (workers w)
  /\ Forall (fun kr => Bytes.HasPrefix (left kr) (StPrefix st) = true)
            (Chan.buf (rangeCh w) ++ pendingRanges (splitter w)).

(** Where the channels stand once they are closed: [kvChan] is closed by
    the caller after [wg.Wait()], the drainer returns nil only from the
    closed and empty [kvChan], a worker is done only after an error or
    from the closed and empty [rangeCh], which is closed by the splitter
    after its last range. *)
Definition drained (c : Chan.t pb.KVList) (d : drainerState) : Prop :=
  Chan.closed c = true /\ Chan.buf c = [] /\ d = DDone.
Arguments drained : simpl never.

Definition wound (numGo : Z) (w : world) : Prop :=
  (Chan.closed (kvChan w) = true -> caller w <> CWait /\ caller w <> CClose)
  /\ Forall (fun r => r = None -> drained (kvChan w) (drainer w))
            (Chan.buf (kvErr w))
  /\ (caller w = CReturned None -> drained (kvChan w) (drainer w))
  /\ Forall (fun s => s = WDone ->
                      reported w <> []
                      \/ (Chan.closed (rangeCh w) = true
                          /\ Chan.buf (rangeCh w) = []))
            (workers w)
  /\ (Chan.closed (rangeCh w) = true -> splitter w = SplitDone)
  /\ length (workers w) = Z.to_nat numGo.

(** Entries of the key [k]. *)
Definition sameKey (k : Bytes.t) (e : Item) : bool := Bytes.Equal (key e) k.

(** What follows a run of entries of the key [k] is of another key. *)
Definition startsAnew (k : Bytes.t) (rest : list Item) : Prop :=
  match rest with
  | [] => True
  | e :: _ => key e <> k
  end.

(** Every value copy of an entry with the prefix succeeds. *)
Definition readable (P : Bytes.t) (l : list Item) : Prop :=
  Forall (fun e => hasPrefix P e = true -> exists v, valueCopy e = Ok v) l.

(** Keys never go down along a list. *)
Definition keysAscend (l : list Item) : Prop :=
  StronglySorted (fun a b => Bytes.geb (key b) (key a) = true) l.

(** A history is not empty and all its entries have the key of the first. *)
Definition oneKey (g : list Item) : Prop :=
  exists e g', g = e :: g' /\ Forall (fun x => key x = key e) g'.

(* ------------------------------------------------------------------ *)
(** ** The walk of [ToList] on any cursor *)

(** An entry [ToList] turns into a Record and then steps over: a live
    entry of the key, under the prefix of the cursor, whose value could be
    copied and which does not end the walk. *)
Definition steppedOver (st : Stream) (k pfx : Bytes.t) (e : Item) : Prop :=
  liveAt k e /\ hasPrefix pfx e = true /\ ~ lastKept st e
  /\ exists v, valueCopy e = Ok v.

(** An entry [ToList] would turn into a Record: a live entry of the key
    under the prefix of the cursor. *)
Definition wanted (k pfx : Bytes.t) (e : Item) : Prop :=
  liveAt k e /\ hasPrefix pfx e = true.

(* ------------------------------------------------------------------ *)
(** ** Termination and provenance of a scan *)

(** A key-expansion policy that never moves the cursor backwards, as the
    comment on [Stream.KeyToList] expects of the user. *)
Definition forwardOnly (f : KeyToListFn) : Prop :=
  forall k itr, exists n, cur (snd (f k itr)) = skipn n (cur itr).

(** The turns the loop of [iterate] has left at most under such a policy:
    two per entry, one to expand its key and one to step over it, and a
    last one to see the end. *)
Definition turnsLeft (itr : Iterator) (prevKey : Bytes.t) : nat :=
  match cur itr with
  | [] => 1
  | item :: _ =>
      if Bytes.Equal (key item) prevKey then 2 * length (cur itr)
      else S (2 * length (cur itr))
  end.

(** The Record [r] is made of an entry [e] of the list [l] the cursor has
    yet to go through: a live entry whose value could be copied, inside the
    range, and of a key the scan sees as new, different from [prevKey] or
    from the key of an entry in front of it. *)
Definition scannedFrom (kr : keyRange) (pfx prevKey : Bytes.t)
    (l : list Item) (r : pb.KV) : Prop :=
  exists l1 e l2,
    l = l1 ++ e :: l2 /\ r = recordOf e
    /\ isDeletedOrExpired e = false
    /\ (exists v, valueCopy e = Ok v)
    /\ inScan pfx kr e = true
    /\ (key e <> prevKey \/ exists e', In e' l1 /\ key e' <> key e).

(* ------------------------------------------------------------------ *)
(** ** The sizes of the pages *)

(** Pages sent because the counter [size] reached [pageSize], where the
    counter stood at [carry] when the first of them was begun and at zero
    when each of the others was begun. *)
Fixpoint filled `{KVListSize} (carry : Z) (pages : list pb.KVList) : Prop :=
  match pages with
  | [] => True
  | page :: pages' => pageSize <= carry + Size page /\ filled 0 pages'
  end.

(** A page the Records [l] of its last key were added to while the counter
    was still below [pageSize]. *)
Definition justFilled `{KVListSize} (carry : Z) (page : pb.KVList) : Prop :=
  exists q l k,
    page = q ++ l /\ l <> [] /\ Forall (fun r => pb.Key r = k) l
    /\ carry + Size q < pageSize.

Fixpoint minimal `{KVListSize} (carry : Z) (pages : list pb.KVList) : Prop :=
  match pages with
  | [] => True
  | page :: pages' => justFilled carry page /\ minimal 0 pages'
  end.

(* ------------------------------------------------------------------ *)
(** ** Coverage under [ChooseKey] *)

(** A history whose highest version [ChooseKey] accepts. *)
Definition chosen (st : Stream) (g : list Item) : bool :=
  match g with
  | e :: _ => negb (rejects st e)
  | [] => false
  end.

(** The Records of a list of entries in cursor order under the default
    policy, for the keys [ChooseKey] accepts. *)
Definition collapsedChosen (st : Stream) (l : list Item) : pb.KVList :=
  map recordOf
      (concat (map (retained st) (filter (chosen st) (histories l)))).

(** The keys whose highest version is live and accepted by [ChooseKey]. *)
Definition chosenKeys (st : Stream) (l : list Item) : list Bytes.t :=
  map key
      (filter (fun e => negb (isDeletedOrExpired e) && negb (rejects st e))
              (concat (map (firstn 1) (histories l)))).

(* ------------------------------------------------------------------ *)
(** ** The discipline of the channels *)

(** Where the channels stand along a run: [rangeCh] is closed by the
    splitter once it is done and [kvChan] by the caller once it is past
    [wg.Wait()] and [close], which it reaches only when every worker is
    done; [errCh] and [kvErr] are never closed; no buffer exceeds its
    capacity; and [kvErr] is empty until the drainer returns. *)
Definition channelsSafe (w : world) : Prop :=
  (Chan.closed (rangeCh w) = true -> splitter w = SplitDone)
  /\ (Chan.closed (kvChan w) = true ->
      caller w <> CWait /\ caller w <> CClose)
  /\ (caller w <> CWait -> Forall (fun s => s = WDone) (workers w))
  /\ Chan.closed (errCh w) = false
  /\ Chan.closed (kvErr w) = false
  /\ (length (Chan.buf (rangeCh w)) <= 3)%nat
  /\ (length (Chan.buf (kvChan w)) <= 3)%nat
  /\ (length (Chan.buf (errCh w)) <= 1)%nat
  /\ (length (Chan.buf (kvErr w)) <= 1)%nat
  /\ (drainer w <> DDone -> Chan.buf (kvErr w) = []).

(* ------------------------------------------------------------------ *)
(** ** What reaches the sink *)

(** A batch [Send] takes without an error. *)
Definition accepted (st : Stream) (batch : pb.KVList) : Prop :=
  exists send, Send st = Some send /\ send batch = None.

(** [streamKVs] stops at the first batch [Send] fails on: every batch
    handed to [Send] but the last was accepted, and so was the last while
    the drainer goes on; a nil [Send] is handed nothing. *)
Definition sendStops (st : Stream) (w : world) : Prop :=
  Forall (accepted st) (removelast (sinkLog w))
  /\ (drainer w <> DDone -> Forall (accepted st) (sinkLog w))
  /\ (Send st = None -> sinkLog w = []).

(** Every Record of the run, wherever it is on its way from a worker to
    the sink, has the property [Q]. *)
Definition everywhere (Q : pb.KV -> Prop) (w : world) : Prop :=
  Forall (Forall Q) (Chan.buf (kvChan w))
  /\ Forall (fun s => Forall Q (heldByWorker s)) (workers w)
  /\ Forall Q (heldByDrainer (drainer w))
  /\ Forall (Forall Q) (sinkLog w).

(** A Record made of a live entry of the snapshot of the stream whose
    value could be copied and whose key has the prefix. *)
Definition fromSnapshot (st : Stream) (r : pb.KV) : Prop :=
  exists e,
    In e (produceKVs_txn st) /\ r = recordOf e
    /\ isDeletedOrExpired e = false
    /\ (exists v, valueCopy e = Ok v)
    /\ Bytes.HasPrefix (pb.Key r) (StPrefix st) = true.

(* ------------------------------------------------------------------ *)
(** ** The history of a run *)

(** The page an action sends on [kvChan], and the range an action takes
    out of [rangeCh], if it is such an action. *)
Definition pageSent (a : action) (w : world) : list pb.KVList :=
  match a with
  | WorkerPush i =>
      match nth_error (workers w) i with
      | Some (WSending (page :: _) _ _) => [page]
      | _ => []
      end
  | _ => []
  end.

Definition rangeTaken (a : action) (w : world) : list keyRange :=
  match a with
  | WorkerRecv i =>
      match nth_error (workers w) i, Chan.recv (rangeCh w) with
      | Some (WSelect _), Chan.Got kr _ => [kr]
      | _, _ => []
      end
  | _ => []
  end.

Section History.

Context `{KVListSize}.

Variable st : Stream.

(** The pages sent on [kvChan] along a run, in the order of the sends,
    and the ranges taken out of [rangeCh], in the order they were taken. *)
Fixpoint sent (acts : list action) (w : world) : list pb.KVList :=
  match acts with
  | [] => []
  | a :: acts' =>
      match step st a w with
      | Some w' => pageSent a w ++ sent acts' w'
      | None => []
      end
  end.

Fixpoint taken (acts : list action) (w : world) : list keyRange :=
  match acts with
  | [] => []
  | a :: acts' =>
      match step st a w with
      | Some w' => rangeTaken a w ++ taken acts' w'
      | None => []
      end
  end.

End History.

(** The pages sent so far are, in this order: those of the batches handed
    to [Send], group by group; those the drainer has gathered in the batch
    it is about to hand over; those still in [kvChan]. *)
Definition inOrderOfSending (pages : list pb.KVList) (w : world) : Prop :=
  exists groups gathered,
    pages = concat groups ++ gathered ++ Chan.buf (kvChan w)
    /\ sinkLog w = map (@concat pb.KV) groups
    /\ match drainer w with
       | DSlurp batch => batch = concat gathered
       | _ => gathered = []
       end.

(** The ranges of the splitter are, in this order: those taken by a
    worker, those in [rangeCh], those the splitter has yet to send. *)
Definition inOrderOfSplitting (st : Stream) (ranges : list keyRange)
    (w : world) : Prop :=
  ranges ++ Chan.buf (rangeCh w) ++ pendingRanges (splitter w)
  = produceRanges st.

(* ------------------------------------------------------------------ *)
(** ** [Orchestrate] without workers *)

(** What holds along a run with no worker: nothing is scanned, sent or
    handed to [Send]; no range leaves [rangeCh]; the drainer returns
    nil or, on a context that is done, [ctx.Err()]. *)
Definition unmanned (st : Stream) (w : world) : Prop :=
  workers w = []
  /\ sinkLog w = []
  /\ Chan.buf (kvChan w) = []
  /\ (drainer w = DSelect \/ drainer w = DDone)
  /\ Chan.buf (errCh w) = []
  /\ Forall (fun r => r = None \/ (r = Some Canceled /\ ctxDone w = true))
            (Chan.buf (kvErr w))
  /\ (forall r, caller w = CReturned r ->
                r = None \/ (r = Some Canceled /\ ctxDone w = true))
  /\ Chan.buf (rangeCh w) ++ pendingRanges (splitter w) = produceRanges st.

(** With no worker the caller goes straight through [wg.Wait()], closes
    [kvChan] and finds [errCh] empty; the drainer sees [kvChan] closed and
    returns nil, which the caller returns. *)
Definition nobodyWorks : list action :=
  [MainWait; MainClose; MainCheck; DrainRecv; MainRecv].

(* ------------------------------------------------------------------ *)
(** ** A run to completion *)

(** Worker 0 sends a page and the drainer hands it to [Send] at once. *)
Definition deliverPage : list action := [WorkerPush 0; DrainRecv; DrainSend].

(** The splitter sends a range, worker 0 takes it, its pages are
    delivered one by one, and the call of [iterate] returns. *)
Definition scanRange (pages : nat) : list action :=
  [SplitSend; WorkerRecv 0]
    ++ concat (repeat deliverPage pages) ++ [WorkerRet 0].

(** Once the ranges are through: the splitter closes [rangeCh], every
    worker finds it closed and returns, the caller closes [kvChan] and
    finds [errCh] empty, the drainer finds [kvChan] closed and returns
    nil, and the caller returns it. *)
Definition windUp (numGo : nat) : list action :=
  SplitClose :: map WorkerRecv (seq 0 numGo)
    ++ [MainWait; MainClose; MainCheck; DrainRecv; MainRecv].

Section InTurn.

Context `{KVListSize}.

Variable st : Stream.

(** Worker 0 serves the ranges one after the other. *)
Fixpoint serve (krs : list keyRange) (size : Z) : list action :=
  match krs with
  | [] => []
  | kr :: krs' =>
      scanRange (length (pushed (iterate st (produceKVs_txn st) kr size)))
        ++ serve krs' (sizeAfter (iterate st (produceKVs_txn st) kr size))
  end.

Definition inTurn (numGo : Z) : list action :=
  serve (produceRanges st) 0 ++ windUp (Z.to_nat numGo).

End InTurn.

(** The worlds such a run goes through while worker 0 serves the ranges,
    and while it winds up. *)
Definition atWork (c : bool) (rc : Chan.t keyRange) (sp : splitterState)
    (first : workerState) (others : list workerState)
    (log : list pb.KVList) : world :=
  mkWorld c rc Chan.make Chan.make Chan.make sp (first :: others)
          DSelect CWait log [] false.

Definition winding (c : bool) (ws : list workerState)
    (log : list pb.KVList) : world :=
  mkWorld c (Chan.mk [] true) Chan.make Chan.make Chan.make SplitDone ws
          DSelect CWait log [] false.

(* ================================================================== *)
(** * Sample stores, streams and runs *)

Module Sample.

Definition a : Bytes.t := [Byte.x61].
Definition b : Bytes.t := [Byte.x62].
Definition c : Bytes.t := [Byte.x63].

(** A live entry, a deleted one, and a live one flagged
    discard-earlier-versions; the value is the single byte "v". *)
Definition live (k : Bytes.t) (ver : Z) : Item :=
  mkItem k ver (Ok [Byte.x76]) Byte.x00 0 false false.

Definition deleted (k : Bytes.t) (ver : Z) : Item :=
  mkItem k ver (Ok []) Byte.x00 0 true false.

Definition flagged (k : Bytes.t) (ver : Z) : Item :=
  mkItem k ver (Ok [Byte.x76]) Byte.x00 0 false true.

(** An entry whose value cannot be read back. *)
Definition unreadable (k : Bytes.t) (ver : Z) : Item :=
  mkItem k ver (Err (Failure "value log")) Byte.x00 0 false false.

Definition store (keep : Z) (managed : bool) (splits : list Bytes.t)
    (l : list Item) : DB :=
  mkDB (mkOptions keep managed) (fun _ => splits) l.

Definition stream (d : DB) (prefix : Bytes.t) : Stream :=
  mkStream prefix 0 d None None (Some (fun _ => None)).

(** Key "a" with versions 5 and 4 live and version 3 deleted, then key
    "b"; every version is kept ([NumVersionsToKeep] is [math.MaxInt32]). *)
Definition history : list Item :=
  [live a 5; live a 4; deleted a 3; live b 7].

Definition keepAll : Stream := stream (store 2147483647 false [] history) [].

(** The same history on a store that keeps one version per key. *)
Definition keepOne : Stream := stream (store 1 false [] history) [].

Definition cursor (l : list Item) : Iterator := mkIterator [] l l.

End Sample.

Module SampleRanges.

(** A stream restricted to the prefix "a" on a store too small to have
    split points. *)
Definition prefixed : Stream :=
  Sample.stream (Sample.store 1 false [] Sample.history) Sample.a.

(** The whole store, split at "b" and at "c". *)
Definition split : Stream :=
  Sample.stream
    (Sample.store 1 false [Sample.b; Sample.c] Sample.history) [].

End SampleRanges.

Module SamplePolicies.

(** A key-expansion policy that keeps nothing: it steps over the entry
    and returns a nil list. *)
Definition keepNothing : KeyToListFn := fun _ itr => (Ok None, Next itr).

Definition silent : Stream :=
  mkStream [] 0 (Sample.store 1 false [] Sample.history) None
           (Some keepNothing) (Some (fun _ => None)).

(** Every list serializes to three MiB per Record. *)
Definition threeMiB : KVListSize :=
  fun l => 3 * 2 ^ 20 * Z.of_nat (length l).

End SamplePolicies.

Module SamplePages.

(** Three keys with one live version each, split at "b": the ranges are
    [empty, "b") and ["b", empty). *)
Definition entries : list Item :=
  [Sample.live Sample.a 1; Sample.live Sample.b 1; Sample.live Sample.c 1].

Definition twoRanges : Stream :=
  Sample.stream (Sample.store 1 false [Sample.b] entries) [].

Definition recordA : pb.KV := recordOf (Sample.live Sample.a 1).
Definition recordB : pb.KV := recordOf (Sample.live Sample.b 1).
Definition recordC : pb.KV := recordOf (Sample.live Sample.c 1).

End SamplePages.

Module SampleRuns.

Definition d : Bytes.t := [Byte.x64].

(** Every list serializes to four MiB per Record: each key fills a page. *)
Definition fourMiB : KVListSize :=
  fun l => 4 * 2 ^ 20 * Z.of_nat (length l).

Definition fourKeys : list Item :=
  [Sample.live Sample.a 1; Sample.live Sample.b 1; Sample.live Sample.c 1;
   Sample.live d 1].

(** Four keys in a single range. *)
Definition oneRange : Stream :=
  Sample.stream (Sample.store 1 false [] fourKeys) [].

(** Four keys, split at "b", "c" and "d": four ranges. *)
Definition fourRanges : Stream :=
  Sample.stream (Sample.store 1 false [Sample.b; Sample.c; d] fourKeys) [].

(** One key in a single range. *)
Definition oneKey : Stream :=
  Sample.stream (Sample.store 1 false [] [Sample.live Sample.a 1]) [].

(** A worker takes the only range although the context is cancelled, its
    page goes through the drainer to the sink, and every later [select]
    picks the channel again. *)
Definition unaware : list action :=
  [SplitSend; WorkerRecv 0; WorkerPush 0; WorkerRet 0; SplitClose;
   WorkerRecv 0; DrainRecv; DrainSend; MainWait; MainClose; MainCheck;
   DrainRecv; MainRecv].


(** The worker is inside [iterate] when the context is cancelled; the
    drainer returns, and the worker fills [kvChan]. *)
Definition stuckWorker : list action :=
  [SplitSend; WorkerRecv 0; Cancel; DrainCtx;
   WorkerPush 0; WorkerPush 0; WorkerPush 0].

(** The splitter fills [rangeCh]; the worker sees the cancellation and the
    caller returns. *)
Definition stuckSplitter : list action :=
  [SplitSend; SplitSend; SplitSend;
   WorkerCtx 0; WorkerReport 0; MainWait; MainClose; MainCheck].

End SampleRuns.

Module SampleErrors.

(** The value of the only key cannot be read back: [ToList] fails. *)
Definition unreadable : Stream :=
  Sample.stream (Sample.store 1 false [] [Sample.unreadable Sample.a 1]) [].

(** Worker 0 takes the range and comes back with the failed value copy;
    meanwhile the context is cancelled and worker 1 leaves at its [select]
    and is the first to reach the error slot. *)
Definition twoFailures : list action :=
  [SplitSend; WorkerRecv 0; WorkerRet 0; Cancel; WorkerCtx 1;
   WorkerReport 1].

Definition andReturn : list action :=
  [WorkerReport 0; MainWait; MainClose; MainCheck].

End SampleErrors.

Module SampleDeadlock.

Definition e : Bytes.t := [Byte.x65].
Definition f : Bytes.t := [Byte.x66].

(** Five keys whose value can be read and a sixth whose value cannot. *)
Definition sixKeys : list Item :=
  [Sample.live Sample.a 1; Sample.live Sample.b 1; Sample.live Sample.c 1;
   Sample.live SampleRuns.d 1; Sample.live e 1; Sample.unreadable f 1].

(** The store is split at "f", and [Send] fails on every batch. *)
Definition stream : Stream :=
  mkStream [] 0 (Sample.store 1 false [f] sixKeys) None None
           (Some (fun _ => Some (Failure "sink"))).

(** The context is never cancelled.  Worker 0 takes the first range and
    worker 1 the second; worker 1 comes back with the failed value copy
    and records it in the error slot; [Send] fails on the first page and
    the drainer returns; worker 0 fills [kvChan] with three more pages. *)
Definition sinkFails : list action :=
  [SplitSend; SplitSend; SplitClose; WorkerRecv 0; WorkerRecv 1;
   WorkerRet 1; WorkerReport 1; WorkerPush 0; DrainRecv; DrainSend;
   WorkerPush 0; WorkerPush 0; WorkerPush 0].

End SampleDeadlock.

Module SampleCoverage.

(** The highest version of "a" is deleted, an older one is live. *)
Definition shadowed : list Item :=
  [Sample.deleted Sample.a 5; Sample.live Sample.a 4; Sample.live Sample.b 7].

Definition lossy : Stream :=
  Sample.stream (Sample.store 1 false [] shadowed) [].

(** Two live versions of "a", every version kept, the store split at "b". *)
Definition twoVersions : Stream :=
  Sample.stream (Sample.store 2147483647 false [Sample.b] Sample.history) [].

End SampleCoverage.

(* ------------------------------------------------------------------ *)
(** ** Further sample stores and streams *)

Module SampleEmptyKey.

(** A live entry stored under the empty key, in front of key "a". *)
Definition entries : list Item := [Sample.live [] 1; Sample.live Sample.a 1].

Definition stream : Stream :=
  Sample.stream (Sample.store 1 false [] entries) [].

End SampleEmptyKey.

Module SampleChoice.

(** [ChooseKey] accepts every key but "a". *)
Definition notA (item : Item) : bool :=
  negb (Bytes.Equal (key item) Sample.a).

(** The sample history, every version kept, split at "b". *)
Definition skipsA : Stream :=
  mkStream [] 0 (Sample.store 2147483647 false [Sample.b] Sample.history)
           (Some notA) None (Some (fun _ => None)).

End SampleChoice.

(* ================================================================== *)
(** * Properties *)

(* ------------------------------------------------------------------ *)
(** ** Byte slices *)

Module BytesFacts.

Lemma byte_compare_eq x y : Bytes.byte_compare x y = Eq <-> x = y.
Proof.
  unfold Bytes.byte_compare. rewrite N.compare_eq_iff. split.
  - intros E.
    assert (S : Some x = Some y)
      by (rewrite <- (Byte.of_to_N x), <- (Byte.of_to_N y), E; reflexivity).
    now inversion S.
  - now intros ->.
Qed.

Lemma byte_compare_opp x y :
  Bytes.byte_compare y x = CompOpp (Bytes.byte_compare x y).
Proof. unfold Bytes.byte_compare. apply N.compare_antisym. Qed.

Lemma byte_compare_trans x y z c :
  Bytes.byte_compare x y = c -> Bytes.byte_compare y z = c ->
  Bytes.byte_compare x z = c.
Proof.
  unfold Bytes.byte_compare. destruct c; intros A B.
  - apply N.compare_eq_iff in A, B. apply N.compare_eq_iff. congruence.
  - rewrite N.compare_lt_iff in *. lia.
  - rewrite N.compare_gt_iff in *. lia.
Qed.

Lemma Compare_eq a b : Bytes.Compare a b = Eq <-> a = b.
Proof. apply list_compare_refl, byte_compare_eq. Qed.

Lemma Compare_refl a : Bytes.Compare a a = Eq.
Proof. now apply Compare_eq. Qed.

Lemma Compare_opp a b : Bytes.Compare b a = CompOpp (Bytes.Compare a b).
Proof.
  apply list_compare_antisym;
    [apply byte_compare_eq | apply byte_compare_opp].
Qed.

Lemma Compare_trans a b c r :
  Bytes.Compare a b = r -> Bytes.Compare b c = r -> Bytes.Compare a c = r.
Proof.
  apply list_compare_trans;
    [apply byte_compare_eq | apply byte_compare_trans | apply byte_compare_opp].
Qed.

Lemma Equal_eq a b : Bytes.Equal a b = true <-> a = b.
Proof.
  revert b. induction a as [|x a IH]; intros [|y b]; simpl;
    try (split; [discriminate | congruence]); try tauto.
  rewrite andb_true_iff, IH. split.
  - intros [E ->]. f_equal.
    destruct (Byte.eqb x y) eqn:Q; [| discriminate].
    apply Byte.byte_dec_bl in Q. exact Q.
  - intros [= -> ->]. split; [| reflexivity].
    apply Byte.byte_dec_lb. reflexivity.
Qed.

Lemma Equal_refl a : Bytes.Equal a a = true.
Proof. now apply Equal_eq. Qed.

Lemma Equal_neq a b : Bytes.Equal a b = false <-> a <> b.
Proof.
  rewrite <- Equal_eq. destruct (Bytes.Equal a b); split; congruence.
Qed.

Lemma Equal_sym a b : Bytes.Equal a b = Bytes.Equal b a.
Proof.
  destruct (Bytes.Equal a b) eqn:E.
  - apply Equal_eq in E. subst. symmetry. apply Equal_refl.
  - apply Equal_neq in E. symmetry. apply Equal_neq. congruence.
Qed.

(** A slice is at least any of its prefixes. *)
Lemma HasPrefix_geb s p : Bytes.HasPrefix s p = true -> Bytes.geb s p = true.
Proof.
  unfold Bytes.geb, Bytes.Compare. revert s.
  induction p as [|y p IH]; intros [|x s]; simpl; try easy.
  rewrite andb_true_iff. intros [E P].
  apply Byte.byte_dec_bl in E. subst.
  rewrite (proj2 (byte_compare_eq y y) eq_refl). now apply IH.
Qed.

Lemma geb_refl a : Bytes.geb a a = true.
Proof. unfold Bytes.geb. now rewrite Compare_refl. Qed.

Lemma ltb_lt a b : Bytes.ltb a b = true <-> Bytes.Compare a b = Lt.
Proof.
  unfold Bytes.ltb, Bytes.geb. destruct (Bytes.Compare a b); simpl;
    split; congruence.
Qed.

Lemma geb_ltb a b : Bytes.geb a b = negb (Bytes.ltb a b).
Proof. unfold Bytes.ltb. now rewrite negb_involutive. Qed.

Lemma ltb_trans a b c :
  Bytes.ltb a b = true -> Bytes.ltb b c = true -> Bytes.ltb a c = true.
Proof. rewrite !ltb_lt. apply Compare_trans. Qed.

Lemma ltb_geb_trans a b c :
  Bytes.ltb a b = true -> Bytes.geb c b = true -> Bytes.ltb a c = true.
Proof.
  rewrite !ltb_lt. unfold Bytes.geb. intros L G.
  destruct (Bytes.Compare c b) eqn:E; [| discriminate |].
  - apply Compare_eq in E. now subst.
  - apply (Compare_trans a b c Lt L).
    rewrite Compare_opp, E. reflexivity.
Qed.

Lemma geb_trans a b c :
  Bytes.geb a b = true -> Bytes.geb b c = true -> Bytes.geb a c = true.
Proof.
  intros G1 G2. rewrite geb_ltb. apply negb_true_iff.
  destruct (Bytes.ltb a c) eqn:L; [| reflexivity].
  pose proof (ltb_geb_trans a c b L) as T.
  rewrite geb_ltb in G1. destruct (Bytes.geb b c) eqn:G; [| discriminate].
  rewrite T in G1 by reflexivity. discriminate.
Qed.

Lemma ltb_irrefl a : Bytes.ltb a a = false.
Proof. unfold Bytes.ltb. now rewrite geb_refl. Qed.

Lemma geb_antisym a b :
  Bytes.geb a b = true -> Bytes.geb b a = true -> a = b.
Proof.
  unfold Bytes.geb. rewrite (Compare_opp a b).
  destruct (Bytes.Compare a b) eqn:E; simpl; try discriminate.
  - intros _ _. now apply Compare_eq.
Qed.

Lemma geb_total a b : Bytes.geb a b = false -> Bytes.geb b a = true.
Proof.
  unfold Bytes.geb. rewrite (Compare_opp a b).
  destruct (Bytes.Compare a b); simpl; congruence.
Qed.

End BytesFacts.

(* ------------------------------------------------------------------ *)
(** ** The default key-expansion policy *)

Section ToListFacts.

Variable st : Stream.

Lemma keepsOne_false_walk e :
  keepsOne st = false -> discardEarlierVersions e = false -> ~ lastKept st e.
Proof. unfold lastKept. intros A B [C | C]; congruence. Qed.

(** One turn of the loop on a live entry of the key. *)
Lemma ToList_loop_live k pfx snap e rest acc v :
  Bytes.HasPrefix k pfx = true -> liveAt k e -> valueCopy e = Ok v ->
  ToList_loop st k pfx snap (e :: rest) acc =
    if keepsOne st || discardEarlierVersions e
    then (Ok (Some (acc ++ [recordOf e])), mkIterator pfx snap (e :: rest))
    else ToList_loop st k pfx snap rest (acc ++ [recordOf e]).
Proof.
  intros P [K L] V. simpl. unfold Valid, recordOf, keepsOne. simpl.
  rewrite K, P, L, BytesFacts.Equal_refl, V. simpl.
  destruct (NumVersionsToKeep (opt (db st)) =? 1); simpl; [reflexivity |].
  destruct (discardEarlierVersions e); reflexivity.
Qed.

(** One turn of the loop on an entry that is deleted, expired or of
    another key. *)
Lemma ToList_loop_stop k pfx snap e rest acc :
  notKept k e ->
  ToList_loop st k pfx snap (e :: rest) acc =
    (Ok (Some acc), mkIterator pfx snap (e :: rest)).
Proof.
  intros N. simpl. destruct (negb _); [reflexivity |].
  destruct (isDeletedOrExpired e) eqn:D; [reflexivity |].
  destruct N as [N | N]; [congruence |].
  assert (Q : Bytes.Equal k (key e) = false)
    by (apply BytesFacts.Equal_neq; congruence).
  now rewrite Q.
Qed.

Lemma liveAt_dec k e : {liveAt k e} + {notKept k e}.
Proof.
  unfold liveAt, notKept.
  destruct (isDeletedOrExpired e); [right; now left |].
  destruct (Bytes.Equal (key e) k) eqn:Q.
  - apply BytesFacts.Equal_eq in Q. left. now split.
  - apply BytesFacts.Equal_neq in Q. right. now right.
Qed.

(** What the walk keeps is a prefix [firstn n] of what the cursor has
    left, and the cursor ends [m] entries further, where either [m = n]
    and the walk stopped in front of entry [n], or [n = m + 1] and the
    walk stopped after including entry [m]. *)
Lemma ToList_loop_spec k pfx snap rest acc :
  Bytes.HasPrefix k pfx = true -> copiesSucceed rest ->
  exists n m,
    ToList_loop st k pfx snap rest acc =
      (Ok (Some (acc ++ map recordOf (firstn n rest))),
       mkIterator pfx snap (skipn m rest))
    /\ Forall (liveAt k) (firstn n rest)
    /\ Forall (fun e => ~ lastKept st e) (firstn m rest)
    /\ ((m = n /\
         (nth_error rest n = None \/
          exists e, nth_error rest n = Some e /\ notKept k e))
        \/ (n = S m /\ exists e, nth_error rest m = Some e /\ lastKept st e)).
Proof.
  intros P. revert acc. induction rest as [|e rest IH]; intros acc C.
  - exists 0%nat, 0%nat. simpl. rewrite app_nil_r.
    repeat split; auto.
  - inversion C as [|? ? [v V] C']; subst.
    destruct (liveAt_dec k e) as [L | N].
    + rewrite (ToList_loop_live _ _ _ _ _ _ v P L V).
      destruct (keepsOne st || discardEarlierVersions e) eqn:B.
      * exists 1%nat, 0%nat. simpl. repeat split; auto.
        right. split; [reflexivity |]. exists e. split; [reflexivity |].
        unfold lastKept. now apply orb_true_iff.
      * apply orb_false_iff in B. destruct B as [B1 B2].
        destruct (IH (acc ++ [recordOf e]) C') as (n & m & E & F1 & F2 & R).
        exists (S n), (S m). simpl. rewrite E, <- app_assoc. simpl.
        repeat split; auto.
        -- constructor; [now apply keepsOne_false_walk | exact F2].
        -- destruct R as [[-> R] | [-> R]]; [left | right]; auto.
    + rewrite (ToList_loop_stop _ _ _ _ _ _ N).
      exists 0%nat, 0%nat. simpl. rewrite app_nil_r. repeat split; auto.
      left. split; [reflexivity |]. right. now exists e.
Qed.

(** A failing value copy on a live entry of the key ends the walk with
    that error. *)
Lemma ToList_loop_copy_fails k pfx snap e rest acc err :
  Bytes.HasPrefix k pfx = true -> liveAt k e -> valueCopy e = Err err ->
  fst (ToList_loop st k pfx snap (e :: rest) acc) = Err err.
Proof.
  intros P [K L] V. simpl. unfold Valid. simpl.
  now rewrite K, P, L, BytesFacts.Equal_refl, V.
Qed.

End ToListFacts.

Section ToListClaims.

Variable st : Stream.

Lemma Version_recordOf e : pb.Version (recordOf e) = version e.
Proof. reflexivity. Qed.

Lemma Key_recordOf e : pb.Key (recordOf e) = key e.
Proof. reflexivity. Qed.

(** Among entries of one key the cursor order is the descending order of
    versions, and so is the order of the Records made from them. *)
Lemma kept_versions_descend k l n :
  cursorOrder l -> Forall (liveAt k) (firstn n l) ->
  Sorted (fun a b => pb.Version b < pb.Version a) (map recordOf (firstn n l)).
Proof.
  revert n. induction l as [|a l IH]; intros [|n] S F; simpl;
    try constructor.
  - apply IH; [now inversion S | now inversion F].
  - inversion S as [|? ? _ Hd]; subst. simpl in F.
    inversion F as [|? ? [Ka _] F']; subst.
    destruct l as [|b l]; [destruct n; constructor |].
    destruct n as [|n]; simpl; constructor.
    simpl in F'. inversion F' as [|? ? [Kb _] _]; subst.
    inversion Hd as [|? ? [Lt | [_ V]]]; subst.
    + rewrite Kb, BytesFacts.Compare_refl in Lt. discriminate.
    + exact V.
Qed.

(** The walk on three entries of one key, two live and the third deleted. *)
Lemma ToList_two_live_one_deleted k pfx snap e5 e4 e3 rest :
  Bytes.HasPrefix k pfx = true ->
  keepsOne st = false ->
  liveAt k e5 -> discardEarlierVersions e5 = false ->
  liveAt k e4 -> discardEarlierVersions e4 = false ->
  isDeletedOrExpired e3 = true ->
  copiesSucceed [e5; e4] ->
  fst (ToList st k (mkIterator pfx snap (e5 :: e4 :: e3 :: rest)))
  = Ok (Some [recordOf e5; recordOf e4]).
Proof.
  intros P K L5 D5 L4 D4 X C. unfold ToList. cbn [Prefix data cur].
  inversion C as [|? ? [v5 V5] C4]; subst.
  inversion C4 as [|? ? [v4 V4] _]; subst.
  rewrite (ToList_loop_live st _ _ _ _ _ _ v5 P L5 V5), K, D5.
  cbn [orb app].
  rewrite (ToList_loop_live st _ _ _ _ _ _ v4 P L4 V4), K, D4.
  cbn [orb app].
  rewrite ToList_loop_stop by (now left). reflexivity.
Qed.

End ToListClaims.

(** C2.  On a cursor positioned at the highest version of key [k] (and
    while every value copy succeeds) [ToList] returns one Record per entry
    of a prefix [firstn n] of what the cursor has left, in cursor order,
    which is the descending order of versions.  Every retained entry is a
    live entry of [k].  The walk ends in one of two ways.  Either it stops
    in front of entry [n], excluded together with everything behind it: the
    cursor is exhausted there, or that entry is deleted-or-expired or of
    another key.  Or it stops right after including entry [m = n - 1]: the
    versions-to-keep limit is 1, or that entry carries the
    discard-earlier-versions flag.  No entry before the stop could have
    ended the walk.  In particular, on the versions v5 (live), v4 (live),
    v3 (deleted) of one key under a keep-all policy the Records are exactly
    those of v5 and v4. *)
Theorem ToList_collapses_to_live_versions :
  (forall (st : Stream) (k : Bytes.t) (itr : Iterator),
      Valid itr = true ->
      (exists e rest, cur itr = e :: rest /\ key e = k) ->
      cursorOrder (cur itr) ->
      copiesSucceed (cur itr) ->
      exists n m,
        ToList st k itr =
          (Ok (Some (map recordOf (firstn n (cur itr)))),
           mkIterator (Prefix itr) (data itr) (skipn m (cur itr)))
        /\ Forall (liveAt k) (firstn n (cur itr))
        /\ Forall (fun e => ~ lastKept st e) (firstn m (cur itr))
        /\ ((m = n /\
             (nth_error (cur itr) n = None \/
              exists e, nth_error (cur itr) n = Some e /\ notKept k e))
            \/ (n = S m /\
                exists e, nth_error (cur itr) m = Some e /\ lastKept st e))
        /\ Sorted (fun a b => pb.Version b < pb.Version a)
                  (map recordOf (firstn n (cur itr))))
  /\ (forall (st : Stream) (k pfx : Bytes.t) (snap : list Item)
             (e5 e4 e3 : Item) (rest : list Item),
         Bytes.HasPrefix k pfx = true ->
         keepsOne st = false ->
         liveAt k e5 -> discardEarlierVersions e5 = false ->
         liveAt k e4 -> discardEarlierVersions e4 = false ->
         key e3 = k -> isDeletedOrExpired e3 = true ->
         copiesSucceed [e5; e4] ->
         fst (ToList st k (mkIterator pfx snap (e5 :: e4 :: e3 :: rest)))
         = Ok (Some [recordOf e5; recordOf e4])).
Proof.
  split.
  - intros st k itr V (e & rest & E & K) S C.
    assert (P : Bytes.HasPrefix k (Prefix itr) = true).
    { unfold Valid in V. rewrite E in V. now rewrite <- K. }
    destruct (ToList_loop_spec st k (Prefix itr) (data itr) (cur itr) [] P C)
      as (n & m & Q & F1 & F2 & R).
    exists n, m. unfold ToList. rewrite Q. simpl.
    repeat split; auto. now apply kept_versions_descend with (k := k).
  - intros st k pfx snap e5 e4 e3 rest P K L5 D5 L4 D4 _ X C.
    now apply ToList_two_live_one_deleted.
Qed.

(** Closes the side conditions of a statement at a sample store. *)
Ltac sample :=
  repeat match goal with
         | |- _ /\ _ => split
         | |- exists _, _ => eexists
         | |- cursorOrder _ => unfold cursorOrder
         | |- copiesSucceed _ => unfold copiesSucceed
         | |- Sorted _ _ => constructor
         | |- HdRel _ _ _ => constructor
         | |- Forall _ _ => constructor
         | |- entryBefore _ _ => first [left; reflexivity
                                       | right; split; reflexivity]
         | |- liveAt _ _ => split; reflexivity
         | |- _ = _ => reflexivity
         end.

Lemma ToList_collapses_at_sample_history :
  Valid (Sample.cursor Sample.history) = true /\
  cursorOrder Sample.history /\
  copiesSucceed Sample.history /\
  exists n m,
    ToList Sample.keepAll Sample.a (Sample.cursor Sample.history) =
      (Ok (Some (map recordOf (firstn n Sample.history))),
       mkIterator [] Sample.history (skipn m Sample.history))
    /\ Forall (liveAt Sample.a) (firstn n Sample.history)
    /\ Forall (fun e => ~ lastKept Sample.keepAll e) (firstn m Sample.history)
    /\ ((m = n /\
         (nth_error Sample.history n = None \/
          exists e, nth_error Sample.history n = Some e /\ notKept Sample.a e))
        \/ (n = S m /\
            exists e, nth_error Sample.history m = Some e
                      /\ lastKept Sample.keepAll e))
    /\ Sorted (fun a b => pb.Version b < pb.Version a)
              (map recordOf (firstn n Sample.history)).
Proof.
  split; [reflexivity |]. split; [sample |]. split; [sample |].
  apply (proj1 ToList_collapses_to_live_versions
           Sample.keepAll Sample.a (Sample.cursor Sample.history)).
  - reflexivity.
  - sample.
  - sample.
  - sample.
Defined.

Lemma ToList_loop_keepsOne_head st k pfx snap e rest rest' acc :
  NumVersionsToKeep (opt (db st)) = 1 ->
  fst (ToList_loop st k pfx snap (e :: rest) acc) =
  fst (ToList_loop st k pfx snap (e :: rest') acc).
Proof.
  intros K1. apply Z.eqb_eq in K1. cbn [ToList_loop]. unfold Valid.
  cbn [cur Prefix]. rewrite K1.
  destruct (negb _); [reflexivity |].
  destruct (isDeletedOrExpired e); [reflexivity |].
  destruct (negb _); [reflexivity |].
  destruct (valueCopy e); reflexivity.
Qed.

(** C5.  When the store keeps one version per key, [ToList] returns at most
    one Record (it returns no nil list, and a failed value copy gives an
    error and no Record at all).  The one Record is made from the entry the
    cursor is positioned at: it has the key asked for and that entry's
    version, which in cursor order is above the version of every later
    entry of the key.  What comes after that entry (live, deleted, expired
    or flagged) has no influence on the result. *)
Theorem ToList_keeps_only_highest_version :
  forall (st : Stream) (k : Bytes.t) (itr : Iterator),
    NumVersionsToKeep (opt (db st)) = 1 ->
    (exists l, fst (ToList st k itr) = Ok (Some l) \/
               exists err, fst (ToList st k itr) = Err err)
    /\ (forall l, fst (ToList st k itr) = Ok (Some l) ->
          (length l <= 1)%nat
          /\ forall r, In r l ->
               exists e rest v,
                 cur itr = e :: rest /\ valueCopy e = Ok v /\ r = toKV e v
                 /\ pb.Key r = k /\ pb.Version r = version e
                 /\ (cursorOrder (cur itr) ->
                     Forall (fun e' => key e' = k -> version e' < pb.Version r)
                            rest))
    /\ (forall e rest rest',
          cur itr = e :: rest ->
          fst (ToList st k itr) =
          fst (ToList st k (mkIterator (Prefix itr) (data itr) (e :: rest')))).
Proof.
  intros st k itr K1. unfold ToList.
  destruct itr as [pfx snap rest]. cbn [Prefix data cur].
  assert (K : (NumVersionsToKeep (opt (db st)) =? 1) = true)
    by (now apply Z.eqb_eq).
  split; [| split].
  3: { intros e rest0 rest' ->. now apply ToList_loop_keepsOne_head. }
  all: destruct rest as [|e rest].
  - exists []. now left.
  - cbn [ToList_loop]. unfold Valid. cbn [cur Prefix]. rewrite K.
    destruct (negb _); [exists []; now left |].
    destruct (isDeletedOrExpired e); [exists []; now left |].
    destruct (negb _); [exists []; now left |].
    destruct (valueCopy e) as [v | err].
    + eexists. left. reflexivity.
    + exists []. right. eexists. reflexivity.
  - intros l [= <-]. split; [simpl; lia | intros r []].
  - cbn [ToList_loop]. unfold Valid. cbn [cur Prefix]. rewrite K.
    destruct (negb (Bytes.HasPrefix (key e) pfx));
      [intros l [= <-]; split; [simpl; lia | intros r []] |].
    destruct (isDeletedOrExpired e);
      [intros l [= <-]; split; [simpl; lia | intros r []] |].
    destruct (negb (Bytes.Equal k (key e))) eqn:Q;
      [intros l [= <-]; split; [simpl; lia | intros r []] |].
    destruct (valueCopy e) as [v | err] eqn:V; [| intros l [=]].
    intros l [= <-]. split; [simpl; lia |].
    intros r [<- | []]. exists e, rest, v.
    apply negb_false_iff, BytesFacts.Equal_eq in Q.
    repeat split; auto.
    intros S. apply Sorted_StronglySorted in S.
    + inversion S as [|? ? _ F]; subst.
      eapply Forall_impl; [| exact F].
      intros e' [Lt | [_ Vlt]] Ke'; cbn [toKV pb.Version]; [| exact Vlt].
      rewrite Ke', BytesFacts.Compare_refl in Lt. discriminate.
    + intros x y z [L1 | [E1 V1]] [L2 | [E2 V2]].
      * left. eapply BytesFacts.Compare_trans; eassumption.
      * left. now rewrite <- E2.
      * left. now rewrite E1.
      * right. split; [congruence | lia].
Qed.

Lemma ToList_keeps_only_highest_at_sample_history :
  NumVersionsToKeep (opt (db Sample.keepOne)) = 1 /\
  fst (ToList Sample.keepOne Sample.a (Sample.cursor Sample.history))
  = Ok (Some [recordOf (Sample.live Sample.a 5)]) /\
  forall l,
    fst (ToList Sample.keepOne Sample.a (Sample.cursor Sample.history))
    = Ok (Some l) ->
    (length l <= 1)%nat.
Proof.
  split; [reflexivity |]. split; [reflexivity |].
  intros l E.
  apply (proj1 (proj2 (ToList_keeps_only_highest_version
                         Sample.keepOne Sample.a
                         (Sample.cursor Sample.history) eq_refl)) l E).
Defined.

(* ------------------------------------------------------------------ *)
(** ** The range splitter *)

Section Splitter.

Lemma produceRanges_from_lefts start splits :
  map left (produceRanges_from start splits) = start :: splits.
Proof.
  revert start. induction splits as [|k splits IH]; intros start; simpl;
    [reflexivity |]. now rewrite IH.
Qed.

Lemma produceRanges_from_rights start splits :
  map right (produceRanges_from start splits) = splits ++ [[]].
Proof.
  revert start. induction splits as [|k splits IH]; intros start; simpl;
    [reflexivity |]. now rewrite IH.
Qed.

Lemma produceRanges_from_length start splits :
  length (produceRanges_from start splits) = S (length splits).
Proof.
  rewrite <- (length_map left), produceRanges_from_lefts. reflexivity.
Qed.

Lemma produceRanges_from_chain start splits i r r' :
  nth_error (produceRanges_from start splits) i = Some r ->
  nth_error (produceRanges_from start splits) (S i) = Some r' ->
  right r = left r'.
Proof.
  revert start i. induction splits as [|k splits IH]; intros start i.
  - destruct i as [|[|i]]; simpl; discriminate.
  - destruct i as [|i]; cbn [produceRanges_from nth_error].
    + intros [= <-]. destruct splits; simpl; now intros [= <-].
    + apply IH.
Qed.

Lemma produceRanges_from_last start splits d :
  right (last (produceRanges_from start splits) d) = [].
Proof.
  revert start. induction splits as [|k splits IH]; intros start;
    [reflexivity |].
  cbn [produceRanges_from]. 
  destruct (produceRanges_from k splits) eqn:E.
  - pose proof (produceRanges_from_length k splits) as L.
    rewrite E in L. discriminate.
  - rewrite <- E. cbn [last]. rewrite E. rewrite <- E. apply IH.
Qed.

End Splitter.

(** C3, as the code has it.  Whatever the prefix and the split points, the
    splitter sends one range more than there are split points, so at least
    one.  The left bounds are the prefix followed by the split points and
    the right bounds are the split points followed by the empty slice: the
    first range starts at the prefix, consecutive ranges chain, and the
    last range is open-ended, for a bounded prefix as for the empty one.
    Without split points the single range [prefix, empty) is sent. *)
Theorem produceRanges_chain_and_open_end :
  forall st : Stream,
    let splits := KeySplits (db st) (StPrefix st) in
    let ranges := produceRanges st in
    length ranges = S (length splits)
    /\ map left ranges = StPrefix st :: splits
    /\ map right ranges = splits ++ [[]]
    /\ (forall i r r',
          nth_error ranges i = Some r -> nth_error ranges (S i) = Some r' ->
          right r = left r')
    /\ (forall d, right (last ranges d) = [])
    /\ (splits = [] -> ranges = [mkKeyRange (StPrefix st) []]).
Proof.
  intros st splits ranges. subst splits ranges. unfold produceRanges.
  split; [apply produceRanges_from_length |].
  split; [apply produceRanges_from_lefts |].
  split; [apply produceRanges_from_rights |].
  split; [apply produceRanges_from_chain |].
  split; [intros d; apply produceRanges_from_last |].
  intros ->. reflexivity.
Qed.

Lemma produceRanges_chain_at_sample_split :
  nth_error (produceRanges SampleRanges.split) 0
  = Some (mkKeyRange [] Sample.b)
  /\ nth_error (produceRanges SampleRanges.split) 1
     = Some (mkKeyRange Sample.b Sample.c)
  /\ right (mkKeyRange [] Sample.b) = left (mkKeyRange Sample.b Sample.c)
  /\ (KeySplits (db SampleRanges.prefixed) (StPrefix SampleRanges.prefixed)
      = []
      /\ produceRanges SampleRanges.prefixed
         = [mkKeyRange (StPrefix SampleRanges.prefixed) []]).
Proof.
  split; [reflexivity |]. split; [reflexivity |]. split.
  - apply (proj1 (proj2 (proj2 (proj2
             (produceRanges_chain_and_open_end SampleRanges.split))))
             0%nat); reflexivity.
  - split; [reflexivity |].
    apply (proj2 (proj2 (proj2 (proj2 (proj2
             (produceRanges_chain_and_open_end SampleRanges.prefixed)))))).
    reflexivity.
Defined.

(** C3 as stated fails: with the bounded prefix "a" and no split point the
    only range sent is ["a", empty), open-ended although the prefix is not
    the empty one; its right bound is not the upper bound "b" of the
    prefix. *)
Lemma produceRanges_open_end_on_bounded_prefix :
  StPrefix SampleRanges.prefixed = Sample.a
  /\ produceRanges SampleRanges.prefixed = [mkKeyRange Sample.a []]
  /\ ~ (right (last (produceRanges SampleRanges.prefixed) (mkKeyRange [] []))
        = [] -> StPrefix SampleRanges.prefixed = [])
  /\ right (last (produceRanges SampleRanges.prefixed) (mkKeyRange [] []))
     <> Sample.b.
Proof.
  split; [reflexivity |]. split; [reflexivity |]. split.
  - intros H. specialize (H eq_refl). discriminate.
  - discriminate.
Qed.

(* ------------------------------------------------------------------ *)
(** ** Construction *)

(** C9.  On a store in managed mode (configured for pinned snapshots)
    [NewStream] panics, and on a store that is not, [NewStreamAt] panics:
    the constructor hands back no stream, so nothing can be run on it.
    In the matching mode each constructor builds the stream, with the
    store and the read timestamp set and every policy left nil. *)
Theorem constructors_panic_on_wrong_mode :
  forall (d : DB) (ts : Z),
    (managedTxns (opt d) = false ->
       (exists msg, NewStreamAt d ts = Panic msg)
       /\ (forall st, NewStreamAt d ts <> Built st)
       /\ NewStream d = Built (zeroStream d 0))
    /\ (managedTxns (opt d) = true ->
          (exists msg, NewStream d = Panic msg)
          /\ (forall st, NewStream d <> Built st)
          /\ NewStreamAt d ts = Built (zeroStream d ts)).
Proof.
  intros d ts. unfold NewStream, NewStreamAt.
  split; intros ->; simpl; (split; [eexists; reflexivity |]);
    (split; [discriminate | reflexivity]).
Qed.

Lemma constructors_panic_at_sample_stores :
  (managedTxns (opt (Sample.store 1 false [] Sample.history)) = false
   /\ (exists msg,
         NewStreamAt (Sample.store 1 false [] Sample.history) 7 = Panic msg))
  /\ (managedTxns (opt (Sample.store 1 true [] Sample.history)) = true
      /\ (exists msg,
            NewStream (Sample.store 1 true [] Sample.history) = Panic msg)).
Proof.
  split; (split; [reflexivity |]).
  - apply (proj1 (constructors_panic_on_wrong_mode
                    (Sample.store 1 false [] Sample.history) 7) eq_refl).
  - apply (proj2 (constructors_panic_on_wrong_mode
                    (Sample.store 1 true [] Sample.history) 7) eq_refl).
Defined.

(* ------------------------------------------------------------------ *)
(** ** Pages of a scan worker *)

Section Pages.

Context `{KVListSize}.

Lemma nilOrEmpty_false list : nilOrEmpty list = false -> Kv list <> [].
Proof.
  destruct list as [[|kv l]|]; simpl; discriminate.
Qed.

Lemma iterate_end_nonempty outList size :
  Forall (fun page => page <> []) (pushed (iterate_end outList size)).
Proof.
  unfold iterate_end. destruct (0 <? _) eqn:L; cbn [pushed];
    constructor; [| constructor].
  destruct outList; [discriminate L | discriminate].
Qed.

(** Whatever the policies, and however long the loop runs, a page is only
    sent right after a non-empty expansion was appended to it, or at the
    end under the guard [len(outList.Kv) > 0]. *)
Lemma iterate_loop_nonempty fuel st kr itr prevKey outList size :
  Forall (fun page => page <> [])
         (pushed (iterate_loop fuel st kr itr prevKey outList size)).
Proof.
  revert itr prevKey outList size.
  induction fuel as [|fuel IH]; intros itr prevKey outList size;
    cbn [iterate_loop]; [constructor |].
  destruct (cur itr) as [|item rest]; [apply iterate_end_nonempty |].
  destruct (negb (Valid itr)); [apply iterate_end_nonempty |].
  destruct (Bytes.Equal (key item) prevKey); [apply IH |].
  destruct (_ && _); [apply iterate_end_nonempty |].
  destruct (rejects st item); [apply IH |].
  destruct (keyToList st (key item) itr) as [[list | err] itr'];
    [| constructor].
  destruct (nilOrEmpty list) eqn:N; [apply IH |].
  destruct (_ >=? _); [| apply IH].
  cbn [push pushed]. constructor; [| apply IH].
  apply nilOrEmpty_false in N. destruct outList; simpl; [exact N |].
  discriminate.
Qed.

Lemma iterate_nonempty st txn kr size :
  Forall (fun page => page <> []) (pushed (iterate st txn kr size)).
Proof. apply iterate_loop_nonempty. Qed.

Lemma produceKVs_ranges_nonempty st txn krs size :
  Forall (fun page => page <> [])
         (pushed (produceKVs_ranges st txn krs size)).
Proof.
  revert size. induction krs as [|kr krs IH]; intros size;
    cbn [produceKVs_ranges]; [constructor |].
  pose proof (iterate_nonempty st txn kr size) as N.
  destruct (ending (iterate st txn kr size)) as [[err|]|]; try exact N.
  cbn [pushed]. apply Forall_app. split; [exact N | apply IH].
Qed.

End Pages.

(* ------------------------------------------------------------------ *)
(** ** Runs of [Orchestrate] *)

(** Splits a hypothesis [step a w = Some w'] into the cases of the
    transition it describes. *)
Ltac break_step H :=
  repeat match type of H with
         | context [match ?x with _ => _ end] =>
             destruct x eqn:?; try discriminate H
         end;
  try (injection H; clear H; intros; subst).

Section Workers.

Variable P : workerState -> Prop.

Lemma Forall_cut n (ws : list workerState) :
  Forall P ws -> Forall P (firstn n ws) /\ Forall P (skipn n ws).
Proof.
  intros F. rewrite <- (firstn_skipn n ws) in F.
  now apply Forall_app in F.
Qed.

Lemma setWorker_Forall i s ws :
  Forall P ws -> P s -> Forall P (setWorker i s ws).
Proof.
  intros F Ps. unfold setWorker. apply Forall_app. split.
  - now apply Forall_cut.
  - constructor; [exact Ps | now apply Forall_cut].
Qed.

Lemma nth_error_Forall i s (ws : list workerState) :
  nth_error ws i = Some s -> Forall P ws -> P s.
Proof.
  intros E F. rewrite Forall_forall in F. apply F.
  eapply nth_error_In; eassumption.
Qed.

End Workers.

Lemma setWorker_length i s ws x :
  nth_error ws i = Some x -> length (setWorker i s ws) = length ws.
Proof.
  intros E. unfold setWorker.
  assert (L : (i < length ws)%nat) by (apply nth_error_Some; congruence).
  rewrite length_app, length_firstn. cbn [length]. rewrite length_skipn. lia.
Qed.

Lemma setWorker_nth i s ws x :
  nth_error ws i = Some x -> nth_error (setWorker i s ws) i = Some s.
Proof.
  intros E. unfold setWorker.
  assert (L : (i < length ws)%nat) by (apply nth_error_Some; congruence).
  rewrite nth_error_app2 by (rewrite length_firstn; lia).
  rewrite length_firstn. replace (i - Nat.min i (length ws))%nat with 0%nat by lia.
  reflexivity.
Qed.

Section RunFacts.

Context `{KVListSize}.

Variable st : Stream.

Lemma run_app acts acts' w :
  run st (acts ++ acts') w =
  match run st acts w with
  | Some w' => run st acts' w'
  | None => None
  end.
Proof.
  revert w. induction acts as [|a acts IH]; intros w; simpl;
    [reflexivity |].
  destruct (step st a w); [apply IH | reflexivity].
Qed.

(** A property of the initial world that every step preserves holds in
    every reachable world. *)
Lemma run_invariant (I : world -> Prop) :
  (forall a w w', I w -> step st a w = Some w' -> I w') ->
  forall acts w w', I w -> run st acts w = Some w' -> I w'.
Proof.
  intros Hs. induction acts as [|a acts IH]; intros w w' Hi R; simpl in R.
  - now injection R as <-.
  - destruct (step st a w) as [w1|] eqn:S; [| discriminate].
    eapply IH; [| exact R]. eapply Hs; eassumption.
Qed.

(** *** Pages and batches are never empty *)

Lemma nothingEmpty_init cancelled numGo :
  nothingEmpty (Orchestrate st cancelled numGo).
Proof.
  repeat split; simpl; try constructor.
  induction (Z.to_nat numGo); simpl; constructor; simpl; auto.
Qed.

Ltac settle :=
  repeat split; cbn; auto;
  try match goal with
      | E : drainer _ = _ |- _ => rewrite E; cbn; auto
      end.

Lemma nothingEmpty_step a w w' :
  nothingEmpty w -> step st a w = Some w' -> nothingEmpty w'.
Proof.
  intros (Hk & Hw & Hd & Hs) S. unfold step in S.
  destruct (crashed w); [discriminate |].
  destruct a; cbn [stepSplitter stepWorker stepDrainer stepCaller] in S.
  - injection S as <-. settle.
  - unfold stepSplitter in S. break_step S. settle.
  - unfold stepSplitter in S. break_step S. settle.
  - (* a worker takes a range, or finds the channel closed *)
    break_step S; repeat split; cbn; auto;
      apply setWorker_Forall; cbn; auto.
    apply iterate_nonempty.
  - break_step S. repeat split; cbn; auto.
    apply setWorker_Forall; cbn; auto.
  - (* a worker sends a page *)
    break_step S.
    pose proof (nth_error_Forall _ _ _ _ Heqo Hw) as Hp. cbn in Hp.
    inversion Hp as [|? ? Hp1 Hp2]; subst.
    unfold Chan.send in Heqo0. break_step Heqo0.
    repeat split; cbn; auto.
    + apply Forall_app. split; [exact Hk | now constructor].
    + apply setWorker_Forall; cbn; auto.
  - break_step S; repeat split; cbn; auto;
      apply setWorker_Forall; cbn; auto.
  - break_step S. repeat split; cbn; auto.
    apply setWorker_Forall; cbn; auto.
  - break_step S. settle.
  - break_step S. settle.
  - (* the drainer receives its first page *)
    break_step S; [| settle].
    unfold Chan.recv in Heqr. break_step Heqr.
    inversion Hk; subst.
    settle.
  - (* the drainer gathers one more page *)
    break_step S. unfold Chan.recv in Heqr. break_step Heqr.
    inversion Hk; subst.
    repeat split; cbn; auto.
    cbn in Hd. destruct batch; [congruence | discriminate].
  - (* the drainer calls Send *)
    break_step S; unfold callSend; destruct (Send st) as [send|];
      try (settle);
      destruct (send batch); repeat split; cbn; auto;
      apply Forall_app; split; auto.
  - break_step S. settle.
  - break_step S. settle.
  - break_step S; settle.
  - break_step S. settle.
Qed.

Lemma nothingEmpty_reachable cancelled numGo w :
  reachable st cancelled numGo w -> nothingEmpty w.
Proof.
  intros [acts R].
  eapply run_invariant; [apply nothingEmpty_step | | exact R].
  apply nothingEmpty_init.
Qed.

End RunFacts.

Section SilentPolicy.

Context `{KVListSize}.

(** While every expansion comes back nil or empty the page stays as it
    is, and nothing is sent before the loop ends. *)
Lemma iterate_loop_silent fuel st kr itr prevKey size :
  (forall k i list i',
      keyToList st k i = (Ok list, i') -> nilOrEmpty list = true) ->
  pushed (iterate_loop fuel st kr itr prevKey [] size) = [].
Proof.
  intros Q. revert itr prevKey.
  induction fuel as [|fuel IH]; intros itr prevKey; cbn [iterate_loop];
    [reflexivity |].
  destruct (cur itr) as [|item rest]; [reflexivity |].
  destruct (negb (Valid itr)); [reflexivity |].
  destruct (Bytes.Equal (key item) prevKey); [apply IH |].
  destruct (_ && _); [reflexivity |].
  destruct (rejects st item); [apply IH |].
  destruct (keyToList st (key item) itr) as [[list | err] itr'] eqn:E;
    [| reflexivity].
  rewrite (Q _ _ _ _ E). apply IH.
Qed.

End SilentPolicy.

(** C10.  In the model a page is a value of type [pb.KVList], as the
    pointer [outList] the code sends is always the result of a [new]: no
    nil page exists.  Whatever the policies and the counter [size], every
    page a call of [iterate] sends holds at least one Record, and a policy
    whose results are all nil or empty makes it send no page at all.  In
    every world a run of [Orchestrate] can reach, the pages waiting in
    [kvChan], the pages a worker still has to send, the batch the drainer
    is gathering and every batch [Send] was called with hold at least one
    Record. *)
Theorem pages_and_batches_hold_a_record :
  forall (sz : KVListSize) (st : Stream),
    (forall txn kr size,
        Forall (fun page => page <> []) (pushed (iterate st txn kr size)))
    /\ ((forall k i list i',
            keyToList st k i = (Ok list, i') -> nilOrEmpty list = true) ->
        forall txn kr size, pushed (iterate st txn kr size) = [])
    /\ (forall cancelled numGo w,
          reachable st cancelled numGo w ->
          Forall (fun page => page <> []) (Chan.buf (kvChan w))
          /\ Forall pagesNonEmpty (workers w)
          /\ batchNonEmpty (drainer w)
          /\ Forall (fun batch => batch <> []) (sinkLog w)).
Proof.
  intros sz st. split; [| split].
  - intros txn kr size. apply iterate_nonempty.
  - intros Q txn kr size. now apply iterate_loop_silent.
  - intros cancelled numGo w R.
    apply (nothingEmpty_reachable st cancelled numGo w R).
Qed.

Lemma pages_and_batches_at_silent_policy :
  (forall k i list i',
      keyToList SamplePolicies.silent k i = (Ok list, i') ->
      nilOrEmpty list = true)
  /\ pushed (@iterate SamplePolicies.threeMiB SamplePolicies.silent
               Sample.history (mkKeyRange [] []) 0) = [].
Proof.
  assert (Q : forall k i list i',
             keyToList SamplePolicies.silent k i = (Ok list, i') ->
             nilOrEmpty list = true).
  { intros k i list i' E. injection E as <- _. reflexivity. }
  split; [exact Q |].
  apply (proj1 (proj2 (pages_and_batches_hold_a_record
                         SamplePolicies.threeMiB SamplePolicies.silent)) Q).
Defined.

(* ------------------------------------------------------------------ *)
(** ** The counter [size] of a worker *)

Section PagesOfRanges.

Context `{KVListSize}.

(** A page is sent from inside one call of [iterate]: it holds Records of
    one range only. *)
Lemma produceKVs_ranges_page_of_one_range st txn krs size page :
  In page (pushed (produceKVs_ranges st txn krs size)) ->
  exists kr size', In kr krs /\ In page (pushed (iterate st txn kr size')).
Proof.
  revert size. induction krs as [|kr krs IH]; intros size;
    cbn [produceKVs_ranges]; [intros [] |].
  destruct (ending (iterate st txn kr size)) as [[err|]|] eqn:E.
  - intros I. exists kr, size. split; [now left | exact I].
  - cbn [pushed]. intros I. apply in_app_or in I. destruct I as [I | I].
    + exists kr, size. split; [now left | exact I].
    + destruct (IH _ I) as (kr' & size' & I1 & I2).
      exists kr', size'. split; [now right | exact I2].
  - intros I. exists kr, size. split; [now left | exact I].
Qed.

End PagesOfRanges.

(** C4, on the code.  Three keys whose Records serialize to 3 MiB each, in
    the ranges [empty, "b") and ["b", empty) handled by one worker.  The
    first range ends with the page of "a" and leaves [size] at 3 MiB: the
    trailing flush does not reset the counter.  In the second range the
    Record of "b" brings [size] to 6 MiB and its page is sent at once,
    3 MiB large and with "c" of the same range still to come.  Counted
    from zero, as the claim has it, the second range gives the single page
    of "b" and "c". *)
Theorem produceKVs_counter_outlives_range :
  let st := SamplePages.twoRanges in
  let sz := SamplePolicies.threeMiB in
  let txn := @produceKVs_txn st in
  produceRanges st = [mkKeyRange [] Sample.b; mkKeyRange Sample.b []]
  /\ pushed (@iterate sz st txn (mkKeyRange [] Sample.b) 0)
     = [[SamplePages.recordA]]
  /\ sizeAfter (@iterate sz st txn (mkKeyRange [] Sample.b) 0) = 3 * 2 ^ 20
  /\ pushed (@produceKVs sz st (produceRanges st))
     = [[SamplePages.recordA]; [SamplePages.recordB]; [SamplePages.recordC]]
  /\ @Size sz [SamplePages.recordB] < pageSize
  /\ pushed (@iterate sz st txn (mkKeyRange Sample.b []) 0)
     = [[SamplePages.recordB; SamplePages.recordC]].
Proof. vm_compute. repeat split; reflexivity. Qed.

(* ------------------------------------------------------------------ *)
(** ** Sends and cancellation *)

Lemma setWorker_nth_other i j s ws x :
  nth_error ws j = Some x -> i <> j ->
  nth_error (setWorker j s ws) i = nth_error ws i.
Proof.
  intros E N. unfold setWorker.
  assert (L : (j < length ws)%nat) by (apply nth_error_Some; congruence).
  destruct (Nat.lt_ge_cases i j) as [Lt | Ge].
  - rewrite nth_error_app1 by (rewrite length_firstn; lia).
    rewrite nth_error_firstn.
    destruct (Nat.ltb_spec i j); [reflexivity | lia].
  - rewrite nth_error_app2 by (rewrite length_firstn; lia).
    rewrite length_firstn.
    replace (i - Nat.min j (length ws))%nat with (S (i - S j)) by lia.
    cbn [nth_error]. rewrite nth_error_skipn. f_equal. lia.
Qed.

Lemma send_full {A : Type} cap (x : A) c :
  full cap c -> Chan.send cap x c = None.
Proof.
  unfold full, Chan.send. intros F. destruct (Chan.closed c); [reflexivity |].
  destruct (Nat.ltb_spec (length (Chan.buf c)) cap); [lia | reflexivity].
Qed.

Section Stuck.

Context `{KVListSize}.

Variable st : Stream.

(** Once the drainer has returned, a worker with a page for the full
    [kvChan] never moves again, and the caller never gets past
    [wg.Wait()]. *)
Lemma workerStuck_step i page a w w' :
  workerStuck i page w -> step st a w = Some w' -> workerStuck i page w'.
Proof.
  intros ((pages & after & size & W) & F & D & C) S. unfold step in S.
  destruct (crashed w); [discriminate |].
  assert (B : forall p, Chan.send 3 p (kvChan w) = None)
    by (intros p; now apply send_full).
  destruct a;
    unfold stepSplitter, stepWorker, stepDrainer, stepCaller in S;
    rewrite ?D, ?C in S; try discriminate S.
  - break_step S. repeat split; eauto.
  - break_step S. repeat split; eauto.
  - break_step S. repeat split; eauto.
  - break_step S.
    + assert (N : i <> i0) by (intros ->; congruence).
      repeat split; cbn; auto.
      exists pages, after, size.
      rewrite (setWorker_nth_other _ _ _ _ _ Heqo N). exact W.
    + assert (N : i <> i0) by (intros ->; congruence).
      repeat split; cbn; auto.
      exists pages, after, size.
      rewrite (setWorker_nth_other _ _ _ _ _ Heqo N). exact W.
  - break_step S.
    assert (N : i <> i0) by (intros ->; congruence).
    repeat split; cbn; auto.
    exists pages, after, size.
    rewrite (setWorker_nth_other _ _ _ _ _ Heqo N). exact W.
  - break_step S. rewrite B in Heqo0. discriminate.
  - break_step S.
    + assert (N : i <> i0) by (intros ->; congruence).
      repeat split; cbn; auto.
      exists pages, after, size.
      rewrite (setWorker_nth_other _ _ _ _ _ Heqo N). exact W.
    + assert (N : i <> i0) by (intros ->; congruence).
      repeat split; cbn; auto.
      exists pages, after, size.
      rewrite (setWorker_nth_other _ _ _ _ _ Heqo N). exact W.
  - break_step S.
    assert (N : i <> i0) by (intros ->; congruence).
    repeat split; cbn; auto.
    exists pages, after, size.
    rewrite (setWorker_nth_other _ _ _ _ _ Heqo N). exact W.
  - (* [wg.Wait()] needs worker [i] to be done *)
    break_step S. exfalso.
    rewrite forallb_forall in Heqb.
    specialize (Heqb _ (nth_error_In _ _ W)). discriminate.
Qed.

Lemma workerStuck_forever i page acts w w' :
  workerStuck i page w -> run st acts w = Some w' -> workerStuck i page w'.
Proof.
  apply (run_invariant st (workerStuck i page)).
  intros a w1 w2. apply workerStuck_step.
Qed.

(** Once every worker has returned, a splitter with a range for the full
    [rangeCh] never moves again. *)
Lemma splitterStuck_step kr a w w' :
  splitterStuck kr w -> step st a w = Some w' -> splitterStuck kr w'.
Proof.
  intros ((pending & P) & F & D) S. unfold step in S.
  destruct (crashed w); [discriminate |].
  assert (B : forall r, Chan.send 3 r (rangeCh w) = None)
    by (intros r; now apply send_full).
  assert (G : forall i s, nth_error (workers w) i = Some s -> s = WDone).
  { intros i s E. now apply (nth_error_Forall _ _ _ _ E D). }
  destruct a;
    unfold stepSplitter, stepWorker, stepDrainer, stepCaller in S;
    rewrite ?P in S; try discriminate S.
  - break_step S. repeat split; cbn; eauto.
  - rewrite B in S. discriminate.
  - destruct (nth_error (workers w) i) as [s|] eqn:E; [| discriminate].
    rewrite (G _ _ E) in S. discriminate.
  - destruct (nth_error (workers w) i) as [s|] eqn:E; [| discriminate].
    rewrite (G _ _ E) in S. discriminate.
  - destruct (nth_error (workers w) i) as [s|] eqn:E; [| discriminate].
    rewrite (G _ _ E) in S. discriminate.
  - destruct (nth_error (workers w) i) as [s|] eqn:E; [| discriminate].
    rewrite (G _ _ E) in S. discriminate.
  - destruct (nth_error (workers w) i) as [s|] eqn:E; [| discriminate].
    rewrite (G _ _ E) in S. discriminate.
  - break_step S. repeat split; cbn; eauto.
  - break_step S. repeat split; cbn; eauto.
  - break_step S; repeat split; cbn; eauto.
  - break_step S. repeat split; cbn; eauto.
  - break_step S; unfold callSend; destruct (Send st) as [send|];
      [destruct (send batch) | | destruct (send batch) |];
      repeat split; cbn; eauto.
  - break_step S. repeat split; cbn; eauto.
  - break_step S. repeat split; cbn; eauto.
  - break_step S; repeat split; cbn; eauto.
  - break_step S. repeat split; cbn; eauto.
Qed.

Lemma splitterStuck_forever kr acts w w' :
  splitterStuck kr w -> run st acts w = Some w' -> splitterStuck kr w'.
Proof.
  apply (run_invariant st (splitterStuck kr)).
  intros a w1 w2. apply splitterStuck_step.
Qed.

End Stuck.

Section Receives.

Context `{KVListSize}.

Variable st : Stream.

(** At its [select] a worker can always leave with [ctx.Err()] once the
    context is done, and this is its only move while [rangeCh] is empty. *)
Lemma worker_select_observes_cancellation w i size :
  crashed w = false -> ctxDone w = true ->
  nth_error (workers w) i = Some (WSelect size) ->
  step st (WorkerCtx i) w = Some (withWorker w i (WReport Canceled))
  /\ (Chan.recv (rangeCh w) = Chan.Blocked ->
      forall a w', step st a w = Some w' ->
                   nth_error (workers w') i <> Some (WSelect size) ->
                   a = WorkerCtx i).
Proof.
  intros C D W. split.
  - unfold step, stepWorker. now rewrite C, W, D.
  - intros B a w' S N. unfold step in S. rewrite C in S.
    destruct a;
      unfold stepSplitter, stepWorker, stepDrainer, stepCaller in S;
      try (break_step S; cbn in N; congruence);
      try (unfold callSend in S; break_step S; cbn in N; congruence);
      destruct (Nat.eq_dec i i0) as [-> | Ne]; try reflexivity;
      try (rewrite W in S; try rewrite B in S; discriminate);
      break_step S; cbn in N;
      rewrite (setWorker_nth_other _ _ _ _ _ Heqo Ne) in N; congruence.
Qed.

(** At its outer [select] the drainer can always return [ctx.Err()] once
    the context is done; while [kvChan] is empty its only other move is the
    tick of the throughput report, which leaves it where it is. *)
Lemma drainer_select_observes_cancellation w :
  crashed w = false -> ctxDone w = true -> drainer w = DSelect ->
  step st DrainCtx w = Some (drainerReturns w (Some Canceled))
  /\ (Chan.recv (kvChan w) = Chan.Blocked ->
      step st DrainRecv w = None /\ step st DrainSlurp w = None
      /\ step st DrainSend w = None /\ step st DrainTick w = Some w).
Proof.
  intros C D S. unfold step, stepDrainer. rewrite C, S, D.
  split; [reflexivity |]. intros ->. repeat split.
Qed.

End Receives.

(** C6, on the code.  The sends are plain sends: [st.kvChan <- outList] in
    [produceKVs] and [st.rangeCh <- keyRange{...}] in [produceRanges] do
    not look at the context.  First run: one worker is inside [iterate]
    with four pages when the context is cancelled; the drainer returns
    [ctx.Err()], the worker fills [kvChan] with three pages and then waits
    with the fourth.  From there on, whatever happens, the worker keeps
    waiting and the caller stays in [wg.Wait()]: [Orchestrate] never
    returns.  Second run: the splitter has put three of its four ranges in
    [rangeCh] when the only worker leaves on the cancelled context and
    [Orchestrate] returns [context.Canceled]; the splitter waits with the
    fourth range for ever. *)
Theorem sends_do_not_observe_cancellation :
  (exists w page,
      @run SampleRuns.fourMiB SampleRuns.oneRange SampleRuns.stuckWorker
           (@Orchestrate SampleRuns.oneRange false 1) = Some w
      /\ ctxDone w = true
      /\ workerStuck 0 page w
      /\ @step SampleRuns.fourMiB SampleRuns.oneRange (WorkerPush 0) w = None
      /\ forall acts w',
           @run SampleRuns.fourMiB SampleRuns.oneRange acts w = Some w' ->
           workerStuck 0 page w')
  /\ (exists w kr,
         @run SampleRuns.fourMiB SampleRuns.fourRanges SampleRuns.stuckSplitter
              (@Orchestrate SampleRuns.fourRanges true 1) = Some w
         /\ ctxDone w = true
         /\ caller w = CReturned (Some Canceled)
         /\ splitterStuck kr w
         /\ @step SampleRuns.fourMiB SampleRuns.fourRanges SplitSend w = None
         /\ forall acts w',
              @run SampleRuns.fourMiB SampleRuns.fourRanges acts w = Some w' ->
              splitterStuck kr w').
Proof.
  split.
  - eexists. eexists. split; [vm_compute; reflexivity |].
    split; [reflexivity |].
    assert (W : workerStuck 0 [recordOf (Sample.live SampleRuns.d 1)]
                  (mkWorld true Chan.make
                     (Chan.mk [[recordOf (Sample.live Sample.a 1)];
                               [recordOf (Sample.live Sample.b 1)];
                               [recordOf (Sample.live Sample.c 1)]] false)
                     Chan.make (Chan.mk [Some Canceled] false)
                     (Splitting [])
                     [WSending [[recordOf (Sample.live SampleRuns.d 1)]]
                               (Returned None) 0]
                     DDone CWait [] [] false)).
    { split; [| split; [| split]]; try reflexivity.
      - eexists _, _, _. reflexivity.
      - unfold full. cbn. lia. }
    split; [exact W |]. split; [reflexivity |].
    intros acts w'. now apply workerStuck_forever.
  - eexists. eexists. split; [vm_compute; reflexivity |].
    split; [reflexivity |]. split; [reflexivity |].
    assert (W : splitterStuck (mkKeyRange SampleRuns.d [])
                  (mkWorld true
                     (Chan.mk [mkKeyRange [] Sample.b;
                               mkKeyRange Sample.b Sample.c;
                               mkKeyRange Sample.c SampleRuns.d] false)
                     (Chan.mk [] true) Chan.make Chan.make
                     (Splitting [mkKeyRange SampleRuns.d []])
                     [WDone] DSelect (CReturned (Some Canceled))
                     [] [Canceled] false)).
    { split; [| split].
      - eexists. reflexivity.
      - unfold full. cbn. lia.
      - repeat constructor. }
    split; [exact W |]. split; [reflexivity |].
    intros acts w'. now apply splitterStuck_forever.
Qed.

(* ------------------------------------------------------------------ *)
(** ** Cancellation before any range is taken *)

Section Untouched.

Context `{KVListSize}.

Variable st : Stream.



Lemma trySend_closed err c :
  Chan.closed c = false -> Chan.closed (trySend err c) = false.
Proof.
  unfold trySend, Chan.send. intros E. rewrite E.
  destruct (_ <? _)%nat; [reflexivity | exact E].
Qed.






End Untouched.

Section AbortAll.

Context `{KVListSize}.

Variable st : Stream.

Lemma nth_error_middle {A : Type} (l1 l2 : list A) x :
  nth_error (l1 ++ x :: l2) (length l1) = Some x.
Proof.
  rewrite nth_error_app2 by lia. now rewrite Nat.sub_diag.
Qed.

Lemma setWorker_middle l1 l2 x s :
  setWorker (length l1) s (l1 ++ x :: l2) = l1 ++ s :: l2.
Proof.
  unfold setWorker. rewrite firstn_app, firstn_all, Nat.sub_diag.
  cbn [firstn]. rewrite app_nil_r. f_equal. f_equal.
  replace (S (length l1)) with (length (l1 ++ [x]))
    by (rewrite length_app; cbn; lia).
  replace (l1 ++ x :: l2) with ((l1 ++ [x]) ++ l2)
    by (now rewrite <- app_assoc).
  rewrite skipn_app, skipn_all, Nat.sub_diag. reflexivity.
Qed.



End AbortAll.

Lemma forallb_isDone_repeat n : forallb isDone (repeat WDone n) = true.
Proof. induction n; cbn; auto. Qed.




(* ------------------------------------------------------------------ *)
(** ** The error slot *)

Section ErrorSlot.

Context `{KVListSize}.

Variable st : Stream.

Lemma drainerOutcome_mono w w' r :
  (ctxDone w = true -> ctxDone w' = true) ->
  incl (sinkLog w) (sinkLog w') ->
  drainerOutcome st w r -> drainerOutcome st w' r.
Proof.
  intros C I [-> | [[-> D] | (send & batch & err & S & B & E & ->)]].
  - now left.
  - right. left. auto.
  - right. right. exists send, batch, err. auto.
Qed.

Lemma drainerOutcome_Forall w w' l :
  (ctxDone w = true -> ctxDone w' = true) ->
  incl (sinkLog w) (sinkLog w') ->
  Forall (drainerOutcome st w) l -> Forall (drainerOutcome st w') l.
Proof.
  intros C I. apply Forall_impl. intros r. now apply drainerOutcome_mono.
Qed.

Lemma trySend_first err c reported :
  Chan.closed c = false -> Chan.buf c = firstn 1 reported ->
  Chan.buf (trySend err c) = firstn 1 (reported ++ [err]).
Proof.
  unfold trySend, Chan.send. intros -> B.
  destruct reported as [|e es]; cbn in B; rewrite B; cbn;
    [reflexivity | exact B].
Qed.

Lemma slotKeepsFirst_init cancelled numGo :
  slotKeepsFirst st (Orchestrate st cancelled numGo).
Proof. repeat split. constructor. Qed.

Lemma done_cannot_move (ws : list workerState) i s :
  Forall (fun s => s = WDone) ws -> nth_error ws i = Some s -> s = WDone.
Proof. intros F E. now apply (nth_error_Forall _ _ _ _ E F). Qed.

Lemma slot_after_worker_moves w w' :
  Chan.closed (errCh w) = false ->
  caller w' = caller w -> errCh w' = errCh w -> kvErr w' = kvErr w ->
  reported w' = reported w -> sinkLog w' = sinkLog w ->
  ctxDone w' = ctxDone w ->
  (Forall (fun s => s = WDone) (workers w) -> False) ->
  slotKeepsFirst st w -> slotKeepsFirst st w'.
Proof.
  intros C Ec Ee Ek Er El Ed N (_ & K & M).
  unfold slotKeepsFirst. rewrite Ec, Ee, Ek, Er. split; [exact C |]. split.
  - eapply drainerOutcome_Forall; [| | exact K].
    + now rewrite Ed.
    + rewrite El. apply incl_refl.
  - destruct (caller w); [exact M | | | |]; exfalso; apply N; tauto.
Qed.

Lemma slot_after_drainer_moves w w' :
  caller w' = caller w -> errCh w' = errCh w ->
  reported w' = reported w -> workers w' = workers w ->
  (ctxDone w = true -> ctxDone w' = true) ->
  incl (sinkLog w) (sinkLog w') ->
  Forall (drainerOutcome st w') (Chan.buf (kvErr w')) ->
  slotKeepsFirst st w -> slotKeepsFirst st w'.
Proof.
  intros Ec Ee Er Ew Ed I F (C & _ & M).
  unfold slotKeepsFirst. rewrite Ec, Ee, Er, Ew.
  split; [exact C |]. split; [exact F |].
  destruct (caller w); auto.
  destruct M as [M1 M2]. split; [exact M1 |].
  destruct (reported w); [| exact M2].
  eapply drainerOutcome_mono; [exact Ed | exact I | exact M2].
Qed.

Lemma forallb_isDone ws :
  forallb isDone ws = true -> Forall (fun s => s = WDone) ws.
Proof.
  rewrite forallb_forall, Forall_forall. intros A s I.
  specialize (A s I). destruct s; try discriminate. reflexivity.
Qed.

Lemma slotKeepsFirst_step a w w' :
  slotKeepsFirst st w -> step st a w = Some w' -> slotKeepsFirst st w'.
Proof.
  intros I S. pose proof I as (C & K & M). unfold step in S.
  destruct (crashed w); [discriminate |].
  destruct a;
    unfold stepSplitter, stepWorker, stepDrainer, stepCaller in S.
  - (* the context is cancelled *)
    break_step S.
    apply (slot_after_drainer_moves w); cbn; auto; [apply incl_refl |].
    eapply drainerOutcome_Forall; [| | exact K]; cbn; auto.
    apply incl_refl.
  - break_step S. exact I.
  - break_step S. exact I.
  - break_step S.
    + apply (slot_after_worker_moves w); auto.
      intros F. pose proof (done_cannot_move _ _ _ F Heqo). discriminate.
    + apply (slot_after_worker_moves w); auto.
      intros F. pose proof (done_cannot_move _ _ _ F Heqo). discriminate.
  - break_step S. apply (slot_after_worker_moves w); auto.
    intros F. pose proof (done_cannot_move _ _ _ F Heqo). discriminate.
  - break_step S. apply (slot_after_worker_moves w); auto.
    intros F. pose proof (done_cannot_move _ _ _ F Heqo). discriminate.
  - break_step S.
    + apply (slot_after_worker_moves w); auto.
      intros F. pose proof (done_cannot_move _ _ _ F Heqo). discriminate.
    + apply (slot_after_worker_moves w); auto.
      intros F. pose proof (done_cannot_move _ _ _ F Heqo). discriminate.
  - (* a worker tries to record its error *)
    break_step S.
    assert (N : Forall (fun s => s = WDone) (workers w) -> False).
    { intros F. pose proof (done_cannot_move _ _ _ F Heqo). discriminate. }
    split; [now apply trySend_closed |]. split; [exact K |]. cbn.
    destruct (caller w); try (exfalso; apply N; tauto).
    now apply trySend_first.
  - (* the drainer returns [ctx.Err()] *)
    break_step S.
    apply (slot_after_drainer_moves w); cbn; auto; [apply incl_refl |].
    apply Forall_app. split.
    + eapply drainerOutcome_Forall; [| | exact K]; cbn; auto.
      apply incl_refl.
    + constructor; [| constructor]. right. left. auto.
  - break_step S. exact I.
  - break_step S; [exact I |].
    apply (slot_after_drainer_moves w); cbn; auto; [apply incl_refl |].
    apply Forall_app. split.
    + eapply drainerOutcome_Forall; [| | exact K]; cbn; auto.
      apply incl_refl.
    + constructor; [| constructor]. now left.
  - break_step S. exact I.
  - (* the drainer calls [Send] *)
    assert (X : forall batch, slotKeepsFirst st (callSend st w batch)).
    { intros batch. unfold callSend.
      destruct (Send st) as [send|] eqn:Q; [| exact I].
      destruct (send batch) as [err|] eqn:R.
      - apply (slot_after_drainer_moves w); cbn; auto;
          [apply incl_appl, incl_refl |].
        apply Forall_app. split.
        + eapply drainerOutcome_Forall; [| | exact K]; cbn; auto.
          apply incl_appl, incl_refl.
        + constructor; [| constructor]. right. right.
          exists send, batch, err. cbn. repeat split; auto.
          apply in_or_app. right. now left.
      - apply (slot_after_drainer_moves w); cbn; auto;
          [apply incl_appl, incl_refl |].
        eapply drainerOutcome_Forall; [| | exact K]; cbn; auto.
        apply incl_appl, incl_refl. }
    break_step S; apply X.
  - (* [wg.Wait()] returns *)
    break_step S. split; [exact C |]. split; [exact K |]. cbn.
    split; [exact M | now apply forallb_isDone].
  - break_step S. split; [exact C |]. split; [exact K |]. cbn. exact M.
  - (* the caller looks into [errCh] *)
    destruct (caller w) eqn:Q; try discriminate S.
    destruct M as [M1 M2]. unfold Chan.recv in S. rewrite M1 in S.
    destruct (reported w) as [|e es] eqn:R; cbn in S.
    + rewrite C in S. injection S as <-.
      split; [exact C |]. split; [exact K |]. cbn.
      repeat split; auto.
    + injection S as <-. split; [exact C |]. split; [exact K |]. cbn.
      split; auto.
  - (* the caller takes the result of the drainer *)
    destruct (caller w) eqn:Q; try discriminate S.
    destruct M as (M1 & M2 & M3). unfold Chan.recv in S.
    destruct (Chan.buf (kvErr w)) as [|r b] eqn:B;
      [destruct (Chan.closed (kvErr w)); discriminate |].
    injection S as <-. inversion K; subst.
    split; [exact C |]. split; [assumption |]. cbn.
    rewrite M1. split; assumption.
Qed.

Lemma slotKeepsFirst_reachable cancelled numGo w :
  reachable st cancelled numGo w -> slotKeepsFirst st w.
Proof.
  intros [acts R].
  eapply run_invariant; [apply slotKeepsFirst_step | | exact R].
  apply slotKeepsFirst_init.
Qed.

(** Once [Orchestrate] has returned its result stays. *)
Lemma returned_stays a w w' r :
  caller w = CReturned r -> step st a w = Some w' -> caller w' = CReturned r.
Proof.
  intros Q S. unfold step in S. destruct (crashed w); [discriminate |].
  destruct a;
    unfold stepSplitter, stepWorker, stepDrainer, stepCaller in S;
    try rewrite Q in S; try discriminate S;
    try (break_step S; cbn; auto; fail).
  break_step S; unfold callSend; destruct (Send st) as [send|];
    try destruct (send batch); cbn; auto.
Qed.

End ErrorSlot.

(** C7, on the code.  What holds of the error slot: in every world a run
    of [Orchestrate] can reach, a worker that came back from [produceKVs]
    with an error can always make its attempt on the slot (nothing can
    block it), it is done afterwards, and the slot holds the error if no
    worker came back with one before and is left as it was otherwise;
    until the caller takes it out, the slot holds exactly the first of the
    errors the workers came back with; and once [Orchestrate] has
    returned, its one result stays, and it is that first error if any
    worker came back with one, and otherwise what the drainer returned.
    What does not hold: that every run returns.  The context is never
    cancelled; worker 1 comes back with a failed value copy and records it
    in the slot; [Send] fails on the first batch and [streamKVs] returns;
    worker 0, with pages left, fills [kvChan] and waits with the next page
    on the plain send [st.kvChan <- outList].  The slot holds the error of
    worker 1, and whatever happens from there on, worker 0 keeps waiting
    and the caller stays in [wg.Wait()]: [Orchestrate] returns neither
    that error nor any other value. *)
Theorem first_error_recorded_not_always_returned :
  (forall (sz : KVListSize) (st : Stream) (cancelled : bool) (numGo : Z)
          (w : world),
      reachable st cancelled numGo w ->
      (forall i err,
          nth_error (workers w) i = Some (WReport err) -> crashed w = false ->
          exists w',
            step st (WorkerReport i) w = Some w'
            /\ nth_error (workers w') i = Some WDone
            /\ reported w' = reported w ++ [err]
            /\ (reported w = [] -> Chan.buf (errCh w') = [err])
            /\ (reported w <> [] -> errCh w' = errCh w))
      /\ ((forall r, caller w <> CReturned r) ->
          Chan.buf (errCh w) = firstn 1 (reported w))
      /\ (forall r,
            caller w = CReturned r ->
            (forall e es, reported w = e :: es -> r = Some e)
            /\ (reported w = [] -> drainerOutcome st w r)
            /\ (forall a w', step st a w = Some w' -> caller w' = CReturned r)))
  /\ (exists w page,
         @run SampleRuns.fourMiB SampleDeadlock.stream SampleDeadlock.sinkFails
              (@Orchestrate SampleDeadlock.stream false 2) = Some w
         /\ ctxDone w = false
         /\ crashed w = false
         /\ reported w = [Failure "value log"]
         /\ Chan.buf (errCh w) = [Failure "value log"]
         /\ Chan.buf (kvErr w) = [Some (Failure "sink")]
         /\ workerStuck 0 page w
         /\ @step SampleRuns.fourMiB SampleDeadlock.stream (WorkerPush 0) w
            = None
         /\ forall acts w',
              @run SampleRuns.fourMiB SampleDeadlock.stream acts w = Some w' ->
              workerStuck 0 page w'
              /\ caller w' = CWait
              /\ forall r, caller w' <> CReturned r).
Proof.
  split.
  - intros sz st cancelled numGo w R.
    pose proof (slotKeepsFirst_reachable st cancelled numGo w R)
      as (C & K & M).
    split; [| split].
    + intros i err W Cr.
      assert (B : Chan.buf (errCh w) = firstn 1 (reported w)).
      { destruct (caller w); try exact M;
          exfalso;
          assert (F : Forall (fun s => s = WDone) (workers w)) by tauto;
          pose proof (done_cannot_move _ _ _ F W); discriminate. }
      eexists. split; [| split; [| split; [| split]]].
      * unfold step, stepWorker. rewrite Cr, W. reflexivity.
      * cbn. now apply (setWorker_nth _ _ _ (WReport err)).
      * reflexivity.
      * intros E. cbn. rewrite E in B. cbn in B.
        unfold trySend, Chan.send. now rewrite C, B.
      * intros N. cbn. destruct (reported w) as [|e es]; [congruence |].
        cbn in B. unfold trySend, Chan.send. now rewrite C, B.
    + intros N. destruct (caller w) eqn:Q; try tauto.
      * destruct M as (M1 & M2 & _). now rewrite M1, M2.
      * exfalso. now apply (N err).
    + intros r Q. rewrite Q in M. destruct M as [_ M].
      split; [| split].
      * intros e es E. now rewrite E in M.
      * intros E. now rewrite E in M.
      * intros a w' S. eapply returned_stays; eassumption.
  - eexists. eexists. split; [vm_compute; reflexivity |].
    split; [reflexivity |]. split; [reflexivity |].
    split; [reflexivity |]. split; [reflexivity |].
    split; [reflexivity |].
    assert (W : workerStuck 0 [recordOf (Sample.live SampleDeadlock.e 1)]
                  (mkWorld false (Chan.mk [] true)
                     (Chan.mk [[recordOf (Sample.live Sample.b 1)];
                               [recordOf (Sample.live Sample.c 1)];
                               [recordOf (Sample.live SampleRuns.d 1)]] false)
                     (Chan.mk [Failure "value log"] false)
                     (Chan.mk [Some (Failure "sink")] false)
                     SplitDone
                     [WSending [[recordOf (Sample.live SampleDeadlock.e 1)]]
                               (Returned None) 0;
                      WDone]
                     DDone CWait [[recordOf (Sample.live Sample.a 1)]]
                     [Failure "value log"] false)).
    { split; [| split; [| split]]; try reflexivity.
      - eexists _, _, _. reflexivity.
      - unfold full. cbn. lia. }
    split; [exact W |]. split; [reflexivity |].
    intros acts w' R.
    pose proof (workerStuck_forever _ _ _ _ _ _ W R) as W'.
    split; [exact W' |].
    destruct W' as (_ & _ & _ & Q).
    split; [exact Q |]. intros r. rewrite Q. discriminate.
Qed.

Lemma first_error_recorded_at_two_failures :
  exists w,
    @run SampleRuns.fourMiB SampleErrors.unreadable SampleErrors.twoFailures
         (@Orchestrate SampleErrors.unreadable false 2) = Some w
    /\ nth_error (workers w) 0 = Some (WReport (Failure "value log"))
    /\ reported w = [Canceled]
    /\ (exists w',
          @step SampleRuns.fourMiB SampleErrors.unreadable (WorkerReport 0) w
          = Some w'
          /\ nth_error (workers w') 0 = Some WDone
          /\ reported w' = reported w ++ [Failure "value log"]
          /\ (reported w = [] -> Chan.buf (errCh w') = [Failure "value log"])
          /\ (reported w <> [] -> errCh w' = errCh w))
    /\ option_map caller
         (@run SampleRuns.fourMiB SampleErrors.unreadable
               SampleErrors.andReturn w)
       = Some (CReturned (Some Canceled)).
Proof.
  eexists. split; [vm_compute; reflexivity |].
  split; [reflexivity |]. split; [reflexivity |]. split; [| reflexivity].
  match goal with
  | |- exists w', step _ _ ?w = _ /\ _ =>
      refine (proj1 (proj1 first_error_recorded_not_always_returned
                       SampleRuns.fourMiB SampleErrors.unreadable
                       false 2 w _)
                0%nat (Failure "value log") eq_refl eq_refl)
  end.
  exists SampleErrors.twoFailures. vm_compute. reflexivity.
Defined.

(* ------------------------------------------------------------------ *)
(** ** Coverage: the Records of a scan *)

Section ScanFacts.

Context `{KVListSize}.

Variable st : Stream.
Variable kr : keyRange.

Lemma records_push page r : records (push page r) = page ++ records r.
Proof. reflexivity. Qed.

Lemma records_iterate_end outList size :
  records (iterate_end outList size) = outList.
Proof.
  unfold records, iterate_end. destruct outList as [|kv l]; cbn [length].
  - reflexivity.
  - destruct (0 <? _) eqn:L; cbn; [now rewrite app_nil_r |].
    apply Z.ltb_ge in L. lia.
Qed.

Lemma Kv_nilOrEmpty list : nilOrEmpty list = true -> Kv list = [].
Proof.
  destruct list as [[|kv l]|]; cbn; try reflexivity. discriminate.
Qed.

(** Pages and the counter [size] decide where the Records are cut, not
    which Records there are: when [scan] gathers [recs], the loop returns
    nil and its pages hold the page it started with followed by [recs]. *)
Lemma iterate_loop_scan fuel : forall itr prevKey outList size recs,
  scan fuel st kr itr prevKey = Some recs ->
  ending (iterate_loop fuel st kr itr prevKey outList size) = Returned None
  /\ records (iterate_loop fuel st kr itr prevKey outList size)
     = outList ++ recs.
Proof.
  induction fuel as [|fuel IH]; intros itr prevKey outList size recs;
    cbn [scan iterate_loop]; [discriminate |].
  assert (E : forall recs, Some [] = Some recs ->
              ending (iterate_end outList size) = Returned None
              /\ records (iterate_end outList size) = outList ++ recs).
  { intros r [= <-]. rewrite records_iterate_end, app_nil_r. now split. }
  destruct (cur itr) as [|item rest]; [apply E |].
  destruct (negb (Valid itr)); [apply E |].
  destruct (Bytes.Equal (key item) prevKey); [apply IH |].
  destruct (_ && _); [apply E |].
  destruct (rejects st item); [apply IH |].
  destruct (keyToList st (key item) itr) as [[list | err] itr'];
    [| discriminate].
  destruct (scan fuel st kr itr' (key item)) as [recs'|] eqn:Sc;
    [| discriminate].
  cbn [option_map]. intros [= <-].
  destruct (nilOrEmpty list) eqn:N.
  - rewrite (Kv_nilOrEmpty _ N). cbn [app]. now apply IH.
  - destruct (_ >=? _).
    + cbn [push ending]. rewrite records_push.
      destruct (IH itr' (key item) [] 0 recs' Sc) as [-> ->].
      split; [reflexivity |]. cbn [app]. now rewrite app_assoc.
    + destruct (IH itr' (key item) (outList ++ Kv list)
                   (wrap_int (size + Size (Kv list))) recs' Sc) as [-> ->].
      split; [reflexivity |]. now rewrite app_assoc.
Qed.

(** More fuel does not change what a finished scan gathered. *)
Lemma scan_more_fuel fuel : forall itr prevKey recs fuel',
  scan fuel st kr itr prevKey = Some recs -> (fuel <= fuel')%nat ->
  scan fuel' st kr itr prevKey = Some recs.
Proof.
  induction fuel as [|fuel IH]; intros itr prevKey recs fuel';
    cbn [scan]; [discriminate |].
  intros Sc L. destruct fuel' as [|fuel']; [lia |].
  cbn [scan].
  destruct (cur itr) as [|item rest]; [exact Sc |].
  destruct (negb (Valid itr)); [exact Sc |].
  destruct (Bytes.Equal (key item) prevKey); [apply IH; [exact Sc | lia] |].
  destruct (_ && _); [exact Sc |].
  destruct (rejects st item); [apply IH; [exact Sc | lia] |].
  destruct (keyToList st (key item) itr) as [[list | err] itr'];
    [| discriminate].
  destruct (scan fuel st kr itr' (key item)) as [recs'|] eqn:E;
    [| discriminate].
  rewrite (IH _ _ _ fuel' E) by lia. exact Sc.
Qed.

End ScanFacts.

Section Histories.

Lemma takeWhile_dropWhile {A : Type} (p : A -> bool) l :
  takeWhile p l ++ dropWhile p l = l.
Proof.
  induction l as [|x l IH]; cbn; [reflexivity |].
  destruct (p x); cbn; [now rewrite IH | reflexivity].
Qed.

Lemma takeWhile_Forall {A : Type} (p : A -> bool) l :
  Forall (fun x => p x = true) (takeWhile p l).
Proof.
  induction l as [|x l IH]; cbn; [constructor |].
  destruct (p x) eqn:E; constructor; auto.
Qed.

Lemma dropWhile_length {A : Type} (p : A -> bool) l :
  (length (dropWhile p l) <= length l)%nat.
Proof.
  induction l as [|x l IH]; cbn; [lia |]. destruct (p x); cbn; lia.
Qed.

Lemma takeWhile_app_all {A : Type} (p : A -> bool) l1 l2 :
  Forall (fun x => p x = true) l1 ->
  takeWhile p (l1 ++ l2) = l1 ++ takeWhile p l2.
Proof.
  induction 1 as [|x l1 Px _ IH]; cbn; [reflexivity |].
  now rewrite Px, IH.
Qed.

Lemma dropWhile_startsAnew k l : startsAnew k (dropWhile (sameKey k) l).
Proof.
  induction l as [|e l IH]; cbn; [exact I |].
  destruct (sameKey k e) eqn:E; [exact IH |].
  cbn. now apply BytesFacts.Equal_neq.
Qed.

Lemma takeWhile_sameKey k l :
  Forall (fun e => key e = k) (takeWhile (sameKey k) l).
Proof.
  eapply Forall_impl; [| apply takeWhile_Forall].
  intros e E. now apply BytesFacts.Equal_eq.
Qed.

Lemma histories_head e l :
  exists g gs, histories (e :: l) = (e :: g) :: gs.
Proof.
  cbn. destruct (histories l) as [|[|e' g] gs]; eauto.
  destruct (Bytes.Equal (key e) (key e')); eauto.
Qed.

(** A run of entries of one key followed by an entry of another key is a
    history of its own. *)
Lemma histories_run k e g rest :
  Forall (fun x => key x = k) (e :: g) -> startsAnew k rest ->
  histories ((e :: g) ++ rest) = (e :: g) :: histories rest.
Proof.
  revert e. induction g as [|e2 g IH]; intros e F N.
  - inversion F as [|? ? Ke _]; subst. cbn [app].
    destruct rest as [|e' rest]; [reflexivity |].
    destruct (histories_head e' rest) as (g' & gs & E).
    cbn [histories] in *. rewrite E.
    assert (Q : Bytes.Equal (key e) (key e') = false)
      by (apply BytesFacts.Equal_neq; cbn in N; congruence).
    now rewrite Q.
  - inversion F as [|? ? Ke F']; subst.
    change ((e :: e2 :: g) ++ rest) with (e :: ((e2 :: g) ++ rest)).
    cbn [histories]. rewrite (IH e2 F' N).
    inversion F' as [|? ? Ke2 _]; subst.
    assert (Q : Bytes.Equal (key e) (key e2) = true)
      by (apply BytesFacts.Equal_eq; congruence).
    now rewrite Q.
Qed.

Lemma startsAnew_takeWhile k (p : Item -> bool) rest :
  startsAnew k rest -> startsAnew k (takeWhile p rest).
Proof.
  destruct rest as [|e rest]; cbn; [auto |]. destruct (p e); cbn; auto.
Qed.

(** Every list splits into the history of its first key and the rest. *)
Lemma first_history e l :
  let g := e :: takeWhile (sameKey (key e)) l in
  let rest := dropWhile (sameKey (key e)) l in
  e :: l = g ++ rest
  /\ Forall (fun x => key x = key e) g
  /\ startsAnew (key e) rest
  /\ (length rest <= length l)%nat.
Proof.
  cbn. split; [now rewrite takeWhile_dropWhile |]. split; [| split].
  - constructor; [reflexivity | apply takeWhile_sameKey].
  - apply dropWhile_startsAnew.
  - apply dropWhile_length.
Qed.

Lemma collapsed_run st k e g rest :
  Forall (fun x => key x = k) (e :: g) -> startsAnew k rest ->
  collapsed st ((e :: g) ++ rest)
  = map recordOf (retained st (e :: g)) ++ collapsed st rest.
Proof.
  intros F N. unfold collapsed. rewrite (histories_run k e g rest F N).
  cbn [map concat]. now rewrite map_app.
Qed.

End Histories.

Section DefaultScan.

Variable st : Stream.
Variable kr : keyRange.
Variable P : Bytes.t.
Variable snap : list Item.

Hypothesis selectsAll : ChooseKey st = None.
Hypothesis defaultPolicy : KeyToList st = None.

Lemma retained_nil_of_deleted e g :
  isDeletedOrExpired e = true -> retained st (e :: g) = [].
Proof. intros D. cbn. now rewrite D. Qed.

(** [ToList] on the history [g] of the key [k] followed by another key:
    the Records are those of [retained], and the cursor is left inside the
    history or right behind it. *)
Lemma ToList_loop_history k : forall g rest acc,
  Forall (fun e => key e = k) g -> Bytes.HasPrefix k P = true ->
  startsAnew k rest -> readable P g ->
  exists m,
    (m <= length g)%nat
    /\ ToList_loop st k P snap (g ++ rest) acc
       = (Ok (Some (acc ++ map recordOf (retained st g))),
          mkIterator P snap (skipn m (g ++ rest))).
Proof.
  induction g as [|e g IH]; intros rest acc F Pk N R.
  - exists 0%nat. split; [cbn; lia |]. cbn [app retained map skipn].
    rewrite app_nil_r. destruct rest as [|e' rest]; [reflexivity |].
    apply ToList_loop_stop. right. exact N.
  - inversion F as [|? ? Ke F']; subst.
    inversion R as [|? ? Re R']; subst.
    change ((e :: g) ++ rest) with (e :: (g ++ rest)).
    destruct (isDeletedOrExpired e) eqn:D.
    + exists 0%nat. split; [cbn; lia |].
      rewrite retained_nil_of_deleted by exact D. cbn [map skipn].
      rewrite app_nil_r. apply ToList_loop_stop. now left.
    + destruct (Re Pk) as [v V].
      rewrite (ToList_loop_live st _ _ _ _ _ _ v Pk (conj eq_refl D) V).
      cbn [retained]. rewrite D.
      destruct (keepsOne st || discardEarlierVersions e).
      * exists 0%nat. split; [cbn; lia | reflexivity].
      * destruct (IH rest (acc ++ [recordOf e]) F' Pk N R') as (m & L & E).
        exists (S m). split; [cbn; lia |].
        rewrite E. cbn [map skipn]. now rewrite <- app_assoc.
Qed.

(** The entries of the key just expanded are stepped over one by one. *)
Lemma scan_skips_history k fuel : forall g rest,
  Forall (fun e => key e = k) g -> Bytes.HasPrefix k P = true ->
  scan (length g + fuel) st kr (mkIterator P snap (g ++ rest)) k
  = scan fuel st kr (mkIterator P snap rest) k.
Proof.
  induction g as [|e g IH]; intros rest F Pk; [reflexivity |].
  inversion F as [|? ? Ke F']; subst.
  cbn [length Nat.add app scan cur]. unfold Valid. cbn [cur Prefix].
  rewrite Pk, BytesFacts.Equal_refl. cbn [negb]. now apply IH.
Qed.

Lemma inScan_hasPrefix e : inScan P kr e = true -> hasPrefix P e = true.
Proof. unfold inScan. intros E. now apply andb_true_iff in E. Qed.

Lemma inScan_key e e' : key e = key e' -> inScan P kr e = inScan P kr e'.
Proof. unfold inScan, hasPrefix. now intros ->. Qed.

(** One history inside the range: its retained versions are gathered, and
    the scan goes on behind it. *)
Lemma scan_history fuel prevKey e g rest recs :
  Forall (fun x => key x = key e) (e :: g) ->
  key e <> prevKey -> inScan P kr e = true ->
  startsAnew (key e) rest -> readable P (e :: g) ->
  scan fuel st kr (mkIterator P snap rest) (key e) = Some recs ->
  scan (S (length (e :: g) + fuel)) st kr
       (mkIterator P snap ((e :: g) ++ rest)) prevKey
  = Some (map recordOf (retained st (e :: g)) ++ recs).
Proof.
  intros F N I A R Sc.
  pose proof (inScan_hasPrefix e I) as Pk. unfold hasPrefix in Pk.
  set (itr := mkIterator P snap ((e :: g) ++ rest)).
  assert (V : Valid itr = true) by exact Pk.
  assert (Q : Bytes.Equal (key e) prevKey = false)
    by (now apply BytesFacts.Equal_neq).
  unfold inScan in I. apply andb_true_iff in I.
  destruct I as [_ I]. apply negb_true_iff in I.
  assert (J : rejects st e = false)
    by (unfold rejects; now rewrite selectsAll).
  destruct (ToList_loop_history (key e) (e :: g) rest [] F Pk A R)
    as (m & L & E).
  assert (T : keyToList st (key e) itr
              = (Ok (Some (map recordOf (retained st (e :: g)))),
                 mkIterator P snap (skipn m ((e :: g) ++ rest)))).
  { unfold keyToList. rewrite defaultPolicy. exact E. }
  cbn [scan]. change (cur itr) with (e :: (g ++ rest)). cbv beta iota.
  rewrite V, Q, I, J, T. cbn [negb Kv]. rewrite skipn_app.
  replace (m - length (e :: g))%nat with 0%nat by lia. cbn [skipn].
  assert (F' : Forall (fun x => key x = key e) (skipn m (e :: g))).
  { rewrite <- (firstn_skipn m (e :: g)) in F.
    now apply Forall_app in F. }
  pose proof (scan_skips_history (key e) fuel (skipn m (e :: g)) rest F' Pk)
    as Sk.
  rewrite Sc in Sk.
  rewrite (scan_more_fuel st kr _ _ _ _ (length (e :: g) + fuel) Sk).
  - reflexivity.
  - rewrite length_skipn. lia.
Qed.

(** The whole scan, from a position where a new key begins: the histories
    gone through are those in front of the first entry without the prefix
    or at or after the right bound. *)
Lemma scan_collapsed n : forall l prevKey,
  (length l <= n)%nat -> startsAnew prevKey l -> readable P l ->
  exists fuel,
    (fuel <= S (2 * length l))%nat
    /\ scan fuel st kr (mkIterator P snap l) prevKey
       = Some (collapsed st (takeWhile (inScan P kr) l)).
Proof.
  induction n as [|n IH]; intros l prevKey L A R.
  - destruct l; [| cbn in L; lia]. exists 1%nat. split; [cbn; lia |].
    reflexivity.
  - destruct l as [|e l]; [exists 1%nat; split; [cbn; lia | reflexivity] |].
    destruct (inScan P kr e) eqn:I.
    + destruct (first_history e l) as (D & F & N & Lr).
      set (g := takeWhile (sameKey (key e)) l) in *.
      set (rest := dropWhile (sameKey (key e)) l) in *.
      rewrite D in R. unfold readable in R. apply Forall_app in R.
      destruct R as [Rg Rr].
      destruct (IH rest (key e)) as (fuel & Lf & Sc); auto.
      { cbn in L. lia. }
      exists (S (length (e :: g) + fuel)). split.
      * assert (length (e :: l) = length (e :: g) + length rest)%nat
          by (rewrite D; apply length_app).
        cbn [length] in *. lia.
      * rewrite D.
        rewrite (scan_history fuel prevKey e g rest _ F A I N Rg Sc).
        f_equal. rewrite takeWhile_app_all.
        -- rewrite (collapsed_run st (key e) e g); auto.
           now apply startsAnew_takeWhile.
        -- eapply Forall_impl; [| exact F].
           intros x Kx. now rewrite (inScan_key x e Kx).
    + exists 1%nat. split; [cbn; lia |].
      cbn [scan cur takeWhile]. rewrite I. unfold Valid. cbn [cur Prefix].
      unfold inScan, hasPrefix in I.
      destruct (Bytes.HasPrefix (key e) P); [| reflexivity].
      cbn [negb andb] in *. apply negb_false_iff in I. rewrite I.
      assert (Q : Bytes.Equal (key e) prevKey = false)
        by (now apply BytesFacts.Equal_neq).
      now rewrite Q.
Qed.

End DefaultScan.

(* ------------------------------------------------------------------ *)
(** ** Coverage: sorted snapshots and ranges *)

Section Order.

(** The keys with a given prefix form an interval of the order on keys. *)
Lemma HasPrefix_between P : forall a k c,
  Bytes.geb k a = true -> Bytes.geb c k = true ->
  Bytes.HasPrefix a P = true -> Bytes.HasPrefix c P = true ->
  Bytes.HasPrefix k P = true.
Proof.
  induction P as [|p P IH]; intros a k c Ka Ck Pa Pc;
    [destruct k; reflexivity |].
  destruct a as [|x a]; [discriminate |].
  destruct c as [|z c]; [discriminate |].
  cbn in Pa, Pc. apply andb_true_iff in Pa, Pc.
  destruct Pa as [Xp Pa], Pc as [Zp Pc].
  apply Byte.byte_dec_bl in Xp, Zp. subst x z.
  destruct k as [|y k]; [discriminate |].
  unfold Bytes.geb, Bytes.Compare in Ka, Ck. cbn in Ka, Ck.
  rewrite (BytesFacts.byte_compare_opp y p) in Ck.
  destruct (Bytes.byte_compare y p) eqn:E; cbn in Ka, Ck; try discriminate.
  apply BytesFacts.byte_compare_eq in E. subst y.
  cbn. rewrite (Byte.byte_dec_lb eq_refl). cbn.
  now apply (IH a k c).
Qed.

Lemma entryBefore_trans a b c :
  entryBefore a b -> entryBefore b c -> entryBefore a c.
Proof.
  intros [L1 | [E1 V1]] [L2 | [E2 V2]].
  - left. eapply BytesFacts.Compare_trans; eassumption.
  - left. now rewrite <- E2.
  - left. now rewrite E1.
  - right. split; [congruence | lia].
Qed.

Lemma entryBefore_keys a b :
  entryBefore a b -> Bytes.geb (key b) (key a) = true.
Proof.
  intros [L | [E _]].
  - unfold Bytes.geb. rewrite BytesFacts.Compare_opp, L. reflexivity.
  - rewrite E. apply BytesFacts.geb_refl.
Qed.

Lemma cursorOrder_keysAscend l : cursorOrder l -> keysAscend l.
Proof.
  intros S. apply Sorted_StronglySorted in S.
  - induction S as [|a l S IH F]; constructor; [exact IH |].
    eapply Forall_impl; [| exact F]. intros b. apply entryBefore_keys.
  - intros a b c. apply entryBefore_trans.
Qed.

Lemma keysAscend_filter p l : keysAscend l -> keysAscend (filter p l).
Proof.
  induction 1 as [|a l S IH F]; cbn; [constructor |].
  destruct (p a); [| exact IH]. constructor; [exact IH |].
  apply Forall_forall. intros b I. apply filter_In in I.
  rewrite Forall_forall in F. now apply F.
Qed.

Lemma takeWhile_is_filter {A : Type} (R : A -> A -> Prop) (p : A -> bool) l :
  StronglySorted R l ->
  (forall x y, R x y -> p y = true -> p x = true) ->
  takeWhile p l = filter p l.
Proof.
  intros S D. induction S as [|x l S IH F]; cbn; [reflexivity |].
  destruct (p x) eqn:E; [now rewrite IH |].
  rewrite (filter_ext_in p (fun _ => false)), filter_false; [reflexivity |].
  intros y I. rewrite Forall_forall in F.
  destruct (p y) eqn:Py; [| reflexivity].
  rewrite (D x y (F y I) Py) in E. discriminate.
Qed.

(** In a sorted list what a predicate keeps splits in two when nothing of
    the first part comes after something of the second. *)
Lemma filter_cut {A : Type} (R : A -> A -> Prop) (q r : A -> bool) l :
  StronglySorted R l ->
  (forall x, q x = true -> r x = false) ->
  (forall x y, R x y -> r x = true -> q y = false) ->
  filter (fun x => q x || r x) l = filter q l ++ filter r l.
Proof.
  intros S X D. induction S as [|x l S IH F]; cbn; [reflexivity |].
  destruct (q x) eqn:Q.
  - rewrite (X x Q). cbn. now rewrite IH.
  - destruct (r x) eqn:Rx; cbn; [| exact IH].
    assert (N : filter q l = []).
    { rewrite (filter_ext_in q (fun _ => false)), filter_false;
        [reflexivity |].
      intros y I. rewrite Forall_forall in F. now apply (D x y (F y I)). }
    rewrite IH, N. reflexivity.
Qed.

Lemma histories_app X : forall Y,
  (forall x y, In x X -> In y Y -> key x <> key y) ->
  histories (X ++ Y) = histories X ++ histories Y.
Proof.
  induction X as [|e X IH]; intros Y D; [reflexivity |].
  change ((e :: X) ++ Y) with (e :: (X ++ Y)). cbn [histories].
  rewrite IH by (intros x y Ix Iy; apply D; [now right | exact Iy]).
  destruct X as [|e' X].
  - cbn [histories app]. destruct Y as [|y Y]; [reflexivity |].
    destruct (histories_head y Y) as (g & gs & E). rewrite E.
    assert (Q : Bytes.Equal (key e) (key y) = false).
    { apply BytesFacts.Equal_neq. apply D; now left. }
    now rewrite Q.
  - destruct (histories_head e' X) as (g & gs & E). rewrite E.
    cbn [app]. destruct (Bytes.Equal (key e) (key e')); reflexivity.
Qed.

Lemma collapsed_app st X Y :
  (forall x y, In x X -> In y Y -> key x <> key y) ->
  collapsed st (X ++ Y) = collapsed st X ++ collapsed st Y.
Proof.
  intros D. unfold collapsed.
  now rewrite histories_app, map_app, concat_app, map_app.
Qed.

End Order.

Section Ranges.

Variable P : Bytes.t.

Lemma keysAscend_from a e l :
  keysAscend (e :: l) -> Bytes.geb (key e) a = true ->
  Forall (fun x => Bytes.geb (key x) a = true) (e :: l).
Proof.
  intros S G. inversion S as [|? ? _ F]; subst. constructor; [exact G |].
  eapply Forall_impl; [| exact F].
  intros x X. cbv beta in X. eapply BytesFacts.geb_trans; eassumption.
Qed.

Lemma StronglySorted_and {A : Type} (R : A -> A -> Prop) (Q : A -> Prop) l :
  StronglySorted R l -> Forall Q l ->
  StronglySorted (fun x y => R x y /\ Q x) l.
Proof.
  induction 1 as [|x l S IH F]; intros Fq; constructor.
  - apply IH. now inversion Fq.
  - inversion Fq as [|? ? Qx _]; subst.
    eapply Forall_impl; [| exact F]. intros y Ry. now split.
Qed.

(** Among keys at or after a key with the prefix, the entries a scan goes
    through are closed downwards. *)
Lemma inScan_downwards kr a x y :
  Bytes.HasPrefix a P = true ->
  Bytes.geb (key y) (key x) = true /\ Bytes.geb (key x) a = true ->
  inScan P kr y = true -> inScan P kr x = true.
Proof.
  intros Pa [Yx Xa] I. unfold inScan, hasPrefix in *.
  apply andb_true_iff in I. destruct I as [Py B].
  apply andb_true_iff. split.
  - eapply HasPrefix_between; eassumption.
  - apply negb_true_iff. apply negb_true_iff in B.
    destruct (0 <? _); [| reflexivity]. cbn in *.
    destruct (Bytes.geb (key x) (right kr)) eqn:G; [| reflexivity].
    rewrite (BytesFacts.geb_trans _ _ _ Yx G) in B. discriminate.
Qed.

(** On a sorted snapshot, what the cursor goes through from [Seek(a)] on
    is what a filter picks: the entries of the range. *)
Lemma scanned_entries kr a l :
  keysAscend l -> Bytes.HasPrefix a P = true ->
  takeWhile (inScan P kr) (seekFrom a l)
  = filter (fun e => inScan P kr e && Bytes.geb (key e) a) l.
Proof.
  intros S Pa. induction l as [|e l IH]; [reflexivity |].
  cbn [seekFrom filter]. unfold Bytes.ltb.
  destruct (Bytes.geb (key e) a) eqn:G; cbn [negb].
  - pose proof (keysAscend_from a e l S G) as F.
    rewrite (takeWhile_is_filter
               (fun x y => Bytes.geb (key y) (key x) = true
                           /\ Bytes.geb (key x) a = true)).
    + rewrite andb_true_r. cbn [filter]. f_equal.
      * destruct (inScan P kr e); [f_equal |];
          apply filter_ext_in; intros x I;
          inversion F as [|? ? _ F']; subst;
          rewrite Forall_forall in F'; rewrite (F' x I);
          now rewrite andb_true_r.
    + now apply StronglySorted_and.
    + intros x y. now apply inScan_downwards.
  - rewrite andb_false_r. apply IH. now inversion S.
Qed.

Lemma seekFrom_length a l : (length (seekFrom a l) <= length l)%nat.
Proof.
  induction l as [|e l IH]; cbn; [lia |].
  destruct (Bytes.ltb (key e) a); cbn; lia.
Qed.

Lemma seekFrom_incl a l : incl (seekFrom a l) l.
Proof.
  induction l as [|e l IH]; cbn; [apply incl_refl |].
  destruct (Bytes.ltb (key e) a); [now apply incl_tl | apply incl_refl].
Qed.

End Ranges.

Section Coverage.

Context `{KVListSize}.

Variable st : Stream.

Let P := StPrefix st.
Let txn := produceKVs_txn st.

Hypothesis selectsAll : ChooseKey st = None.
Hypothesis defaultPolicy : KeyToList st = None.
Hypothesis inOrder : cursorOrder txn.
Hypothesis keysNonEmpty : Forall (fun e => key e <> []) txn.
Hypothesis copies : readable P txn.

(** One range: [iterate] returns nil, and its pages hold, in order, the
    Records of the entries of the range. *)
Lemma iterate_range kr size :
  Bytes.HasPrefix (left kr) P = true ->
  ending (iterate st txn kr size) = Returned None
  /\ records (iterate st txn kr size) = collapsed st (entriesOf P kr txn).
Proof.
  intros Pl. unfold iterate.
  change (Seek (left kr) (NewIterator txn (StPrefix st)))
    with (mkIterator P txn (seekFrom (left kr) txn)).
  set (l := seekFrom (left kr) txn).
  assert (Il : incl l txn) by apply seekFrom_incl.
  assert (Ll : (length l <= length txn)%nat) by apply seekFrom_length.
  destruct (scan_collapsed st kr P txn selectsAll defaultPolicy
              (length l) l []) as (fuel & Lf & Sc).
  - lia.
  - destruct l as [|e l']; [constructor |]. cbn.
    rewrite Forall_forall in keysNonEmpty. apply keysNonEmpty, Il. now left.
  - unfold readable in *. rewrite Forall_forall in *.
    intros e Ie. apply copies, Il, Ie.
  - assert (E : (fuel <= enough txn)%nat) by (unfold enough; lia).
    pose proof (scan_more_fuel st kr fuel _ _ _ _ Sc E) as Sc'.
    destruct (iterate_loop_scan st kr _ _ _ [] size _ Sc') as [En Re].
    split; [exact En |]. rewrite Re. cbn [app]. unfold l.
    rewrite (scanned_entries P kr (left kr) txn); [reflexivity | | exact Pl].
    now apply cursorOrder_keysAscend.
Qed.

Lemma inScan_open a e : inScan P (mkKeyRange a []) e = hasPrefix P e.
Proof. unfold inScan. cbn. now rewrite andb_true_r. Qed.

Lemma inScan_bounded a s e :
  s <> [] ->
  inScan P (mkKeyRange a s) e = hasPrefix P e && Bytes.ltb (key e) s.
Proof.
  intros N. unfold inScan, Bytes.ltb. cbn [right].
  destruct s; [congruence |]. reflexivity.
Qed.

(** The ranges from [start] on, taken together, hold the entries with the
    prefix from [start] on, and no history is cut by a range bound. *)
Lemma ranges_cover splits : forall start,
  StronglySorted (fun a b => Bytes.geb b a = true) (start :: splits) ->
  Forall (fun s => s <> [] /\ Bytes.HasPrefix s P = true) splits ->
  concat (map (fun kr => collapsed st (entriesOf P kr txn))
              (produceRanges_from start splits))
  = collapsed st
      (filter (fun e => hasPrefix P e && Bytes.geb (key e) start) txn).
Proof.
  induction splits as [|s splits IH]; intros start S F.
  - cbn. rewrite app_nil_r. unfold entriesOf. f_equal.
    apply filter_ext. intros e. now rewrite inScan_open.
  - cbn [produceRanges_from map concat].
    inversion S as [|? ? S' Fs]; subst.
    inversion F as [|? ? [Ns Ps] F']; subst.
    inversion Fs as [|? ? Gs _]; subst.
    rewrite (IH s S' F'). rewrite <- collapsed_app.
    + f_equal. unfold entriesOf.
      rewrite <- (filter_cut
                    (fun a b => Bytes.geb (key b) (key a) = true)).
      * apply filter_ext. intros e. rewrite (inScan_bounded _ _ _ Ns).
        unfold Bytes.ltb. destruct (Bytes.geb (key e) s) eqn:G; cbn.
        -- rewrite andb_false_r. cbn.
           now rewrite (BytesFacts.geb_trans _ _ _ G Gs).
        -- rewrite andb_true_r, andb_false_r, orb_false_r. reflexivity.
      * now apply cursorOrder_keysAscend.
      * intros e Q. rewrite (inScan_bounded _ _ _ Ns) in Q.
        unfold Bytes.ltb in Q.
        destruct (Bytes.geb (key e) s); [| now rewrite andb_false_r].
        cbn in Q. rewrite andb_false_r in Q. discriminate.
      * intros x y Yx R. rewrite (inScan_bounded _ _ _ Ns).
        apply andb_true_iff in R. destruct R as [_ R].
        unfold Bytes.ltb. rewrite (BytesFacts.geb_trans _ _ _ Yx R).
        cbn. now rewrite andb_false_r.
    + intros x y Ix Iy E. unfold entriesOf in Ix.
      apply filter_In in Ix, Iy. destruct Ix as [_ Ix], Iy as [_ Iy].
      rewrite (inScan_bounded _ _ _ Ns) in Ix. unfold Bytes.ltb in Ix.
      apply andb_true_iff in Iy. destruct Iy as [_ Iy].
      rewrite E, Iy in Ix. cbn in Ix. rewrite andb_false_r in Ix.
      discriminate.
Qed.

End Coverage.

(* ------------------------------------------------------------------ *)
(** ** Coverage: the keys of the Records *)

Section Keys.

Variable st : Stream.

Lemma concat_histories l : concat (histories l) = l.
Proof.
  induction l as [|e l IH]; [reflexivity |].
  destruct l as [|e' l]; [reflexivity |].
  destruct (histories_head e' l) as (g & gs & E).
  cbn [histories] in *. rewrite E in *.
  destruct (Bytes.Equal (key e) (key e')); cbn in *; now rewrite IH.
Qed.

Lemma histories_oneKey l : Forall oneKey (histories l).
Proof.
  induction l as [|e l IH]; [constructor |].
  destruct l as [|e' l]; [repeat constructor; now exists e, [] |].
  destruct (histories_head e' l) as (g & gs & E).
  cbn [histories] in *. rewrite E in *.
  inversion IH as [|? ? O IH']; subst.
  destruct O as (x & g' & X & F). injection X as <- <-.
  destruct (Bytes.Equal (key e) (key e')) eqn:Q.
  - apply BytesFacts.Equal_eq in Q. constructor; [| exact IH'].
    exists e, (e' :: g). split; [reflexivity |].
    constructor; [congruence |].
    eapply Forall_impl; [| exact F]. intros y Ky. congruence.
  - constructor; [now exists e, [] |]. constructor; [| exact IH'].
    now exists e', g.
Qed.

Lemma retained_incl g : incl (retained st g) g.
Proof.
  induction g as [|e g IH]; cbn; [apply incl_refl |].
  destruct (isDeletedOrExpired e); [intros x [] |].
  destruct (_ || _).
  - intros x [<- | []]. now left.
  - intros x [<- | I]; [now left | right; now apply IH].
Qed.

Lemma retained_keepsOne g :
  keepsOne st = true ->
  retained st g = filter (fun e => negb (isDeletedOrExpired e)) (firstn 1 g).
Proof.
  intros K. destruct g as [|e g]; cbn; [reflexivity |].
  rewrite K. now destruct (isDeletedOrExpired e).
Qed.

Lemma Key_collapsed l :
  map pb.Key (collapsed st l)
  = map key (concat (map (retained st) (histories l))).
Proof. unfold collapsed. rewrite map_map. reflexivity. Qed.

(** When one version is kept, the keys of the Records are the keys whose
    highest version is live, once each and in cursor order. *)
Lemma keys_when_one_is_kept l :
  keepsOne st = true -> map pb.Key (collapsed st l) = liveKeys l.
Proof.
  intros K. rewrite Key_collapsed. unfold liveKeys. f_equal.
  rewrite <- concat_filter_map, map_map. f_equal.
  apply map_ext. intros g. now apply retained_keepsOne.
Qed.

(** In general a key has a Record exactly when its highest version is
    live. *)
Lemma keys_of_collapsed l k :
  In k (map pb.Key (collapsed st l)) <-> In k (liveKeys l).
Proof.
  rewrite Key_collapsed. unfold liveKeys. rewrite !in_map_iff.
  pose proof (histories_oneKey l) as O. rewrite Forall_forall in O.
  split; intros (e & <- & I).
  - apply in_concat in I. destruct I as (r & Ir & Ie).
    apply in_map_iff in Ir. destruct Ir as (g & <- & Ig).
    destruct (O g Ig) as (e0 & g' & -> & F).
    exists e0. cbn [retained] in Ie.
    destruct (isDeletedOrExpired e0) eqn:D; [destruct Ie |].
    split.
    + assert (Ig' : In e (e0 :: g')).
      { apply (retained_incl (e0 :: g')). cbn [retained]. now rewrite D. }
      destruct Ig' as [-> | Ig']; [reflexivity |].
      rewrite Forall_forall in F. symmetry. now apply F.
    + apply filter_In. split; [| now rewrite D].
      apply in_concat. exists [e0]. split; [| now left].
      apply in_map_iff. now exists (e0 :: g').
  - apply filter_In in I. destruct I as [I L].
    apply in_concat in I. destruct I as (r & Ir & Ie).
    apply in_map_iff in Ir. destruct Ir as (g & <- & Ig).
    destruct (O g Ig) as (e0 & g' & -> & F).
    cbn in Ie. destruct Ie as [<- | []].
    exists e0. split; [reflexivity |].
    apply in_concat. exists (retained st (e0 :: g')). split.
    + apply in_map_iff. now exists (e0 :: g').
    + cbn. apply negb_true_iff in L. rewrite L.
      destruct (_ || _); now left.
Qed.

Lemma distinctKeys_incl l k :
  In k (distinctKeys l) -> exists e, In e l /\ key e = k.
Proof.
  unfold distinctKeys. rewrite in_map_iff. intros (e & <- & I).
  exists e. split; [| reflexivity].
  apply in_concat in I. destruct I as (r & Ir & Ie).
  apply in_map_iff in Ir. destruct Ir as (g & <- & Ig).
  rewrite <- (concat_histories l). apply in_concat. exists g.
  split; [exact Ig |].
  rewrite <- (firstn_skipn 1 g). apply in_or_app. now left.
Qed.

(** On a sorted list a key has one history only. *)
Lemma distinctKeys_NoDup l : keysAscend l -> NoDup (distinctKeys l).
Proof.
  induction l as [|e l IH]; intros S; [constructor |].
  inversion S as [|? ? S' F]; subst. specialize (IH S').
  destruct l as [|e' l]; [repeat constructor; intros [] |].
  destruct (histories_head e' l) as (g & gs & E).
  unfold distinctKeys in *. cbn [histories] in *. rewrite E in *.
  destruct (Bytes.Equal (key e) (key e')) eqn:Q.
  - apply BytesFacts.Equal_eq in Q. cbn in *. now rewrite Q.
  - apply BytesFacts.Equal_neq in Q.
    change (NoDup (key e :: map key (concat (map (firstn 1) ((e' :: g) :: gs))))).
    constructor; [| exact IH].
    intros I.
    assert (D : In (key e) (distinctKeys (e' :: l))).
    { unfold distinctKeys. cbn [histories]. now rewrite E. }
    destruct (distinctKeys_incl _ _ D) as (x & Ix & Kx).
    rewrite Forall_forall in F.
    pose proof (F x Ix) as G1. cbv beta in G1.
    pose proof (F e' (or_introl eq_refl)) as G2. cbv beta in G2.
    apply Q. apply BytesFacts.geb_antisym; [| exact G2].
    rewrite <- Kx. destruct Ix as [<- | Ix]; [apply BytesFacts.geb_refl |].
    inversion S' as [|? ? _ F']; subst. rewrite Forall_forall in F'.
    now apply F'.
Qed.

Lemma NoDup_map_filter {A B : Type} (f : A -> B) (p : A -> bool) l :
  NoDup (map f l) -> NoDup (map f (filter p l)).
Proof.
  induction l as [|x l IH]; cbn; [auto |].
  intros N. inversion N as [|? ? Nx N']; subst.
  destruct (p x); [| now apply IH]. cbn. constructor; [| now apply IH].
  intros I. apply Nx. apply in_map_iff in I. destruct I as (y & E & Iy).
  apply filter_In in Iy. apply in_map_iff. exists y. tauto.
Qed.

Lemma liveKeys_NoDup l : keysAscend l -> NoDup (liveKeys l).
Proof.
  intros S. unfold liveKeys. apply NoDup_map_filter.
  now apply distinctKeys_NoDup.
Qed.

Lemma collapsed_keys_incl l k :
  In k (map pb.Key (collapsed st l)) -> exists e, In e l /\ key e = k.
Proof.
  rewrite Key_collapsed, in_map_iff. intros (e & <- & I).
  exists e. split; [| reflexivity].
  apply in_concat in I. destruct I as (r & Ir & Ie).
  apply in_map_iff in Ir. destruct Ir as (g & <- & Ig).
  rewrite <- (concat_histories l). apply in_concat. exists g.
  split; [exact Ig | now apply (retained_incl g)].
Qed.

End Keys.

Section Apart.

Lemma HasPrefix_refl P : Bytes.HasPrefix P P = true.
Proof.
  induction P as [|p P IH]; [reflexivity |]. cbn.
  now rewrite (Byte.byte_dec_lb eq_refl), IH.
Qed.

Lemma splits_strongly_sorted P splits :
  splitsInOrder P splits ->
  StronglySorted (fun a b => Bytes.geb b a = true) (P :: splits).
Proof.
  intros [S F]. constructor.
  - apply Sorted_StronglySorted; [| exact S].
    intros a b c Ba Cb. eapply BytesFacts.geb_trans; eassumption.
  - eapply Forall_impl; [| exact F].
    intros s [_ Ps]. now apply BytesFacts.HasPrefix_geb.
Qed.

Lemma range_lefts_have_prefix P splits kr :
  splitsInOrder P splits ->
  In kr (produceRanges_from P splits) ->
  Bytes.HasPrefix (left kr) P = true.
Proof.
  intros [_ F] I. apply (in_map left) in I.
  rewrite produceRanges_from_lefts in I. destruct I as [<- | I].
  - apply HasPrefix_refl.
  - rewrite Forall_forall in F. now apply F.
Qed.

(** A later range starts at or after the right bound of an earlier one. *)
Lemma ranges_apart splits : forall start i j kri krj,
  StronglySorted (fun a b => Bytes.geb b a = true) (start :: splits) ->
  Forall (fun s => s <> []) splits ->
  (i < j)%nat ->
  nth_error (produceRanges_from start splits) i = Some kri ->
  nth_error (produceRanges_from start splits) j = Some krj ->
  right kri <> [] /\ Bytes.geb (left krj) (right kri) = true.
Proof.
  induction splits as [|s splits IH]; intros start i j kri krj S N L Ei Ej.
  - destruct j as [|[|j]]; [lia | |]; discriminate.
  - inversion S as [|? ? S' _]; subst.
    inversion N as [|? ? Ns N']; subst.
    destruct j as [|j]; [lia |]. cbn [produceRanges_from nth_error] in Ej.
    destruct i as [|i].
    + injection Ei as <-. cbn [right]. split; [exact Ns |].
      apply nth_error_In in Ej. apply (in_map left) in Ej.
      rewrite produceRanges_from_lefts in Ej. destruct Ej as [<- | Ij].
      * apply BytesFacts.geb_refl.
      * inversion S' as [|? ? _ F]; subst. rewrite Forall_forall in F.
        now apply F.
    + cbn [produceRanges_from nth_error] in Ei.
      apply (IH s i j); auto. lia.
Qed.

End Apart.

(* ------------------------------------------------------------------ *)
(** ** Delivery: from the ranges to the sink *)

Section Tally.

Variable x : pb.KV.

Lemma occurrences_app a b :
  occurrences x (a ++ b) = (occurrences x a + occurrences x b)%nat.
Proof. apply count_occ_app. Qed.

Lemma occurrences_nil : occurrences x [] = 0%nat.
Proof. reflexivity. Qed.

Lemma occurrences_concat_app (a b : list pb.KVList) :
  occurrences x (concat (a ++ b))
  = (occurrences x (concat a) + occurrences x (concat b))%nat.
Proof. now rewrite concat_app, occurrences_app. Qed.

Lemma occurrences_concat_cons (p : pb.KVList) (a : list pb.KVList) :
  occurrences x (concat (p :: a))
  = (occurrences x p + occurrences x (concat a))%nat.
Proof. cbn [concat]. apply occurrences_app. Qed.

Lemma nth_error_cut {A : Type} (l : list A) i a :
  nth_error l i = Some a -> l = firstn i l ++ a :: skipn (S i) l.
Proof.
  revert i. induction l as [|b l IH]; intros [|i]; cbn; try discriminate.
  - now intros [= ->].
  - intros E. f_equal. now apply IH.
Qed.

(** Replacing the state of one worker exchanges what that worker holds. *)
Lemma occurrences_setWorker i s s0 ws :
  nth_error ws i = Some s0 ->
  (occurrences x (concat (map heldByWorker (setWorker i s ws)))
   + occurrences x (heldByWorker s0)
   = occurrences x (concat (map heldByWorker ws))
     + occurrences x (heldByWorker s))%nat.
Proof.
  intros E. rewrite (nth_error_cut ws i s0 E) at 2. unfold setWorker.
  rewrite !map_app, !occurrences_concat_app. cbn [map].
  rewrite !occurrences_concat_cons. lia.
Qed.

End Tally.

(** Uses what is known of the splitter, the drainer and the buffers. *)
Ltac known :=
  repeat match goal with
         | E : splitter ?w = _ |- context [splitter ?w] => rewrite E
         | E : drainer ?w = _ |- context [drainer ?w] => rewrite E
         | E : Chan.buf ?c = _ |- context [Chan.buf ?c] => rewrite E
         | E : Chan.closed ?c = _ |- context [Chan.closed ?c] => rewrite E
         end.

(** Compares the tallies of two worlds that differ by one move. *)
Ltac count :=
  cbn; known;
  repeat match goal with
         | Q : context [heldByWorker _] |- _ =>
             progress cbn [heldByWorker concat] in Q
         end;
  cbn [pendingRanges heldByDrainer heldByWorker map];
  repeat (rewrite ?map_app, ?occurrences_concat_app,
           ?occurrences_concat_cons, ?occurrences_app, ?occurrences_nil in *;
          cbn [concat map] in *);
  lia.

(** What one worker holds before and after its move. *)
Ltac exchange x :=
  match goal with
  | E : nth_error (workers ?w) ?i = Some _
    |- context [setWorker ?i ?s (workers ?w)] =>
      let Q := fresh "Q" in
      pose proof (occurrences_setWorker x i s _ _ E) as Q
  end.

Section Delivery.

Context `{KVListSize}.

Variable st : Stream.

Hypothesis selectsAll : ChooseKey st = None.
Hypothesis defaultPolicy : KeyToList st = None.
Hypothesis inOrder : cursorOrder (produceKVs_txn st).
Hypothesis keysNonEmpty : Forall (fun e => key e <> []) (produceKVs_txn st).
Hypothesis copies : readable (StPrefix st) (produceKVs_txn st).
Hypothesis splits :
  splitsInOrder (StPrefix st) (KeySplits (db st) (StPrefix st)).

Lemma conserved_init cancelled numGo :
  conserved st (Orchestrate st cancelled numGo).
Proof.
  split; [| split].
  - intros x. unfold held. cbn.
    induction (Z.to_nat numGo) as [|n IH]; cbn; [reflexivity | exact IH].
  - cbn. apply Forall_forall. intros s I. apply repeat_spec in I.
    subst. discriminate.
  - cbn. apply Forall_forall. intros kr I.
    now apply (range_lefts_have_prefix _ _ _ splits).
Qed.

(** What the tally of a world is made of. *)
Lemma tally x w :
  occurrences x (held st w)
  = (occurrences x (concat (sinkLog w))
     + occurrences x (heldByDrainer (drainer w))
     + occurrences x (concat (Chan.buf (kvChan w)))
     + occurrences x (concat (map heldByWorker (workers w)))
     + occurrences x (concat (map (recordsOfRange st) (Chan.buf (rangeCh w))))
     + occurrences x (concat (map (recordsOfRange st)
                                  (pendingRanges (splitter w)))))%nat.
Proof. unfold held. rewrite !occurrences_app. lia. Qed.

Ltac unchanged :=
  split;
  [ let x := fresh "x" in intros x; rewrite !tally; count
  | split; cbn; known; cbn; auto ].

Lemma conserved_step a w w' :
  conserved st w -> step st a w = Some w' -> conserved st w'.
Proof.
  intros (T & W & R) S.
  assert (G : (forall x, occurrences x (held st w')
                         = occurrences x (held st w))
              /\ Forall (fun s => forall pages after size,
                             s = WSending pages after size ->
                             after = Returned None) (workers w')
              /\ Forall (fun kr =>
                           Bytes.HasPrefix (left kr) (StPrefix st) = true)
                        (Chan.buf (rangeCh w') ++ pendingRanges (splitter w'))).
  2: { destruct G as (G1 & G2 & G3). split; [| split]; auto.
       intros x. now rewrite G1. }
  clear T. unfold step in S. destruct (crashed w); [discriminate |].
  destruct a;
    unfold stepSplitter, stepWorker, stepDrainer, stepCaller in S.
  - break_step S. unchanged.
  - (* the splitter sends a range *)
    break_step S. unfold Chan.send in Heqo. break_step Heqo.
    split; [| split]; auto.
    + intros y. rewrite !tally. count.
    + cbn. cbn in R. rewrite <- app_assoc. exact R.
  - break_step S. unchanged.
  - (* a worker takes a range *)
    break_step S.
    + unfold Chan.recv in Heqr. break_step Heqr.
      cbn in R. inversion R as [|? ? Pk R']; subst.
      match goal with
      | |- context [iterate st _ ?kr ?sz] =>
          destruct (iterate_range st selectsAll defaultPolicy inOrder
                      keysNonEmpty copies kr sz Pk) as [En Re];
          remember (iterate st (produceKVs_txn st) kr sz) as r eqn:Er
      end.
      split; [| split].
      * intros y. rewrite !tally.
        pose proof (occurrences_setWorker y i
                      (WSending (pushed r) (ending r) (sizeAfter r))
                      _ _ Heqo) as Q.
        cbn [heldByWorker] in Q. fold (records r) in Q.
        rewrite Re in Q.
        match type of Q with
        | context [collapsed st (entriesOf _ ?kr _)] =>
            fold (recordsOfRange st kr) in Q
        end.
        count.
      * cbn. apply setWorker_Forall; auto.
        intros pages after size' [= <- <- <-]. exact En.
      * cbn. exact R'.
    + split; [| split]; auto.
      * intros y. rewrite !tally. cbn. exchange y. count.
      * cbn. apply setWorker_Forall; auto. discriminate.
  - break_step S. split; [| split]; auto.
    + intros y. rewrite !tally. cbn. exchange y. count.
    + cbn. apply setWorker_Forall; auto. discriminate.
  - (* a worker sends a page *)
    break_step S. unfold Chan.send in Heqo0. break_step Heqo0.
    split; [| split]; auto.
    + intros y. rewrite !tally. cbn. exchange y. count.
    + cbn. apply setWorker_Forall; auto.
      intros pages' after' size' [= <- <- <-].
      eapply (nth_error_Forall _ _ _ _ Heqo W). reflexivity.
  - break_step S; (split; [| split]; auto);
      try (cbn; apply setWorker_Forall; auto; discriminate);
      intros y; rewrite !tally; cbn; exchange y; count.
  - break_step S. split; [| split]; auto.
    + intros y. rewrite !tally. cbn. exchange y. count.
    + cbn. apply setWorker_Forall; auto. discriminate.
  - break_step S. unchanged.
  - break_step S. unchanged.
  - (* the drainer receives its first page *)
    break_step S; [| unchanged].
    unfold Chan.recv in Heqr. break_step Heqr.
    split; [| split]; auto.
    intros y. rewrite !tally. count.
  - (* the drainer gathers one more page *)
    break_step S. unfold Chan.recv in Heqr. break_step Heqr.
    split; [| split]; auto.
    intros y. rewrite !tally. count.
  - (* the drainer calls [Send] *)
    assert (X : forall batch,
               drainer w = DSlurp batch ->
               (forall x, occurrences x (held st (callSend st w batch))
                          = occurrences x (held st w))
               /\ workers (callSend st w batch) = workers w
               /\ rangeCh (callSend st w batch) = rangeCh w
               /\ splitter (callSend st w batch) = splitter w).
    { intros batch D. unfold callSend.
      destruct (Send st) as [send|]; [destruct (send batch) |];
        (split; [| auto]); intros y; rewrite !tally; count. }
    break_step S; destruct (X batch eq_refl) as (X1 & X2 & X3 & X4);
      rewrite X2, X3, X4; auto.
  - break_step S. unchanged.
  - break_step S. unchanged.
  - break_step S; unchanged.
  - break_step S. unchanged.
Qed.

End Delivery.

Section Winding.

Context `{KVListSize}.

Variable st : Stream.
Variable numGo : Z.

Lemma wound_init cancelled : wound numGo (Orchestrate st cancelled numGo).
Proof.
  unfold wound, Orchestrate. cbn. repeat split; try discriminate.
  - constructor.
  - apply Forall_forall. intros s I. apply repeat_spec in I. now subst.
  - apply repeat_length.
Qed.

Lemma drained_stays c d c' d' :
  drained c d -> (Chan.closed c = true -> c' = c \/ c' = Chan.close c) ->
  d' = d -> drained c' d'.
Proof.
  intros (A & B & C) X ->. destruct (X A) as [-> | ->]; repeat split; auto.
Qed.

Ltac frame :=
  unfold wound; cbn; known;
  repeat match goal with
         | |- _ /\ _ => split
         end;
  try assumption.

Lemma wound_step a w w' :
  wound numGo w -> step st a w = Some w' -> wound numGo w'.
Proof.
  intros (K & E & Rt & W & Sp & L) S. unfold step in S.
  destruct (crashed w); [discriminate |].
  destruct a;
    unfold stepSplitter, stepWorker, stepDrainer, stepCaller in S.
  - break_step S. frame.
  - (* the splitter sends a range: [rangeCh] is open *)
    break_step S. unfold Chan.send in Heqo. break_step Heqo. frame.
    + eapply Forall_impl; [| exact W]. intros s Q D.
      destruct (Q D) as [N | [C _]]; [now left | discriminate].
    + discriminate.
  - (* the splitter closes [rangeCh] *)
    break_step S. frame; [| reflexivity].
    eapply Forall_impl; [| exact W]. intros s Q D.
    destruct (Q D) as [N | [C B]]; [now left | right; now split].
  - (* a worker takes a range, or finds [rangeCh] closed *)
    break_step S; unfold Chan.recv in Heqr; break_step Heqr; frame.
    + apply setWorker_Forall; [| discriminate].
      eapply Forall_impl; [| exact W]. intros s Q D.
      destruct (Q D) as [N | [_ B]]; [now left | discriminate].
    + erewrite setWorker_length; eauto.
    + apply setWorker_Forall; [exact W |]. intros _. right. now split.
    + erewrite setWorker_length; eauto.
  - break_step S. frame.
    + apply setWorker_Forall; [exact W | discriminate].
    + erewrite setWorker_length; eauto.
  - (* a worker sends a page: [kvChan] is open *)
    break_step S. unfold Chan.send in Heqo0. break_step Heqo0. frame.
    + eapply Forall_impl; [| exact E]. intros r Q N.
      destruct (Q N) as (C & _). congruence.
    + intros Q. destruct (Rt Q) as (C & _). congruence.
    + apply setWorker_Forall; [exact W | discriminate].
    + erewrite setWorker_length; eauto.
  - break_step S; frame;
      try (apply setWorker_Forall; [exact W | discriminate]);
      erewrite setWorker_length; eauto.
  - (* a worker tries to record its error *)
    break_step S. frame.
    + apply setWorker_Forall.
      * eapply Forall_impl; [| exact W]. intros s _ _. left.
        destruct (reported w); discriminate.
      * intros _. left. destruct (reported w); discriminate.
    + erewrite setWorker_length; eauto.
  - (* the drainer returns [ctx.Err()] *)
    break_step S. frame.
    + apply Forall_app. split.
      * eapply Forall_impl; [| exact E]. intros r Q N.
        destruct (Q N) as (_ & _ & D). discriminate.
      * constructor; [discriminate | constructor].
    + intros Q. destruct (Rt Q) as (_ & _ & D). discriminate.
  - break_step S. frame.
  - (* the drainer receives a page, or finds [kvChan] closed *)
    break_step S; unfold Chan.recv in Heqr; break_step Heqr; frame.
    + eapply Forall_impl; [| exact E]. intros r Q N.
      destruct (Q N) as (_ & _ & D). discriminate.
    + intros Q. destruct (Rt Q) as (_ & _ & D). discriminate.
    + apply Forall_app. split.
      * eapply Forall_impl; [| exact E]. intros r Q N.
        destruct (Q N) as (_ & _ & D). discriminate.
      * constructor; [| constructor]. intros _. now repeat split.
    + intros Q. destruct (Rt Q) as (_ & _ & D). discriminate.
  - break_step S. unfold Chan.recv in Heqr. break_step Heqr. frame.
    + eapply Forall_impl; [| exact E]. intros r Q N.
      destruct (Q N) as (_ & _ & D). discriminate.
    + intros Q. destruct (Rt Q) as (_ & _ & D). discriminate.
  - (* the drainer calls [Send]: it is inside [slurp] *)
    assert (X : forall batch, drainer w = DSlurp batch ->
                              wound numGo (callSend st w batch)).
    { intros batch D. unfold callSend.
      assert (Z1 : drained (kvChan w) (drainer w) -> False).
      { intros (_ & _ & D'). congruence. }
      destruct (Send st) as [send|]; [destruct (send batch) |]; frame;
        try (intros Q; exfalso; apply Z1, Rt, Q);
        try (apply Forall_app; split;
             [| constructor; [discriminate | constructor]]);
        eapply Forall_impl; try exact E; intros r Q N;
        exfalso; apply Z1, Q, N. }
    break_step S; now apply X.
  - (* [wg.Wait()] returns: [kvChan] is open *)
    break_step S. frame.
    + intros Q. destruct (K Q) as [N _]. congruence.
    + discriminate.
  - (* the caller closes [kvChan] *)
    break_step S. frame.
    + intros _. split; discriminate.
    + eapply Forall_impl; [| exact E]. intros r Q N.
      destruct (Q N) as (C & B & D). now repeat split.
    + discriminate.
  - (* the caller looks into [errCh] *)
    break_step S; frame;
      try (intros Q; split; discriminate); discriminate.
  - (* the caller takes the result of the drainer *)
    break_step S. unfold Chan.recv in Heqr. break_step Heqr.
    inversion E as [|? ? E1 E2]; subst. frame.
    + intros Q; split; discriminate.
    + intros [= ->]. now apply E1.
Qed.

Lemma wound_reachable cancelled w :
  reachable st cancelled numGo w -> wound numGo w.
Proof.
  intros [acts R].
  eapply run_invariant; [apply wound_step | | exact R].
  apply wound_init.
Qed.

End Winding.

Section Delivered.

Context `{KVListSize}.

Variable st : Stream.

Hypothesis selectsAll : ChooseKey st = None.
Hypothesis defaultPolicy : KeyToList st = None.
Hypothesis inOrder : cursorOrder (produceKVs_txn st).
Hypothesis keysNonEmpty : Forall (fun e => key e <> []) (produceKVs_txn st).
Hypothesis copies : readable (StPrefix st) (produceKVs_txn st).
Hypothesis splits :
  splitsInOrder (StPrefix st) (KeySplits (db st) (StPrefix st)).

Lemma conserved_reachable cancelled numGo w :
  reachable st cancelled numGo w -> conserved st w.
Proof.
  intros [acts R].
  eapply run_invariant; [| | exact R].
  - intros a w1 w2. now apply conserved_step.
  - now apply conserved_init.
Qed.

Lemma heldByWorker_done ws :
  Forall (fun s => s = WDone) ws -> concat (map heldByWorker ws) = [].
Proof. induction 1 as [|s ws -> _ IH]; cbn; auto. Qed.

(** All ranges together hold the Records of the snapshot restricted to
    the prefix. *)
Lemma all_ranges :
  concat (map (recordsOfRange st) (produceRanges st))
  = collapsed st (withPrefix (StPrefix st) (produceKVs_txn st)).
Proof.
  unfold produceRanges, recordsOfRange.
  rewrite (ranges_cover st inOrder).
  - f_equal. unfold withPrefix. apply filter_ext. intros e.
    unfold hasPrefix.
    destruct (Bytes.HasPrefix (key e) (StPrefix st)) eqn:Q; [| reflexivity].
    now rewrite (BytesFacts.HasPrefix_geb _ _ Q).
  - now apply splits_strongly_sorted.
  - exact (proj2 splits).
Qed.

(** When [Orchestrate] returns nil, the batches [Send] was called with
    hold the Records of the snapshot restricted to the prefix, each as
    often as it is due. *)
Lemma delivered cancelled numGo w :
  1 <= numGo ->
  reachable st cancelled numGo w ->
  caller w = CReturned None ->
  Permutation (concat (sinkLog w))
              (collapsed st (withPrefix (StPrefix st) (produceKVs_txn st))).
Proof.
  intros G R Q.
  destruct (conserved_reachable _ _ _ R) as (T & _ & _).
  destruct (wound_reachable st numGo _ _ R) as (_ & _ & Rt & W & Sp & L).
  destruct (slotKeepsFirst_reachable st _ _ _ R) as (_ & _ & M).
  rewrite Q in M. destruct M as [D M].
  destruct (reported w) as [|e es] eqn:Er; [| discriminate].
  destruct (Rt Q) as (_ & Kb & Dd).
  destruct (workers w) as [|s ws] eqn:Ew; [cbn in L; lia |].
  inversion D as [|? ? Ds Dws]; subst.
  inversion W as [|? ? Ws _]; subst.
  destruct (Ws eq_refl) as [N | [Rc Rb]]; [congruence |].
  apply (Permutation_count_occ KV_eq_dec). intros x.
  specialize (T x). rewrite all_ranges in T.
  rewrite tally in T. rewrite Kb, Dd, Rb, (Sp Rc), Ew in T.
  rewrite (heldByWorker_done _ D) in T. cbn in T.
  rewrite !occurrences_nil in T. unfold occurrences in T. lia.
Qed.

End Delivered.

(** C1, as the code has it.  No key-selection predicate, the default
    policy, a snapshot in cursor order whose keys are not empty and whose
    values (under the prefix) can be copied, split points in ascending
    order that are not empty and have the prefix.  Then every call of
    [iterate] on a range returns nil, and whatever the counter [size] its
    pages hold, in order, the Records of the entries of the range: the
    retained versions of the histories of the keys with the prefix
    between the bounds.  The Records of all ranges together, in the order
    of the ranges, are the Records of the snapshot restricted to the
    prefix.  A key has a Record exactly when it is a key under the prefix
    whose highest version is live; these keys are distinct; when one
    version is kept, the keys of the Records are these keys, once each.
    No key has Records in two ranges.  And in every run of [Orchestrate]
    with at least one worker that returns nil, the batches handed to
    [Send] hold exactly these Records, each as often as it is due. *)
Theorem coverage_of_live_keys :
  forall (sz : KVListSize) (st : Stream),
    ChooseKey st = None -> KeyToList st = None ->
    cursorOrder (produceKVs_txn st) ->
    Forall (fun e => key e <> []) (produceKVs_txn st) ->
    readable (StPrefix st) (produceKVs_txn st) ->
    splitsInOrder (StPrefix st) (KeySplits (db st) (StPrefix st)) ->
    let P := StPrefix st in
    let txn := produceKVs_txn st in
    let ranges := produceRanges st in
    (forall kr size,
        In kr ranges ->
        ending (iterate st txn kr size) = Returned None
        /\ records (iterate st txn kr size)
           = collapsed st (entriesOf P kr txn))
    /\ (forall sizes : keyRange -> Z,
          concat (map (fun kr => records (iterate st txn kr (sizes kr)))
                      ranges)
          = collapsed st (withPrefix P txn))
    /\ (forall k,
          In k (map pb.Key (collapsed st (withPrefix P txn)))
          <-> In k (liveKeys (withPrefix P txn)))
    /\ NoDup (liveKeys (withPrefix P txn))
    /\ (keepsOne st = true ->
        map pb.Key (collapsed st (withPrefix P txn))
        = liveKeys (withPrefix P txn))
    /\ (forall i j kri krj ri rj,
          (i < j)%nat ->
          nth_error ranges i = Some kri -> nth_error ranges j = Some krj ->
          In ri (records (iterate st txn kri 0)) ->
          In rj (records (iterate st txn krj 0)) ->
          pb.Key ri <> pb.Key rj)
    /\ (forall cancelled numGo w,
          1 <= numGo ->
          reachable st cancelled numGo w ->
          caller w = CReturned None ->
          Permutation (concat (sinkLog w))
                      (collapsed st (withPrefix P txn))).
Proof.
  intros sz st C K O N R S. cbv zeta.
  set (P := StPrefix st) in *. set (txn := produceKVs_txn st) in *.
  set (ranges := produceRanges st).
  assert (A : forall kr size,
             In kr ranges ->
             ending (iterate st txn kr size) = Returned None
             /\ records (iterate st txn kr size)
                = collapsed st (entriesOf P kr txn)).
  { intros kr size I. apply iterate_range; auto.
    now apply (range_lefts_have_prefix _ _ _ S). }
  split; [exact A |]. split; [| split; [| split; [| split; [| split]]]].
  6: { intros cancelled numGo w G Rw Q.
       now apply (delivered st C K O N R S cancelled numGo w). }
  - intros sizes.
    rewrite (map_ext_in _ (fun kr => collapsed st (entriesOf P kr txn)))
      by (intros kr I; now apply A).
    unfold ranges, produceRanges.
    rewrite (ranges_cover st O).
    + f_equal. unfold withPrefix. apply filter_ext. intros e.
      unfold hasPrefix. fold P.
      destruct (Bytes.HasPrefix (key e) P) eqn:Q; [| reflexivity].
      now rewrite (BytesFacts.HasPrefix_geb _ _ Q).
    + now apply splits_strongly_sorted.
    + exact (proj2 S).
  - intros k. apply keys_of_collapsed.
  - apply liveKeys_NoDup. apply keysAscend_filter.
    now apply cursorOrder_keysAscend.
  - apply keys_when_one_is_kept.
  - intros i j kri krj ri rj L Ei Ej Ii Ij E.
    rewrite (proj2 (A kri 0 (nth_error_In _ _ Ei))) in Ii.
    rewrite (proj2 (A krj 0 (nth_error_In _ _ Ej))) in Ij.
    destruct (collapsed_keys_incl st _ _ (in_map pb.Key _ _ Ii))
      as (x & Ix & Kx).
    destruct (collapsed_keys_incl st _ _ (in_map pb.Key _ _ Ij))
      as (y & Iy & Ky).
    destruct (ranges_apart _ _ i j kri krj
                (splits_strongly_sorted _ _ S)) as [Nr G]; auto.
    { eapply Forall_impl; [| exact (proj2 S)]. now intros s [Ns _]. }
    unfold entriesOf in Ix, Iy. apply filter_In in Ix, Iy.
    destruct Ix as [_ Ix], Iy as [_ Iy].
    apply andb_true_iff in Ix, Iy. destruct Ix as [Ix _], Iy as [_ Iy].
    unfold inScan in Ix. apply andb_true_iff in Ix. destruct Ix as [_ Ix].
    apply negb_true_iff in Ix.
    assert (Z0 : (0 <? Z.of_nat (length (right kri))) = true).
    { destruct (right kri); [congruence | reflexivity]. }
    rewrite Z0 in Ix. cbn in Ix.
    assert (Kxy : key x = key y) by congruence.
    rewrite Kxy, (BytesFacts.geb_trans _ _ _ Iy G) in Ix. discriminate.
Qed.

Lemma coverage_at_two_versions :
  let st := SampleCoverage.twoVersions in
  ChooseKey st = None
  /\ KeyToList st = None
  /\ cursorOrder (produceKVs_txn st)
  /\ Forall (fun e => key e <> []) (produceKVs_txn st)
  /\ readable (StPrefix st) (produceKVs_txn st)
  /\ splitsInOrder (StPrefix st) (KeySplits (db st) (StPrefix st))
  /\ concat (map (fun kr => records (@iterate SamplePolicies.threeMiB st
                                       (produceKVs_txn st) kr 0))
                 (produceRanges st))
     = collapsed st (withPrefix (StPrefix st) (produceKVs_txn st))
  /\ map pb.Key (collapsed st (withPrefix (StPrefix st) (produceKVs_txn st)))
     = [Sample.a; Sample.a; Sample.b].
Proof.
  cbv zeta.
  assert (O : cursorOrder (produceKVs_txn SampleCoverage.twoVersions))
    by (change (cursorOrder Sample.history); sample).
  assert (N : Forall (fun e => key e <> [])
                     (produceKVs_txn SampleCoverage.twoVersions))
    by (repeat constructor; discriminate).
  assert (R : readable (StPrefix SampleCoverage.twoVersions)
                       (produceKVs_txn SampleCoverage.twoVersions))
    by (repeat constructor; intros _; eexists; reflexivity).
  assert (S : splitsInOrder
                (StPrefix SampleCoverage.twoVersions)
                (KeySplits (db SampleCoverage.twoVersions)
                           (StPrefix SampleCoverage.twoVersions)))
    by (split; repeat constructor; discriminate).
  split; [reflexivity |]. split; [reflexivity |]. split; [exact O |].
  split; [exact N |]. split; [exact R |]. split; [exact S |].
  split; [| reflexivity].
  apply (proj1 (proj2 (coverage_of_live_keys
                         SamplePolicies.threeMiB SampleCoverage.twoVersions
                         eq_refl eq_refl O N R S))
           (fun _ => 0)).
Defined.

(** C1 as stated fails.  In the first store the highest version of "a" is
    deleted and an older one is live: the snapshot has the keys "a" and
    "b", the only range is scanned to its end, and its Records are those
    of "b" alone: "a" has no Record.  In the second store two versions of
    "a" are live and all versions are kept: the Records of the two ranges
    have the keys "a", "a", "b", where the snapshot has "a" and "b". *)
Lemma keys_of_records_differ_from_keys_of_snapshot :
  (produceRanges SampleCoverage.lossy = [mkKeyRange [] []]
   /\ ending (@iterate SamplePolicies.threeMiB SampleCoverage.lossy
                (produceKVs_txn SampleCoverage.lossy) (mkKeyRange [] []) 0)
      = Returned None
   /\ map pb.Key
          (records (@iterate SamplePolicies.threeMiB SampleCoverage.lossy
                      (produceKVs_txn SampleCoverage.lossy)
                      (mkKeyRange [] []) 0))
      = [Sample.b]
   /\ distinctKeys (withPrefix [] (produceKVs_txn SampleCoverage.lossy))
      = [Sample.a; Sample.b]
   /\ ~ Permutation [Sample.b] [Sample.a; Sample.b])
  /\ (map pb.Key
          (concat (map (fun kr =>
                          records (@iterate SamplePolicies.threeMiB
                                     SampleCoverage.twoVersions
                                     (produceKVs_txn SampleCoverage.twoVersions)
                                     kr 0))
                       (produceRanges SampleCoverage.twoVersions)))
      = [Sample.a; Sample.a; Sample.b]
      /\ distinctKeys
           (withPrefix [] (produceKVs_txn SampleCoverage.twoVersions))
         = [Sample.a; Sample.b]
      /\ ~ Permutation [Sample.a; Sample.a; Sample.b] [Sample.a; Sample.b]).
Proof.
  split.
  - repeat (split; [reflexivity |]).
    intros Q. apply Permutation_length in Q. discriminate.
  - repeat (split; [reflexivity |]).
    intros Q. apply Permutation_length in Q. discriminate.
Qed.

(* ------------------------------------------------------------------ *)
(** ** [ToList] on any cursor *)

Section ToListWalk.

Variable st : Stream.

Lemma wanted_dec k pfx e : {wanted k pfx e} + {~ wanted k pfx e}.
Proof.
  unfold wanted, liveAt, hasPrefix.
  destruct (Bytes.HasPrefix (key e) pfx); [| right; now intros [_ X]].
  destruct (isDeletedOrExpired e); [right; now intros [[_ X] _] |].
  destruct (Bytes.Equal (key e) k) eqn:Q.
  - apply BytesFacts.Equal_eq in Q. left. auto.
  - apply BytesFacts.Equal_neq in Q. right. now intros [[X _] _].
Qed.

(** One turn of the loop on an entry it does not want. *)
Lemma ToList_loop_unwanted k pfx snap e rest acc :
  ~ wanted k pfx e ->
  ToList_loop st k pfx snap (e :: rest) acc
  = (Ok (Some acc), mkIterator pfx snap (e :: rest)).
Proof.
  intros N. cbn [ToList_loop]. unfold Valid. cbn [cur Prefix].
  destruct (Bytes.HasPrefix (key e) pfx) eqn:Pk; [| reflexivity].
  destruct (isDeletedOrExpired e) eqn:D; [reflexivity |].
  destruct (Bytes.Equal k (key e)) eqn:Q; [| reflexivity].
  apply BytesFacts.Equal_eq in Q. exfalso. apply N.
  unfold wanted, liveAt, hasPrefix. auto.
Qed.

(** One turn of the loop on an entry it wants. *)
Lemma ToList_loop_wanted k pfx snap e rest acc :
  wanted k pfx e ->
  ToList_loop st k pfx snap (e :: rest) acc
  = match valueCopy e with
    | Err err => (Err err, mkIterator pfx snap (e :: rest))
    | Ok v =>
        if keepsOne st || discardEarlierVersions e
        then (Ok (Some (acc ++ [toKV e v])), mkIterator pfx snap (e :: rest))
        else ToList_loop st k pfx snap rest (acc ++ [toKV e v])
    end.
Proof.
  intros [[K L] Pk]. unfold hasPrefix in Pk.
  cbn [ToList_loop]. unfold Valid, keepsOne. cbn [cur Prefix].
  rewrite Pk, L, <- K, BytesFacts.Equal_refl. cbn [negb].
  destruct (valueCopy e); [| reflexivity].
  destruct (NumVersionsToKeep (opt (db st)) =? 1); [reflexivity |].
  cbn [orb]. destruct (discardEarlierVersions e); reflexivity.
Qed.

Lemma recordOf_copied e v : valueCopy e = Ok v -> recordOf e = toKV e v.
Proof. unfold recordOf. now intros ->. Qed.

(** The walk on any cursor: it steps over [m] entries, each of which it
    turned into a Record, and stops on entry [m]; that entry is unwanted
    (or the cursor is exhausted), or it is the last one kept, or its value
    cannot be copied. *)
Lemma ToList_loop_walk k pfx snap rest : forall acc,
  exists m,
    (m <= length rest)%nat
    /\ snd (ToList_loop st k pfx snap rest acc)
       = mkIterator pfx snap (skipn m rest)
    /\ Forall (steppedOver st k pfx) (firstn m rest)
    /\ match fst (ToList_loop st k pfx snap rest acc) with
       | Ok (Some l) =>
           (l = acc ++ map recordOf (firstn m rest)
            /\ forall e, nth_error rest m = Some e -> ~ wanted k pfx e)
           \/ (l = acc ++ map recordOf (firstn (S m) rest)
               /\ exists e v,
                    nth_error rest m = Some e /\ wanted k pfx e
                    /\ lastKept st e /\ valueCopy e = Ok v)
       | Ok None => False
       | Err err =>
           exists e,
             nth_error rest m = Some e /\ wanted k pfx e
             /\ valueCopy e = Err err
       end.
Proof.
  induction rest as [|e rest IH]; intros acc.
  - exists 0%nat. cbn. repeat split; auto. left.
    rewrite app_nil_r. split; [reflexivity | discriminate].
  - destruct (wanted_dec k pfx e) as [W | N].
    + rewrite (ToList_loop_wanted _ _ _ _ _ _ W).
      destruct (valueCopy e) as [v | err] eqn:V.
      * destruct (keepsOne st || discardEarlierVersions e) eqn:B.
        -- exists 0%nat. cbn [fst snd skipn firstn length].
           repeat split; [lia | constructor |].
           right. cbn [map]. rewrite (recordOf_copied _ _ V).
           split; [reflexivity |]. exists e, v.
           repeat split; try apply W; auto.
           unfold lastKept. now apply orb_true_iff.
        -- apply orb_false_iff in B. destruct B as [B1 B2].
           destruct (IH (acc ++ [toKV e v])) as (m & L & C & F & R).
           exists (S m). cbn [length skipn firstn nth_error].
           split; [lia |]. split; [exact C |]. split.
           ++ constructor; [| exact F].
              destruct W as [Wl Wp]. repeat split; try apply Wl; auto.
              ** now apply keepsOne_false_walk.
              ** now exists v.
           ++ destruct (fst (ToList_loop st k pfx snap rest (acc ++ [toKV e v])))
                as [[l |] | err]; auto.
              cbn [map]. rewrite (recordOf_copied _ _ V).
              destruct R as [[-> R] | [-> R]]; [left | right];
                (split; [now rewrite <- app_assoc | exact R]).
      * exists 0%nat. cbn [fst snd skipn firstn length nth_error].
        repeat split; [lia | constructor |]. exists e. auto.
    + rewrite (ToList_loop_unwanted _ _ _ _ _ _ N).
      exists 0%nat. cbn [fst snd skipn firstn length nth_error map].
      repeat split; [lia | constructor |]. left. rewrite app_nil_r.
      split; [reflexivity |]. now intros e' [= <-].
Qed.


End ToListWalk.

(** X1.  [ToList] on any cursor, positioned anywhere: it never hands back
    a nil list together with a nil error; it leaves the cursor [m] entries
    further, never behind where it was, and with its prefix and snapshot
    unchanged; the Records it returns are made, in order, of the first [n]
    entries the cursor had left, where [n] is [m] or [m + 1]: every entry
    it steps over became a Record.  These entries are live entries of the
    key asked for, under the prefix of the cursor, and so all Records carry
    that key.  When the cursor is exhausted, or stands on an entry that is
    deleted, expired, of another key or outside the prefix, the list is
    empty and the cursor does not move. *)
Theorem ToList_walks_forward_and_skips_nothing :
  forall (st : Stream) (k : Bytes.t) (itr : Iterator),
    fst (ToList st k itr) <> Ok None
    /\ (exists m n,
          (m <= n <= S m)%nat /\ (m <= length (cur itr))%nat
          /\ snd (ToList st k itr)
             = mkIterator (Prefix itr) (data itr) (skipn m (cur itr))
          /\ Forall (wanted k (Prefix itr)) (firstn m (cur itr))
          /\ forall l,
               fst (ToList st k itr) = Ok (Some l) ->
               l = map recordOf (firstn n (cur itr))
               /\ Forall (wanted k (Prefix itr)) (firstn n (cur itr))
               /\ Forall (fun r => pb.Key r = k) l)
    /\ ((forall e rest, cur itr = e :: rest -> ~ wanted k (Prefix itr) e) ->
        ToList st k itr = (Ok (Some []), itr)).
Proof.
  intros st k [pfx snap rest]. unfold ToList. cbn [Prefix data cur].
  destruct (ToList_loop_walk st k pfx snap rest []) as (m & L & C & F & R).
  assert (Fw : Forall (wanted k pfx) (firstn m rest)).
  { eapply Forall_impl; [| exact F]. intros e (Wl & Wp & _). now split. }
  split; [| split].
  - intros E. now rewrite E in R.
  - destruct (fst (ToList_loop st k pfx snap rest [])) as [[l |] | err] eqn:E;
      [| contradiction |].
    + destruct R as [[-> R] | [-> (e & v & Ne & W & _)]].
      * exists m, m. repeat split; auto; try lia; injection H as <-; auto.
        apply Forall_map. eapply Forall_impl; [| exact Fw].
        intros e [[K _] _]. exact K.
      * assert (Fn : Forall (wanted k pfx) (firstn (S m) rest)).
        { rewrite <- (firstn_skipn m rest) in Ne |- *.
          assert (Lm : length (firstn m rest) = m)
            by (rewrite length_firstn; lia).
          rewrite nth_error_app2 in Ne by lia.
          rewrite Lm, Nat.sub_diag in Ne.
          destruct (skipn m rest) as [|e' tl'] eqn:Sk; [discriminate |].
          injection Ne as ->.
          replace (S m) with (length (firstn m rest) + 1)%nat by lia.
          rewrite firstn_app_2. cbn [firstn].
          apply Forall_app. split; [exact Fw | now constructor]. }
        exists m, (S m). repeat split; auto; try lia; injection H as <-; auto.
        apply Forall_map. eapply Forall_impl; [| exact Fn].
        intros x [[K _] _]. exact K.
    + exists m, m. repeat split; auto; try lia; discriminate.
  - intros U. destruct rest as [|e rest']; [reflexivity |].
    apply ToList_loop_unwanted. now apply (U e rest').
Qed.


(* ------------------------------------------------------------------ *)
(** ** [iterate] returns *)

Section Returns.

Context `{KVListSize}.

Variable st : Stream.
Variable kr : keyRange.

Hypothesis forward : forwardOnly (keyToList st).

Lemma turnsLeft_positive itr prevKey : (1 <= turnsLeft itr prevKey)%nat.
Proof.
  unfold turnsLeft. destruct (cur itr) as [|item rest]; [lia |].
  destruct (Bytes.Equal _ _); cbn [length]; lia.
Qed.

Lemma turnsLeft_bound itr prevKey :
  (turnsLeft itr prevKey <= S (2 * length (cur itr)))%nat.
Proof.
  unfold turnsLeft. destruct (cur itr) as [|item rest]; [cbn; lia |].
  destruct (Bytes.Equal _ _); lia.
Qed.

(** Once the key of the entry under the cursor is the previous key, the
    next turn steps over it. *)
Lemma turnsLeft_same_key itr item rest :
  cur itr = item :: rest ->
  (turnsLeft itr (key item) <= 2 * length (cur itr))%nat.
Proof.
  intros C. unfold turnsLeft. rewrite C.
  now rewrite BytesFacts.Equal_refl.
Qed.

Lemma turnsLeft_after itr itr' item rest n :
  cur itr = item :: rest -> cur itr' = skipn n (cur itr) ->
  (turnsLeft itr' (key item) <= 2 * length (cur itr))%nat.
Proof.
  intros C C'. destruct n as [|n].
  - cbn [skipn] in C'. unfold turnsLeft. rewrite C', C.
    now rewrite BytesFacts.Equal_refl.
  - pose proof (turnsLeft_bound itr' (key item)) as B.
    rewrite C', C in *. cbn [skipn length] in *.
    rewrite length_skipn in B. lia.
Qed.

Lemma ending_push page r : ending (push page r) = ending r.
Proof. reflexivity. Qed.

Lemma iterate_loop_returns fuel : forall itr prevKey outList size,
  (turnsLeft itr prevKey <= fuel)%nat ->
  ending (iterate_loop fuel st kr itr prevKey outList size) <> Spinning.
Proof.
  induction fuel as [|fuel IH]; intros itr prevKey outList size T.
  - pose proof (turnsLeft_positive itr prevKey). lia.
  - cbn [iterate_loop]. unfold turnsLeft in T.
    destruct (cur itr) as [|item rest] eqn:C; [discriminate |].
    destruct (negb (Valid itr)); [discriminate |].
    destruct (Bytes.Equal (key item) prevKey).
    { apply IH. pose proof (turnsLeft_bound (Next itr) prevKey) as B.
      cbn [Next cur] in B. rewrite C in B. cbn [tl length] in *. lia. }
    destruct (_ && _); [discriminate |].
    destruct (rejects st item).
    { apply IH. pose proof (turnsLeft_same_key itr item rest C) as B.
      rewrite C in B. lia. }
    destruct (forward (key item) itr) as [n F].
    destruct (keyToList st (key item) itr) as [[list | err] itr'];
      [| discriminate].
    cbn [snd] in F.
    pose proof (turnsLeft_after itr itr' item rest n C F) as B.
    rewrite C in B.
    destruct (nilOrEmpty list); [apply IH; lia |].
    destruct (_ >=? _); [rewrite ending_push |]; apply IH; lia.
Qed.

Lemma iterate_returns txn size :
  ending (iterate st txn kr size) <> Spinning.
Proof.
  unfold iterate. apply iterate_loop_returns.
  pose proof (turnsLeft_bound (Seek (left kr) (NewIterator txn (StPrefix st)))
                []) as B.
  cbn [Seek cur NewIterator data] in B.
  pose proof (seekFrom_length (left kr) txn). unfold enough. lia.
Qed.

End Returns.

Lemma ToList_forwardOnly st : forwardOnly (ToList st).
Proof.
  intros k [pfx snap rest]. unfold ToList. cbn [Prefix data cur].
  destruct (ToList_loop_walk st k pfx snap rest []) as (m & _ & C & _).
  exists m. now rewrite C.
Qed.

(** X3.  [iterate] returns whenever the key-expansion policy only moves
    the cursor forward, as the comment on [Stream.KeyToList] expects, and
    so does [produceKVs] on any list of ranges; this holds for the default
    policy [ToList] on every snapshot, in cursor order or not, whatever
    [ChooseKey] and the sizes are.  Two turns of the loop per entry and one
    more are always enough. *)
Theorem iterate_returns_under_forward_policy :
  forall (sz : KVListSize) (st : Stream),
    KeyToList st = None \/ forwardOnly (keyToList st) ->
    (forall txn kr size, ending (iterate st txn kr size) <> Spinning)
    /\ (forall krs, ending (produceKVs st krs) <> Spinning)
    /\ (forall kr itr prevKey outList size,
          ending (iterate_loop (S (2 * length (cur itr))) st kr itr prevKey
                               outList size) <> Spinning).
Proof.
  intros sz st D.
  assert (F : forwardOnly (keyToList st)).
  { destruct D as [D | D]; [| exact D].
    unfold keyToList. rewrite D. apply ToList_forwardOnly. }
  split; [| split].
  - intros txn kr size. now apply iterate_returns.
  - intros krs. unfold produceKVs. generalize 0 as size.
    induction krs as [|kr krs IH]; intros size; cbn [produceKVs_ranges];
      [discriminate |].
    pose proof (iterate_returns st kr F (produceKVs_txn st) size) as R.
    destruct (ending (iterate st (produceKVs_txn st) kr size))
      as [[err |] |] eqn:E; try congruence.
    cbn [ending]. apply IH.
  - intros kr itr prevKey outList size.
    apply iterate_loop_returns; [exact F | apply turnsLeft_bound].
Qed.

Lemma iterate_returns_at_sample_history :
  (KeyToList Sample.keepAll = None
   \/ forwardOnly (keyToList Sample.keepAll))
  /\ ending (@iterate SamplePolicies.threeMiB Sample.keepAll Sample.history
               (mkKeyRange [] []) 0) <> Spinning.
Proof.
  assert (D : KeyToList Sample.keepAll = None
              \/ forwardOnly (keyToList Sample.keepAll))
    by (left; reflexivity).
  split; [exact D |].
  apply (proj1 (iterate_returns_under_forward_policy
                  SamplePolicies.threeMiB Sample.keepAll D)).
Defined.

(* ------------------------------------------------------------------ *)
(** ** Where the Records of a scan come from *)

Section Provenance.

Context `{KVListSize}.

Variable st : Stream.
Variable kr : keyRange.

Hypothesis defaultPolicy : KeyToList st = None.

(** The Records [ToList] returns are made of entries the cursor had left,
    each a live entry of the key whose value could be copied. *)
Lemma ToList_records k itr l r :
  fst (ToList st k itr) = Ok (Some l) -> In r l ->
  exists l1 e l2,
    cur itr = l1 ++ e :: l2 /\ r = recordOf e
    /\ wanted k (Prefix itr) e /\ exists v, valueCopy e = Ok v.
Proof.
  destruct itr as [pfx snap rest]. unfold ToList. cbn [Prefix data cur].
  intros E I.
  destruct (ToList_loop_walk st k pfx snap rest []) as (m & L & _ & F & R).
  rewrite E in R. cbn [app] in R.
  assert (Fn : exists n,
             l = map recordOf (firstn n rest)
             /\ Forall (fun e => wanted k pfx e /\ exists v, valueCopy e = Ok v)
                       (firstn n rest)).
  { assert (Fm : Forall (fun e => wanted k pfx e /\ exists v, valueCopy e = Ok v)
                        (firstn m rest)).
    { eapply Forall_impl; [| exact F].
      intros e (Wl & Wp & _ & V). split; [now split | exact V]. }
    destruct R as [[-> _] | [-> (e & v & Ne & W & _ & V)]].
    - now exists m.
    - exists (S m). split; [reflexivity |].
      rewrite <- (firstn_skipn m rest) in Ne |- *.
      assert (Lm : length (firstn m rest) = m)
        by (rewrite length_firstn; lia).
      rewrite nth_error_app2 in Ne by lia.
      rewrite Lm, Nat.sub_diag in Ne.
      destruct (skipn m rest) as [|e' tl'] eqn:Sk; [discriminate |].
      injection Ne as ->.
      replace (S m) with (length (firstn m rest) + 1)%nat by lia.
      rewrite firstn_app_2. cbn [firstn].
      apply Forall_app. split; [exact Fm |].
      constructor; [| constructor]. split; [exact W | now exists v]. }
  destruct Fn as (n & -> & Fn).
  apply in_map_iff in I. destruct I as (e & <- & I).
  rewrite Forall_forall in Fn. destruct (Fn e I) as [W V].
  apply in_split in I. destruct I as (l1 & l2 & I).
  exists l1, e, (l2 ++ skipn n rest).
  split; [| auto].
  rewrite <- (firstn_skipn n rest) at 1. rewrite I, <- app_assoc.
  reflexivity.
Qed.

(** Where [ToList] leaves the cursor: behind entries of the key only. *)
Lemma ToList_cursor k itr :
  exists m,
    snd (ToList st k itr)
    = mkIterator (Prefix itr) (data itr) (skipn m (cur itr))
    /\ Forall (fun e => key e = k) (firstn m (cur itr)).
Proof.
  destruct itr as [pfx snap rest]. unfold ToList. cbn [Prefix data cur].
  destruct (ToList_loop_walk st k pfx snap rest []) as (m & _ & C & F & _).
  exists m. split; [exact C |].
  eapply Forall_impl; [| exact F]. now intros e ([K _] & _).
Qed.

Lemma scannedFrom_next pfx prevKey item rest r :
  scannedFrom kr pfx prevKey rest r ->
  scannedFrom kr pfx prevKey (item :: rest) r.
Proof.
  intros (l1 & e & l2 & -> & R & D & V & I & N).
  exists (item :: l1), e, l2. repeat split; auto.
  destruct N as [N | (e' & Ie & N)]; [now left | right].
  exists e'. split; [now right | exact N].
Qed.

(** The scan made [key item] its previous key and went on [m] entries
    further, over entries of that key. *)
Lemma scannedFrom_after pfx prevKey item rest m r :
  Forall (fun e => key e = key item) (firstn m (item :: rest)) ->
  scannedFrom kr pfx (key item) (skipn m (item :: rest)) r ->
  scannedFrom kr pfx prevKey (item :: rest) r.
Proof.
  intros F (l1 & e & l2 & E & R & D & V & I & N).
  assert (L : item :: rest = (firstn m (item :: rest) ++ l1) ++ e :: l2).
  { rewrite <- app_assoc, <- E. symmetry. apply firstn_skipn. }
  exists (firstn m (item :: rest) ++ l1), e, l2.
  repeat split; auto.
  destruct N as [N | (e' & Ie & N)]; right.
  - exists item. split; [| congruence].
    destruct (firstn m (item :: rest) ++ l1) as [|x l0].
    + cbn [app] in L. injection L as -> _. congruence.
    + cbn [app] in L. injection L as -> _. now left.
  - exists e'. split; [apply in_or_app; now right | exact N].
Qed.

Lemma inScan_same_key pfx e e' :
  key e = key e' -> inScan pfx kr e = inScan pfx kr e'.
Proof. unfold inScan, hasPrefix. now intros ->. Qed.

(** Every Record of the pages of the loop was in the page it started
    with, or is made of an entry the cursor had yet to go through. *)
Lemma iterate_loop_provenance fuel : forall itr prevKey outList size r,
  In r (records (iterate_loop fuel st kr itr prevKey outList size)) ->
  In r outList \/ scannedFrom kr (Prefix itr) prevKey (cur itr) r.
Proof.
  induction fuel as [|fuel IH]; intros itr prevKey outList size r;
    cbn [iterate_loop]; [intros [] |].
  destruct (cur itr) as [|item rest] eqn:C.
  { rewrite records_iterate_end. now left. }
  destruct (negb (Valid itr)) eqn:Vd.
  { rewrite records_iterate_end. now left. }
  destruct (Bytes.Equal (key item) prevKey) eqn:Q.
  { intros I. destruct (IH _ _ _ _ _ I) as [I' | I']; [now left | right].
    cbn [Next cur Prefix] in I'. rewrite C in I'. cbn [tl] in I'.
    now apply scannedFrom_next. }
  apply BytesFacts.Equal_neq in Q.
  destruct (_ && _) eqn:B.
  { rewrite records_iterate_end. now left. }
  assert (Is : inScan (Prefix itr) kr item = true).
  { unfold inScan, hasPrefix. rewrite B.
    unfold Valid in Vd. rewrite C in Vd. apply negb_false_iff in Vd.
    now rewrite Vd. }
  destruct (rejects st item).
  { intros I. destruct (IH _ _ _ _ _ I) as [I' | I']; [now left | right].
    rewrite C in I'.
    apply (scannedFrom_after _ _ _ _ 0%nat); [constructor | exact I']. }
  unfold keyToList. rewrite defaultPolicy.
  destruct (ToList_cursor (key item) itr) as (m & Cu & Fk).
  pose proof (ToList_records (key item) itr) as Re.
  destruct (ToList st (key item) itr) as [[list | err] itr'];
    [| intros []].
  cbn [fst snd] in Cu, Re. subst itr'. rewrite C in Fk.
  assert (Later : forall r,
             scannedFrom kr (Prefix itr) (key item) (skipn m (cur itr)) r ->
             scannedFrom kr (Prefix itr) prevKey (item :: rest) r).
  { intros r0 S0. rewrite C in S0. now apply (scannedFrom_after _ _ _ _ m). }
  assert (Now : forall r, In r (Kv list) ->
                          scannedFrom kr (Prefix itr) prevKey (item :: rest) r).
  { intros r0 I0. destruct list as [l |]; [| destruct I0].
    destruct (Re l r0 eq_refl I0) as (l1 & e & l2 & E & R & [[K D] Pe] & V).
    rewrite C in E. exists l1, e, l2. repeat split; auto.
    - now rewrite (inScan_same_key _ e item K).
    - left. congruence. }
  destruct (nilOrEmpty list).
  { intros I. destruct (IH _ _ _ _ _ I) as [I' | I']; [now left | right].
    now apply Later. }
  destruct (_ >=? _).
  - rewrite records_push. intros I. apply in_app_or in I.
    destruct I as [I | I].
    + apply in_app_or in I. destruct I as [I | I]; [now left | right].
      now apply Now.
    + destruct (IH _ _ _ _ _ I) as [[] | I']. right. now apply Later.
  - intros I. destruct (IH _ _ _ _ _ I) as [I' | I'].
    + apply in_app_or in I'. destruct I' as [I' | I']; [now left | right].
      now apply Now.
    + right. now apply Later.
Qed.

End Provenance.

Section SoughtCursor.

Lemma keysAscend_seekFrom a l : keysAscend l -> keysAscend (seekFrom a l).
Proof.
  induction 1 as [|e l S IH F]; cbn [seekFrom]; [constructor |].
  destruct (Bytes.ltb (key e) a); [exact IH | now constructor].
Qed.

Lemma seekFrom_at_least a l :
  keysAscend l ->
  Forall (fun e => Bytes.geb (key e) a = true) (seekFrom a l).
Proof.
  induction 1 as [|e l S IH F]; cbn [seekFrom]; [constructor |].
  destruct (Bytes.ltb (key e) a) eqn:Lt; [exact IH |].
  apply keysAscend_from; [now constructor |].
  rewrite BytesFacts.geb_ltb, Lt. reflexivity.
Qed.

Lemma keysAscend_app_inv l1 e l2 x :
  keysAscend (l1 ++ e :: l2) -> In x l1 ->
  Bytes.geb (key e) (key x) = true.
Proof.
  induction l1 as [|y l1 IH]; intros S I; [destruct I |].
  cbn [app] in S. inversion S as [|? ? S' F]; subst.
  destruct I as [-> | I]; [| now apply IH].
  rewrite Forall_forall in F. apply F, in_elt.
Qed.

Lemma geb_nil k : Bytes.geb [] k = true -> k = [].
Proof. destruct k; [reflexivity | discriminate]. Qed.

End SoughtCursor.

(** X4.  With the default policy [ToList], whatever [ChooseKey], the sizes
    and the state of the snapshot: every Record on a page of [iterate] is
    made of an entry of the transaction that is live (not deleted, not
    expired), whose value could be copied, whose key has the prefix of the
    stream and lies below the right bound of the range when there is one;
    no Record is made up, and no deleted or expired version is ever sent.
    On a snapshot whose keys ascend the key is also at or above the left
    bound. *)
Theorem iterate_sends_live_entries_of_its_range :
  forall (sz : KVListSize) (st : Stream),
    KeyToList st = None ->
    forall txn kr size r,
      In r (records (iterate st txn kr size)) ->
      exists e,
        In e txn /\ r = recordOf e
        /\ isDeletedOrExpired e = false
        /\ (exists v, valueCopy e = Ok v)
        /\ Bytes.HasPrefix (pb.Key r) (StPrefix st) = true
        /\ (right kr <> [] -> Bytes.ltb (pb.Key r) (right kr) = true)
        /\ (keysAscend txn -> Bytes.geb (pb.Key r) (left kr) = true).
Proof.
  intros sz st D txn kr size r I. unfold iterate in I.
  destruct (iterate_loop_provenance st kr D _ _ _ _ _ _ I)
    as [[] | (l1 & e & l2 & E & -> & Dl & V & Is & _)].
  cbn [Seek NewIterator cur Prefix data] in E, Is.
  assert (Ie : In e (seekFrom (left kr) txn)) by (rewrite E; apply in_elt).
  exists e. rewrite Key_recordOf.
  unfold inScan, hasPrefix in Is. apply andb_true_iff in Is.
  destruct Is as [Pe Be]. apply negb_true_iff in Be.
  repeat split; auto.
  - now apply (seekFrom_incl (left kr) txn).
  - intros N. destruct (right kr) as [|b bs] eqn:Rk; [congruence |].
    cbn [length] in Be. unfold Bytes.ltb.
    replace (0 <? Z.of_nat (S (length bs))) with true in Be
      by (symmetry; apply Z.ltb_lt; lia).
    cbn [andb] in Be. now rewrite Be.
  - intros S. pose proof (seekFrom_at_least (left kr) txn S) as F.
    rewrite Forall_forall in F. now apply F.
Qed.

Lemma iterate_sends_live_entries_at_sample_history :
  KeyToList Sample.keepAll = None
  /\ In (recordOf (Sample.live Sample.a 4))
        (records (@iterate SamplePolicies.threeMiB Sample.keepAll
                    Sample.history (mkKeyRange [] Sample.b) 0))
  /\ exists e,
       In e Sample.history
       /\ recordOf (Sample.live Sample.a 4) = recordOf e
       /\ isDeletedOrExpired e = false
       /\ (exists v, valueCopy e = Ok v)
       /\ Bytes.HasPrefix (pb.Key (recordOf (Sample.live Sample.a 4)))
                          (StPrefix Sample.keepAll) = true
       /\ (right (mkKeyRange [] Sample.b) <> [] ->
           Bytes.ltb (pb.Key (recordOf (Sample.live Sample.a 4)))
                     (right (mkKeyRange [] Sample.b)) = true)
       /\ (keysAscend Sample.history ->
           Bytes.geb (pb.Key (recordOf (Sample.live Sample.a 4)))
                     (left (mkKeyRange [] Sample.b)) = true).
Proof.
  assert (D : KeyToList Sample.keepAll = None) by reflexivity.
  assert (I : In (recordOf (Sample.live Sample.a 4))
                 (records (@iterate SamplePolicies.threeMiB Sample.keepAll
                             Sample.history (mkKeyRange [] Sample.b) 0)))
    by (vm_compute; auto).
  split; [exact D |]. split; [exact I |].
  apply (iterate_sends_live_entries_of_its_range
           SamplePolicies.threeMiB Sample.keepAll D
           Sample.history (mkKeyRange [] Sample.b) 0 _ I).
Defined.

(** X5.  The loop of [iterate] starts with a nil [prevKey], and
    [bytes.Equal] takes a nil slice and an empty one for equal: on a
    snapshot whose keys ascend the versions of the empty key, which come
    first, are stepped over as if their key had been seen already.  With
    the default policy no Record of a scan has the empty key, whether the
    entries stored under it are live or not. *)
Theorem iterate_never_sends_the_empty_key :
  forall (sz : KVListSize) (st : Stream),
    KeyToList st = None ->
    forall txn kr size,
      keysAscend txn ->
      Forall (fun r => pb.Key r <> []) (records (iterate st txn kr size)).
Proof.
  intros sz st D txn kr size S. apply Forall_forall. intros r I.
  unfold iterate in I.
  destruct (iterate_loop_provenance st kr D _ _ _ _ _ _ I)
    as [[] | (l1 & e & l2 & E & -> & _ & _ & _ & N)].
  cbn [Seek NewIterator cur Prefix data] in E.
  rewrite Key_recordOf. intros K.
  destruct N as [N | (e' & Ie & N)]; [congruence |].
  pose proof (keysAscend_seekFrom (left kr) txn S) as S'.
  rewrite E in S'.
  pose proof (keysAscend_app_inv _ _ _ _ S' Ie) as G.
  rewrite K in G. apply geb_nil in G. congruence.
Qed.

Lemma iterate_never_sends_the_empty_key_at_live_entry :
  KeyToList SampleEmptyKey.stream = None
  /\ keysAscend SampleEmptyKey.entries
  /\ isDeletedOrExpired (Sample.live [] 1) = false
  /\ records (@iterate SamplePolicies.threeMiB SampleEmptyKey.stream
                SampleEmptyKey.entries (mkKeyRange [] []) 0)
     = [recordOf (Sample.live Sample.a 1)]
  /\ Forall (fun r => pb.Key r <> [])
            (records (@iterate SamplePolicies.threeMiB SampleEmptyKey.stream
                        SampleEmptyKey.entries (mkKeyRange [] []) 0)).
Proof.
  assert (D : KeyToList SampleEmptyKey.stream = None) by reflexivity.
  assert (S : keysAscend SampleEmptyKey.entries)
    by (repeat constructor).
  split; [exact D |]. split; [exact S |]. split; [reflexivity |].
  split; [reflexivity |].
  apply (iterate_never_sends_the_empty_key
           SamplePolicies.threeMiB SampleEmptyKey.stream D
           SampleEmptyKey.entries (mkKeyRange [] []) 0 S).
Defined.

(* ------------------------------------------------------------------ *)
(** ** The sizes of the pages *)

Lemma pageSize_value : pageSize = 4194304.
Proof. reflexivity. Qed.

Lemma wrap_int_small z : - 2 ^ 63 <= z < 2 ^ 63 -> wrap_int z = z.
Proof.
  intros B. unfold wrap_int. rewrite Z.mod_small; lia.
Qed.

Lemma ToList_length st k itr l :
  fst (ToList st k itr) = Ok (Some l) ->
  (length l <= length (cur itr))%nat /\ Forall (fun r => pb.Key r = k) l.
Proof.
  intros E. split.
  - destruct itr as [pfx snap rest]. unfold ToList in E.
    cbn [Prefix data cur] in *.
    destruct (ToList_loop_walk st k pfx snap rest []) as (m & L & _ & _ & R).
    rewrite E in R. cbn [app] in R.
    destruct R as [[-> _] | [-> _]]; rewrite length_map, length_firstn; lia.
  - apply Forall_forall. intros r I.
    destruct (ToList_records st k itr l r E I)
      as (_ & e & _ & _ & -> & [[K _] _] & _).
    exact K.
Qed.

Section PageSizes.

Context `{KVListSize}.

Variable st : Stream.
Variable kr : keyRange.
Variable bound : nat.

Hypothesis defaultPolicy : KeyToList st = None.
Hypothesis additive : forall a b, Size (a ++ b) = Size a + Size b.
Hypothesis nonneg : forall l, 0 <= Size l.
Hypothesis fits : forall l, (length l <= bound)%nat -> Size l < 2 ^ 62.

Lemma iterate_end_pages outList size carry :
  0 <= carry -> size = carry + Size outList -> size < pageSize ->
  outList = [] \/ justFilled carry outList ->
  let r := iterate_end outList size in
  0 <= sizeAfter r < pageSize
  /\ filled carry (removelast (pushed r))
  /\ (ending r <> Returned None -> filled carry (pushed r))
  /\ minimal carry (pushed r).
Proof.
  intros C E L J. cbn zeta. unfold iterate_end. cbn [sizeAfter pushed ending].
  pose proof (nonneg outList).
  split; [lia |].
  destruct outList as [|kv l].
  - cbn. repeat split; auto.
  - destruct J as [J | J]; [discriminate |].
    replace (0 <? Z.of_nat (length (kv :: l))) with true
      by (symmetry; apply Z.ltb_lt; cbn [length]; lia).
    cbn [removelast filled minimal]. repeat split; auto. congruence.
Qed.

Lemma filled_push carry page pages :
  pageSize <= carry + Size page -> filled 0 (removelast pages) ->
  filled carry (removelast (page :: pages)).
Proof.
  intros P F. destruct pages as [|p ps]; [exact I |].
  change (removelast (page :: p :: ps)) with (page :: removelast (p :: ps)).
  now split.
Qed.

Lemma iterate_loop_pages fuel : forall itr prevKey outList size carry,
  (length (cur itr) <= bound)%nat ->
  0 <= carry -> size = carry + Size outList -> size < pageSize ->
  outList = [] \/ justFilled carry outList ->
  let r := iterate_loop fuel st kr itr prevKey outList size in
  0 <= sizeAfter r < pageSize
  /\ filled carry (removelast (pushed r))
  /\ (ending r <> Returned None -> filled carry (pushed r))
  /\ minimal carry (pushed r).
Proof.
  induction fuel as [|fuel IH]; intros itr prevKey outList size carry B C E L J;
    cbn zeta; cbn [iterate_loop].
  { pose proof (nonneg outList). cbn. repeat split; auto; lia. }
  destruct (cur itr) as [|item rest] eqn:Cu;
    [now apply iterate_end_pages |].
  destruct (negb (Valid itr)); [now apply iterate_end_pages |].
  destruct (Bytes.Equal (key item) prevKey).
  { apply IH; auto. cbn [Next cur]. rewrite Cu in *. cbn [tl length] in *. lia. }
  destruct (_ && _); [now apply iterate_end_pages |].
  destruct (rejects st item); [apply IH; auto; now rewrite Cu |].
  unfold keyToList. rewrite defaultPolicy.
  destruct (ToList_cursor st (key item) itr) as (m & Cm & _).
  pose proof (ToList_length st (key item) itr) as Le.
  destruct (ToList st (key item) itr) as [[list | err] itr'].
  2: { pose proof (nonneg outList). cbn. repeat split; auto; lia. }
  cbn [fst snd] in Cm, Le. subst itr'.
  assert (B' : (length (cur (mkIterator (Prefix itr) (data itr)
                                        (skipn m (cur itr)))) <= bound)%nat).
  { cbn [cur]. rewrite length_skipn. rewrite ?Cu in *. lia. }
  destruct (nilOrEmpty list) eqn:Ne; [now apply IH |].
  destruct list as [l |]; [| discriminate].
  destruct (Le l eq_refl) as [Ll Kl]. cbn [Kv].
  assert (Nl : l <> []).
  { intros ->. cbn in Ne. discriminate. }
  pose proof (nonneg l) as N1. pose proof (nonneg outList) as N2.
  assert (F1 : Size l < 2 ^ 62) by (apply fits; rewrite Cu in Ll; lia).
  pose proof pageSize_value as Pv.
  rewrite wrap_int_small by lia.
  assert (Jn : justFilled carry (outList ++ l)).
  { exists outList, l, (key item). repeat split; auto. lia. }
  destruct (_ >=? _) eqn:G.
  - apply Z.geb_le in G.
    destruct (IH (mkIterator (Prefix itr) (data itr) (skipn m (cur itr)))
                 (key item) [] 0 0 B') as (S1 & S2 & S3 & S4); auto;
      try lia.
    { pose proof (additive [] []) as A0. cbn [app] in A0. lia. }
    cbn [push sizeAfter pushed ending].
    assert (Pg : pageSize <= carry + Size (outList ++ l))
      by (rewrite additive; lia).
    split; [exact S1 |]. split; [now apply filled_push |].
    split; [| now split].
    intros En. split; [exact Pg | now apply S3].
  - rewrite Z.geb_leb in G. apply Z.leb_gt in G.
    apply IH; auto; try lia. rewrite additive. lia.
Qed.

End PageSizes.

(** X6.  Pages are cut by the counter [size], which adds up [list.Size()]
    of what each key contributed.  Let the serialized size be additive
    over concatenation and never negative, as that of a repeated protobuf
    field is, and let no list as long as the transaction reach 2^62 bytes,
    so that the 64-bit counter does not wrap.  When a call of [iterate]
    with the default policy starts with the counter at [size], between
    zero and [pageSize]: the counter is again in that interval when the
    call ends; every page but the last one sent was sent because the
    counter, which started at [size] for the first page and at zero for
    the others, had reached [pageSize] with it; when the call ends with an
    error this holds of all its pages, the Records gathered since the last
    full page being dropped; and no page was held back once full, each had
    the counter below [pageSize] before the Records of its last key were
    added. *)
Theorem iterate_fills_pages_to_the_threshold :
  forall (sz : KVListSize) (st : Stream) (txn : Txn),
    KeyToList st = None ->
    (forall a b, Size (a ++ b) = Size a + Size b) ->
    (forall l, 0 <= Size l) ->
    (forall l, (length l <= length txn)%nat -> Size l < 2 ^ 62) ->
    forall kr size,
      0 <= size < pageSize ->
      0 <= sizeAfter (iterate st txn kr size) < pageSize
      /\ filled size (removelast (pushed (iterate st txn kr size)))
      /\ (ending (iterate st txn kr size) <> Returned None ->
          filled size (pushed (iterate st txn kr size)))
      /\ minimal size (pushed (iterate st txn kr size)).
Proof.
  intros sz st txn D A N F kr size [S0 S1]. unfold iterate.
  apply (iterate_loop_pages st kr (length txn) D A N F); auto.
  - cbn [Seek cur NewIterator data]. apply seekFrom_length.
  - pose proof (A [] []) as A0. cbn [app] in A0. lia.
Qed.

Lemma iterate_fills_pages_at_four_keys :
  KeyToList SampleRuns.oneRange = None
  /\ (forall a b,
        SamplePolicies.threeMiB (a ++ b)
        = SamplePolicies.threeMiB a + SamplePolicies.threeMiB b)
  /\ (forall l, 0 <= SamplePolicies.threeMiB l)
  /\ (forall l, (length l <= length SampleRuns.fourKeys)%nat ->
                SamplePolicies.threeMiB l < 2 ^ 62)
  /\ 0 <= 0 < pageSize
  /\ pushed (@iterate SamplePolicies.threeMiB SampleRuns.oneRange
               SampleRuns.fourKeys (mkKeyRange [] []) 0)
     = [map recordOf (firstn 2 SampleRuns.fourKeys);
        map recordOf (skipn 2 SampleRuns.fourKeys)]
  /\ filled (H := SamplePolicies.threeMiB) 0
       (removelast
          (pushed (@iterate SamplePolicies.threeMiB SampleRuns.oneRange
                     SampleRuns.fourKeys (mkKeyRange [] []) 0))).
Proof.
  assert (D : KeyToList SampleRuns.oneRange = None) by reflexivity.
  assert (A : forall a b,
             SamplePolicies.threeMiB (a ++ b)
             = SamplePolicies.threeMiB a + SamplePolicies.threeMiB b).
  { intros a b. unfold SamplePolicies.threeMiB. rewrite length_app. lia. }
  assert (N : forall l, 0 <= SamplePolicies.threeMiB l).
  { intros l. unfold SamplePolicies.threeMiB. lia. }
  assert (F : forall l, (length l <= length SampleRuns.fourKeys)%nat ->
                        SamplePolicies.threeMiB l < 2 ^ 62).
  { intros l L. unfold SamplePolicies.threeMiB. cbn [length SampleRuns.fourKeys] in L.
    lia. }
  assert (Z0 : 0 <= 0 < pageSize) by (rewrite pageSize_value; lia).
  split; [exact D |]. split; [exact A |]. split; [exact N |].
  split; [exact F |]. split; [exact Z0 |]. split; [reflexivity |].
  apply (proj1 (proj2 (iterate_fills_pages_to_the_threshold
                         SamplePolicies.threeMiB SampleRuns.oneRange
                         SampleRuns.fourKeys D A N F (mkKeyRange [] []) 0 Z0))).
Defined.

(* ------------------------------------------------------------------ *)
(** ** Coverage under [ChooseKey] *)

Section ChosenScan.

Variable st : Stream.
Variable kr : keyRange.
Variable P : Bytes.t.
Variable snap : list Item.

Hypothesis defaultPolicy : KeyToList st = None.

Lemma collapsedChosen_run k e g rest :
  Forall (fun x => key x = k) (e :: g) -> startsAnew k rest ->
  collapsedChosen st ((e :: g) ++ rest)
  = (if rejects st e then [] else map recordOf (retained st (e :: g)))
    ++ collapsedChosen st rest.
Proof.
  intros F N. unfold collapsedChosen.
  rewrite (histories_run k e g rest F N). cbn [filter chosen].
  destruct (rejects st e); cbn [negb]; [reflexivity |].
  cbn [map concat]. now rewrite map_app.
Qed.

(** One history inside the range whose highest version is accepted. *)
Lemma scan_history_accepted fuel prevKey e g rest recs :
  Forall (fun x => key x = key e) (e :: g) ->
  key e <> prevKey -> inScan P kr e = true -> rejects st e = false ->
  startsAnew (key e) rest -> readable P (e :: g) ->
  scan fuel st kr (mkIterator P snap rest) (key e) = Some recs ->
  scan (S (length (e :: g) + fuel)) st kr
       (mkIterator P snap ((e :: g) ++ rest)) prevKey
  = Some (map recordOf (retained st (e :: g)) ++ recs).
Proof.
  intros F N I J A R Sc.
  pose proof (inScan_hasPrefix kr P e I) as Pk. unfold hasPrefix in Pk.
  set (itr := mkIterator P snap ((e :: g) ++ rest)).
  assert (V : Valid itr = true) by exact Pk.
  assert (Q : Bytes.Equal (key e) prevKey = false)
    by (now apply BytesFacts.Equal_neq).
  unfold inScan in I. apply andb_true_iff in I.
  destruct I as [_ I]. apply negb_true_iff in I.
  destruct (ToList_loop_history st P snap (key e) (e :: g) rest [] F Pk A R)
    as (m & L & E).
  assert (T : keyToList st (key e) itr
              = (Ok (Some (map recordOf (retained st (e :: g)))),
                 mkIterator P snap (skipn m ((e :: g) ++ rest)))).
  { unfold keyToList. rewrite defaultPolicy. exact E. }
  cbn [scan]. change (cur itr) with (e :: (g ++ rest)). cbv beta iota.
  rewrite V, Q, I, J, T. cbn [negb Kv]. rewrite skipn_app.
  replace (m - length (e :: g))%nat with 0%nat by lia. cbn [skipn].
  assert (F' : Forall (fun x => key x = key e) (skipn m (e :: g))).
  { rewrite <- (firstn_skipn m (e :: g)) in F.
    now apply Forall_app in F. }
  pose proof (scan_skips_history st kr P snap (key e) fuel
                (skipn m (e :: g)) rest F' Pk) as Sk.
  rewrite Sc in Sk.
  rewrite (scan_more_fuel st kr _ _ _ _ (length (e :: g) + fuel) Sk).
  - reflexivity.
  - rewrite length_skipn. lia.
Qed.

(** One history inside the range whose highest version is rejected: the
    policy is not called, and the history is stepped over. *)
Lemma scan_history_rejected fuel prevKey e g rest recs :
  Forall (fun x => key x = key e) (e :: g) ->
  key e <> prevKey -> inScan P kr e = true -> rejects st e = true ->
  scan fuel st kr (mkIterator P snap rest) (key e) = Some recs ->
  scan (S (length (e :: g) + fuel)) st kr
       (mkIterator P snap ((e :: g) ++ rest)) prevKey
  = Some recs.
Proof.
  intros F N I J Sc.
  pose proof (inScan_hasPrefix kr P e I) as Pk. unfold hasPrefix in Pk.
  set (itr := mkIterator P snap ((e :: g) ++ rest)).
  assert (V : Valid itr = true) by exact Pk.
  assert (Q : Bytes.Equal (key e) prevKey = false)
    by (now apply BytesFacts.Equal_neq).
  unfold inScan in I. apply andb_true_iff in I.
  destruct I as [_ I]. apply negb_true_iff in I.
  cbn [scan]. change (cur itr) with (e :: (g ++ rest)). cbv beta iota.
  rewrite V, Q, I, J. cbn [negb]. unfold itr.
  now rewrite (scan_skips_history st kr P snap (key e) fuel (e :: g) rest F Pk).
Qed.

Lemma scan_collapsedChosen n : forall l prevKey,
  (length l <= n)%nat -> startsAnew prevKey l -> readable P l ->
  exists fuel,
    (fuel <= S (2 * length l))%nat
    /\ scan fuel st kr (mkIterator P snap l) prevKey
       = Some (collapsedChosen st (takeWhile (inScan P kr) l)).
Proof.
  induction n as [|n IH]; intros l prevKey L A R.
  - destruct l; [| cbn in L; lia]. exists 1%nat. split; [cbn; lia |].
    reflexivity.
  - destruct l as [|e l]; [exists 1%nat; split; [cbn; lia | reflexivity] |].
    destruct (inScan P kr e) eqn:I.
    + destruct (first_history e l) as (D & F & N & Lr).
      set (g := takeWhile (sameKey (key e)) l) in *.
      set (rest := dropWhile (sameKey (key e)) l) in *.
      rewrite D in R. unfold readable in R. apply Forall_app in R.
      destruct R as [Rg Rr].
      destruct (IH rest (key e)) as (fuel & Lf & Sc); auto.
      { cbn in L. lia. }
      exists (S (length (e :: g) + fuel)). split.
      * assert (length (e :: l) = length (e :: g) + length rest)%nat
          by (rewrite D; apply length_app).
        cbn [length] in *. lia.
      * rewrite D. rewrite takeWhile_app_all.
        -- rewrite (collapsedChosen_run (key e) e g); auto.
           2: now apply startsAnew_takeWhile.
           destruct (rejects st e) eqn:J.
           ++ now apply scan_history_rejected.
           ++ now apply scan_history_accepted.
        -- eapply Forall_impl; [| exact F].
           intros x Kx. now rewrite (inScan_key kr P x e Kx).
    + exists 1%nat. split; [cbn; lia |].
      cbn [scan cur takeWhile]. rewrite I. unfold Valid. cbn [cur Prefix].
      unfold inScan, hasPrefix in I.
      destruct (Bytes.HasPrefix (key e) P); [| reflexivity].
      cbn [negb andb] in *. apply negb_false_iff in I. rewrite I.
      assert (Q : Bytes.Equal (key e) prevKey = false)
        by (now apply BytesFacts.Equal_neq).
      now rewrite Q.
Qed.

Lemma collapsedChosen_app X Y :
  (forall x y, In x X -> In y Y -> key x <> key y) ->
  collapsedChosen st (X ++ Y) = collapsedChosen st X ++ collapsedChosen st Y.
Proof.
  intros D. unfold collapsedChosen.
  now rewrite histories_app, filter_app, map_app, concat_app, map_app.
Qed.

Lemma collapsedChosen_all l :
  ChooseKey st = None -> collapsedChosen st l = collapsed st l.
Proof.
  intros C. unfold collapsedChosen, collapsed. do 3 f_equal.
  pose proof (histories_oneKey l) as O.
  induction O as [|g gs (e & g' & -> & _) _ IH]; [reflexivity |].
  cbn [filter chosen]. unfold rejects. rewrite C. cbn [negb].
  now rewrite IH.
Qed.

(** A key has a Record exactly when its highest version is live and
    accepted. *)
Lemma keys_of_collapsedChosen l k :
  In k (map pb.Key (collapsedChosen st l)) <-> In k (chosenKeys st l).
Proof.
  unfold collapsedChosen, chosenKeys. rewrite map_map.
  change (fun x => pb.Key (recordOf x)) with key. rewrite !in_map_iff.
  pose proof (histories_oneKey l) as O. rewrite Forall_forall in O.
  split; intros (e & <- & I).
  - apply in_concat in I. destruct I as (r & Ir & Ie).
    apply in_map_iff in Ir. destruct Ir as (g & <- & Ig).
    apply filter_In in Ig. destruct Ig as [Ig Cg].
    destruct (O g Ig) as (e0 & g' & -> & F).
    exists e0. cbn [retained] in Ie. cbn [chosen] in Cg.
    destruct (isDeletedOrExpired e0) eqn:D; [destruct Ie |].
    split.
    + assert (Ig' : In e (e0 :: g')).
      { apply (retained_incl st (e0 :: g')). cbn [retained]. now rewrite D. }
      destruct Ig' as [-> | Ig']; [reflexivity |].
      rewrite Forall_forall in F. symmetry. now apply F.
    + apply filter_In. split; [| now rewrite D, Cg].
      apply in_concat. exists [e0]. split; [| now left].
      apply in_map_iff. now exists (e0 :: g').
  - apply filter_In in I. destruct I as [I L].
    apply andb_true_iff in L. destruct L as [L C].
    apply in_concat in I. destruct I as (r & Ir & Ie).
    apply in_map_iff in Ir. destruct Ir as (g & <- & Ig).
    destruct (O g Ig) as (e0 & g' & -> & F).
    cbn in Ie. destruct Ie as [<- | []].
    exists e0. split; [reflexivity |].
    apply in_concat. exists (retained st (e0 :: g')). split.
    + apply in_map_iff. exists (e0 :: g'). split; [reflexivity |].
      apply filter_In. now split.
    + cbn. apply negb_true_iff in L. rewrite L.
      destruct (_ || _); now left.
Qed.

End ChosenScan.

Section ChosenCoverage.

Context `{KVListSize}.

Variable st : Stream.

Let P := StPrefix st.
Let txn := produceKVs_txn st.

Hypothesis defaultPolicy : KeyToList st = None.
Hypothesis inOrder : cursorOrder txn.
Hypothesis keysNonEmpty : Forall (fun e => key e <> []) txn.
Hypothesis copies : readable P txn.

Lemma iterate_range_chosen kr size :
  Bytes.HasPrefix (left kr) P = true ->
  ending (iterate st txn kr size) = Returned None
  /\ records (iterate st txn kr size) = collapsedChosen st (entriesOf P kr txn).
Proof.
  intros Pl. unfold iterate.
  change (Seek (left kr) (NewIterator txn (StPrefix st)))
    with (mkIterator P txn (seekFrom (left kr) txn)).
  set (l := seekFrom (left kr) txn).
  assert (Il : incl l txn) by apply seekFrom_incl.
  assert (Ll : (length l <= length txn)%nat) by apply seekFrom_length.
  destruct (scan_collapsedChosen st kr P txn defaultPolicy
              (length l) l []) as (fuel & Lf & Sc).
  - lia.
  - destruct l as [|e l']; [constructor |]. cbn.
    rewrite Forall_forall in keysNonEmpty. apply keysNonEmpty, Il. now left.
  - unfold readable in *. rewrite Forall_forall in *.
    intros e Ie. apply copies, Il, Ie.
  - assert (E : (fuel <= enough txn)%nat) by (unfold enough; lia).
    pose proof (scan_more_fuel st kr fuel _ _ _ _ Sc E) as Sc'.
    destruct (iterate_loop_scan st kr _ _ _ [] size _ Sc') as [En Re].
    split; [exact En |]. rewrite Re. cbn [app]. unfold l.
    rewrite (scanned_entries P kr (left kr) txn); [reflexivity | | exact Pl].
    now apply cursorOrder_keysAscend.
Qed.

Lemma inScan_open' a e : inScan P (mkKeyRange a []) e = hasPrefix P e.
Proof. unfold inScan. cbn. now rewrite andb_true_r. Qed.

Lemma inScan_bounded' a s e :
  s <> [] ->
  inScan P (mkKeyRange a s) e = hasPrefix P e && Bytes.ltb (key e) s.
Proof.
  intros N. unfold inScan, Bytes.ltb. cbn [right].
  destruct s; [congruence |]. reflexivity.
Qed.

Lemma ranges_cover_chosen splits : forall start,
  StronglySorted (fun a b => Bytes.geb b a = true) (start :: splits) ->
  Forall (fun s => s <> [] /\ Bytes.HasPrefix s P = true) splits ->
  concat (map (fun kr => collapsedChosen st (entriesOf P kr txn))
              (produceRanges_from start splits))
  = collapsedChosen st
      (filter (fun e => hasPrefix P e && Bytes.geb (key e) start) txn).
Proof.
  induction splits as [|s splits IH]; intros start S F.
  - cbn. rewrite app_nil_r. unfold entriesOf. f_equal.
    apply filter_ext. intros e. now rewrite inScan_open'.
  - cbn [produceRanges_from map concat].
    inversion S as [|? ? S' Fs]; subst.
    inversion F as [|? ? [Ns Ps] F']; subst.
    inversion Fs as [|? ? Gs _]; subst.
    rewrite (IH s S' F'). rewrite <- collapsedChosen_app.
    + f_equal. unfold entriesOf.
      rewrite <- (filter_cut
                    (fun a b => Bytes.geb (key b) (key a) = true)).
      * apply filter_ext. intros e. rewrite (inScan_bounded' _ _ _ Ns).
        unfold Bytes.ltb. destruct (Bytes.geb (key e) s) eqn:G; cbn.
        -- rewrite andb_false_r. cbn.
           now rewrite (BytesFacts.geb_trans _ _ _ G Gs).
        -- rewrite andb_true_r, andb_false_r, orb_false_r. reflexivity.
      * now apply cursorOrder_keysAscend.
      * intros e Q. rewrite (inScan_bounded' _ _ _ Ns) in Q.
        unfold Bytes.ltb in Q.
        destruct (Bytes.geb (key e) s); [| now rewrite andb_false_r].
        cbn in Q. rewrite andb_false_r in Q. discriminate.
      * intros x y Yx R. rewrite (inScan_bounded' _ _ _ Ns).
        apply andb_true_iff in R. destruct R as [_ R].
        unfold Bytes.ltb. rewrite (BytesFacts.geb_trans _ _ _ Yx R).
        cbn. now rewrite andb_false_r.
    + intros x y Ix Iy E. unfold entriesOf in Ix.
      apply filter_In in Ix, Iy. destruct Ix as [_ Ix], Iy as [_ Iy].
      rewrite (inScan_bounded' _ _ _ Ns) in Ix. unfold Bytes.ltb in Ix.
      apply andb_true_iff in Iy. destruct Iy as [_ Iy].
      rewrite E, Iy in Ix. cbn in Ix. rewrite andb_false_r in Ix.
      discriminate.
Qed.

End ChosenCoverage.

(** X7.  [ChooseKey] with the default policy, on a snapshot in cursor
    order whose keys are not empty and whose values can be copied, with
    split points in order.  The predicate is consulted on the highest
    version of a key and on no other: the Records of a range are the
    retained versions of those histories between the bounds whose highest
    version it accepts, a rejected key contributes nothing even when its
    older versions would be accepted, and the scan returns nil.  The
    Records of all ranges together are those of the snapshot under the
    prefix; a key has a Record exactly when its highest version is live
    and accepted; and a nil [ChooseKey] accepts every key. *)
Theorem coverage_under_ChooseKey :
  forall (sz : KVListSize) (st : Stream),
    KeyToList st = None ->
    cursorOrder (produceKVs_txn st) ->
    Forall (fun e => key e <> []) (produceKVs_txn st) ->
    readable (StPrefix st) (produceKVs_txn st) ->
    splitsInOrder (StPrefix st) (KeySplits (db st) (StPrefix st)) ->
    let P := StPrefix st in
    let txn := produceKVs_txn st in
    let ranges := produceRanges st in
    (forall kr size,
        In kr ranges ->
        ending (iterate st txn kr size) = Returned None
        /\ records (iterate st txn kr size)
           = collapsedChosen st (entriesOf P kr txn))
    /\ (forall sizes : keyRange -> Z,
          concat (map (fun kr => records (iterate st txn kr (sizes kr)))
                      ranges)
          = collapsedChosen st (withPrefix P txn))
    /\ (forall k,
          In k (map pb.Key (collapsedChosen st (withPrefix P txn)))
          <-> In k (chosenKeys st (withPrefix P txn)))
    /\ (ChooseKey st = None ->
        collapsedChosen st (withPrefix P txn)
        = collapsed st (withPrefix P txn)).
Proof.
  intros sz st K O N R S. cbv zeta.
  set (P := StPrefix st) in *. set (txn := produceKVs_txn st) in *.
  set (ranges := produceRanges st).
  assert (A : forall kr size,
             In kr ranges ->
             ending (iterate st txn kr size) = Returned None
             /\ records (iterate st txn kr size)
                = collapsedChosen st (entriesOf P kr txn)).
  { intros kr size I. apply iterate_range_chosen; auto.
    now apply (range_lefts_have_prefix _ _ _ S). }
  split; [exact A |]. split; [| split].
  - intros sizes.
    rewrite (map_ext_in _ (fun kr => collapsedChosen st (entriesOf P kr txn)))
      by (intros kr I; now apply A).
    unfold ranges, produceRanges.
    rewrite (ranges_cover_chosen st O).
    + f_equal. unfold withPrefix. apply filter_ext. intros e.
      unfold hasPrefix. fold P.
      destruct (Bytes.HasPrefix (key e) P) eqn:Q; [| reflexivity].
      now rewrite (BytesFacts.HasPrefix_geb _ _ Q).
    + now apply splits_strongly_sorted.
    + exact (proj2 S).
  - intros k. apply keys_of_collapsedChosen.
  - apply collapsedChosen_all.
Qed.

Lemma coverage_under_ChooseKey_at_sample_history :
  let st := SampleChoice.skipsA in
  KeyToList st = None
  /\ cursorOrder (produceKVs_txn st)
  /\ Forall (fun e => key e <> []) (produceKVs_txn st)
  /\ readable (StPrefix st) (produceKVs_txn st)
  /\ splitsInOrder (StPrefix st) (KeySplits (db st) (StPrefix st))
  /\ concat (map (fun kr => records (@iterate SamplePolicies.threeMiB st
                                       (produceKVs_txn st) kr 0))
                 (produceRanges st))
     = collapsedChosen st (withPrefix (StPrefix st) (produceKVs_txn st))
  /\ map pb.Key
         (collapsedChosen st (withPrefix (StPrefix st) (produceKVs_txn st)))
     = [Sample.b].
Proof.
  cbv zeta.
  assert (O : cursorOrder (produceKVs_txn SampleChoice.skipsA))
    by (change (cursorOrder Sample.history); sample).
  assert (N : Forall (fun e => key e <> [])
                     (produceKVs_txn SampleChoice.skipsA))
    by (repeat constructor; discriminate).
  assert (R : readable (StPrefix SampleChoice.skipsA)
                       (produceKVs_txn SampleChoice.skipsA))
    by (repeat constructor; intros _; eexists; reflexivity).
  assert (S : splitsInOrder
                (StPrefix SampleChoice.skipsA)
                (KeySplits (db SampleChoice.skipsA)
                           (StPrefix SampleChoice.skipsA)))
    by (split; repeat constructor; discriminate).
  split; [reflexivity |]. split; [exact O |].
  split; [exact N |]. split; [exact R |]. split; [exact S |].
  split; [| reflexivity].
  apply (proj1 (proj2 (coverage_under_ChooseKey
                         SamplePolicies.threeMiB SampleChoice.skipsA
                         eq_refl O N R S))
           (fun _ => 0)).
Defined.

(* ------------------------------------------------------------------ *)
(** ** The discipline of the channels *)

Section Channels.

Context `{KVListSize}.

Variable st : Stream.

Lemma channelsSafe_init cancelled numGo :
  channelsSafe (Orchestrate st cancelled numGo).
Proof.
  unfold channelsSafe. cbn. repeat split; try discriminate; try lia.
  intros N. now contradiction N.
Qed.

Lemma send_length {A : Type} cap (x : A) c c' :
  Chan.send cap x c = Some c' ->
  Chan.closed c = false /\ Chan.closed c' = false
  /\ (length (Chan.buf c') <= cap)%nat.
Proof.
  unfold Chan.send. destruct (Chan.closed c); [discriminate |].
  destruct (Nat.ltb_spec (length (Chan.buf c)) cap); [| discriminate].
  intros [= <-]. cbn. rewrite length_app. cbn. repeat split; lia.
Qed.

Lemma recv_length {A : Type} (x : A) c c' :
  Chan.recv c = Chan.Got x c' ->
  Chan.closed c' = Chan.closed c
  /\ length (Chan.buf c) = S (length (Chan.buf c')).
Proof.
  unfold Chan.recv. destruct (Chan.buf c) as [|y b]; [destruct (Chan.closed c); discriminate |].
  intros [= _ <-]. cbn. auto.
Qed.

Lemma trySend_length err c :
  (length (Chan.buf c) <= 1)%nat ->
  (length (Chan.buf (trySend err c)) <= 1)%nat.
Proof.
  unfold trySend. destruct (Chan.send 1 err c) as [c'|] eqn:E; [| auto].
  intros _. now apply send_length in E.
Qed.

(** A worker that moves is not done, so the caller is still waiting. *)
Lemma caller_waits_for w i s :
  channelsSafe w -> nth_error (workers w) i = Some s -> s <> WDone ->
  caller w = CWait.
Proof.
  intros (_ & _ & D & _) E N.
  destruct (caller w) eqn:Q; try reflexivity; exfalso; apply N;
    apply (done_cannot_move (workers w) i s); auto; apply D; discriminate.
Qed.

Ltac safe :=
  unfold channelsSafe; cbn;
  repeat match goal with |- _ /\ _ => split end;
  try assumption; try tauto; try discriminate; try (cbn in *; lia);
  try congruence.

Ltac wane :=
  match goal with
  | E : Chan.recv _ = Chan.Got _ _ |- _ =>
      apply recv_length in E; destruct E as (Ea & Eb)
  end.

Ltac finish :=
  first
    [ now (intros _; apply forallb_isDone)
    | intros _;
      match goal with
      | D : _ -> Forall _ _ |- Forall _ _ => apply D; congruence
      end
    | intros _; split; discriminate
    | intros _;
      match goal with
      | V : _ -> Chan.buf _ = [] |- Chan.buf _ = [] => apply V; congruence
      end ].

Lemma channelsSafe_step a w w' :
  channelsSafe w -> step st a w = Some w' -> channelsSafe w'.
Proof.
  intros I S. pose proof I as (R1 & K1 & D1 & E1 & V1 & R2 & K2 & E2 & V2 & V3).
  unfold step in S. destruct (crashed w); [discriminate |].
  destruct a; cbn [stepSplitter stepWorker stepDrainer stepCaller] in S.
  - injection S as <-. safe.
  - unfold stepSplitter in S. break_step S.
    match goal with
    | E : Chan.send _ _ _ = Some _ |- _ =>
        apply send_length in E; destruct E as (Ea & Eb & Ec)
    end.
    safe.
  - unfold stepSplitter in S. break_step S. safe.
  - break_step S.
    + match goal with
      | E : Chan.recv _ = Chan.Got _ _ |- _ =>
          apply recv_length in E; destruct E as (Ea & Eb)
      end.
      assert (Q : caller w = CWait)
        by (eapply caller_waits_for; eauto; discriminate).
      safe; rewrite ?Ea; auto; try lia; rewrite Q; tauto.
    + assert (Q : caller w = CWait)
        by (eapply caller_waits_for; eauto; discriminate).
      safe; rewrite Q; tauto.
  - break_step S.
    assert (Q : caller w = CWait)
      by (eapply caller_waits_for; eauto; discriminate).
    safe; rewrite Q; tauto.
  - break_step S.
    match goal with
    | E : Chan.send _ _ _ = Some _ |- _ =>
        apply send_length in E; destruct E as (Ea & Eb & Ec)
    end.
    assert (Q : caller w = CWait)
      by (eapply caller_waits_for; eauto; discriminate).
    safe; rewrite Q; tauto.
  - break_step S;
      (assert (Q : caller w = CWait)
        by (eapply caller_waits_for; eauto; discriminate));
      safe; rewrite Q; tauto.
  - break_step S.
    assert (Q : caller w = CWait)
      by (eapply caller_waits_for; eauto; discriminate).
    safe; try (rewrite Q; tauto).
    + now apply trySend_closed.
    + now apply trySend_length.
  - break_step S. safe.
    + rewrite V3 by congruence. cbn. lia.
  - break_step S. safe. intros _. apply V3. discriminate.
  - break_step S.
    + match goal with
      | E : Chan.recv _ = Chan.Got _ _ |- _ =>
          apply recv_length in E; destruct E as (Ea & Eb)
      end.
      safe; rewrite ?Ea; auto; try lia.
      intros _. apply V3. congruence.
    + safe. rewrite V3 by congruence. cbn. lia.
  - break_step S.
    match goal with
    | E : Chan.recv _ = Chan.Got _ _ |- _ =>
        apply recv_length in E; destruct E as (Ea & Eb)
    end.
    safe; rewrite ?Ea; auto; try lia.
    intros _. apply V3. congruence.
  - break_step S; unfold callSend; destruct (Send st) as [send|].
    all: try (destruct (send batch)).
    all: safe; try (rewrite V3 by congruence; cbn; lia).
    all: intros _; apply V3; congruence.
  - break_step S. safe; finish.
  - break_step S. safe; finish.
  - break_step S; try wane; safe; rewrite ?Ea; auto; try lia; finish.
  - break_step S. wane. safe; rewrite ?Ea; auto; try lia; try finish.
    intros _. destruct (Chan.buf c); [reflexivity | cbn in *; lia].
Qed.

Lemma channelsSafe_reachable cancelled numGo w :
  reachable st cancelled numGo w -> channelsSafe w.
Proof.
  intros [acts R].
  eapply run_invariant; [apply channelsSafe_step | | exact R].
  apply channelsSafe_init.
Qed.

End Channels.

(** X8.  The channels of [Orchestrate] are used safely in every run.  A
    goroutine that has a send to make finds its channel open: [rangeCh]
    while the splitter has ranges left or is about to close it, [kvChan]
    while a worker is inside [iterate] and while the caller has not yet
    closed it; so no send and no [close] ever hits a closed channel.
    [kvChan] is only closed once every worker is done.  [errCh] and
    [kvErr] are never closed.  No channel holds more than its capacity
    (3, 3, 1 and 1), and [kvErr] is empty as long as the drainer has not
    returned: its one send never waits. *)
Theorem channels_are_used_safely :
  forall (sz : KVListSize) (st : Stream) (cancelled : bool) (numGo : Z)
         (w : world),
    reachable st cancelled numGo w ->
    (forall pending,
        splitter w = Splitting pending -> Chan.closed (rangeCh w) = false)
    /\ (forall i pages after size,
          nth_error (workers w) i = Some (WSending pages after size) ->
          Chan.closed (kvChan w) = false)
    /\ (caller w = CWait \/ caller w = CClose ->
        Chan.closed (kvChan w) = false)
    /\ (Chan.closed (kvChan w) = true ->
        Forall (fun s => s = WDone) (workers w))
    /\ Chan.closed (errCh w) = false
    /\ Chan.closed (kvErr w) = false
    /\ (length (Chan.buf (rangeCh w)) <= 3)%nat
    /\ (length (Chan.buf (kvChan w)) <= 3)%nat
    /\ (length (Chan.buf (errCh w)) <= 1)%nat
    /\ (length (Chan.buf (kvErr w)) <= 1)%nat
    /\ (drainer w <> DDone -> Chan.buf (kvErr w) = []).
Proof.
  intros sz st cancelled numGo w R.
  pose proof (channelsSafe_reachable st cancelled numGo w R) as I.
  pose proof I as (R1 & K1 & D1 & E1 & V1 & R2 & K2 & E2 & V2 & V3).
  assert (Kw : caller w = CWait \/ caller w = CClose ->
               Chan.closed (kvChan w) = false).
  { intros Q. destruct (Chan.closed (kvChan w)); [| reflexivity].
    destruct (K1 eq_refl) as [A B]. destruct Q; contradiction. }
  split; [| split; [| split; [| split]]].
  - intros pending E. destruct (Chan.closed (rangeCh w)); [| reflexivity].
    rewrite (R1 eq_refl) in E. discriminate.
  - intros i pages after size E. apply Kw. left.
    eapply caller_waits_for; eauto. discriminate.
  - exact Kw.
  - intros C. apply D1. now destruct (K1 C).
  - auto 10.
Qed.

Lemma channels_are_used_safely_at_failing_sink :
  exists w,
    @run SampleRuns.fourMiB SampleDeadlock.stream SampleDeadlock.sinkFails
         (@Orchestrate SampleDeadlock.stream false 2) = Some w
    /\ length (Chan.buf (kvChan w)) = 3%nat
    /\ Chan.buf (kvErr w) = [Some (Failure "sink")]
    /\ ((forall pending,
           splitter w = Splitting pending -> Chan.closed (rangeCh w) = false)
        /\ (forall i pages after size,
              nth_error (workers w) i = Some (WSending pages after size) ->
              Chan.closed (kvChan w) = false)
        /\ (caller w = CWait \/ caller w = CClose ->
            Chan.closed (kvChan w) = false)
        /\ (Chan.closed (kvChan w) = true ->
            Forall (fun s => s = WDone) (workers w))
        /\ Chan.closed (errCh w) = false
        /\ Chan.closed (kvErr w) = false
        /\ (length (Chan.buf (rangeCh w)) <= 3)%nat
        /\ (length (Chan.buf (kvChan w)) <= 3)%nat
        /\ (length (Chan.buf (errCh w)) <= 1)%nat
        /\ (length (Chan.buf (kvErr w)) <= 1)%nat
        /\ (drainer w <> DDone -> Chan.buf (kvErr w) = [])).
Proof.
  eexists. split; [vm_compute; reflexivity |].
  split; [reflexivity |]. split; [reflexivity |].
  apply (channels_are_used_safely
           SampleRuns.fourMiB SampleDeadlock.stream false 2).
  exists SampleDeadlock.sinkFails. vm_compute. reflexivity.
Defined.

(* ------------------------------------------------------------------ *)
(** ** What reaches the sink *)

Section Sink.

Context `{KVListSize}.

Variable st : Stream.

Lemma sendStops_init cancelled numGo :
  sendStops st (Orchestrate st cancelled numGo).
Proof. repeat split; constructor. Qed.

Lemma sendStops_frame w w' :
  sinkLog w' = sinkLog w -> (drainer w' <> DDone -> drainer w <> DDone) ->
  sendStops st w -> sendStops st w'.
Proof.
  intros L D (A & B & C). unfold sendStops. rewrite L. auto.
Qed.

Lemma sendStops_step a w w' :
  sendStops st w -> step st a w = Some w' -> sendStops st w'.
Proof.
  intros I S. unfold step in S. destruct (crashed w); [discriminate |].
  destruct a; cbn [stepSplitter stepWorker stepDrainer stepCaller] in S;
    try (unfold stepSplitter in S).
  1-12, 14-17:
    break_step S;
    (eapply sendStops_frame; [| | exact I]; cbn; [reflexivity |]);
    try tauto; congruence.
  break_step S; unfold callSend.
  all: destruct I as (A & B & C).
  all: destruct (Send st) as [send|] eqn:Se;
    [| unfold sendStops; cbn; rewrite ?Se; auto].
  all: assert (F : Forall (accepted st) (sinkLog w))
    by (apply B; congruence).
  all: destruct (send batch) as [err|] eqn:Sb; unfold sendStops; cbn.
  all: rewrite ?removelast_last.
  all: repeat split; auto; try discriminate; try tauto.
  all: try (intros X; congruence).
  all: try (intros _).
  all: try (apply Forall_app; split; [exact F |];
            constructor; [| constructor]; exists send; auto).
  all: rewrite removelast_app by discriminate; cbn; rewrite app_nil_r;
    exact F.
Qed.

Lemma sendStops_reachable cancelled numGo w :
  reachable st cancelled numGo w -> sendStops st w.
Proof.
  intros [acts R].
  eapply run_invariant; [apply sendStops_step | | exact R].
  apply sendStops_init.
Qed.

Section Everywhere.

Variable Q : pb.KV -> Prop.

Hypothesis pagesQ :
  forall kr size,
    Forall (Forall Q) (pushed (iterate st (produceKVs_txn st) kr size)).

Lemma Forall_concat_all (l : list pb.KVList) :
  Forall (Forall Q) l -> Forall Q (concat l).
Proof.
  induction 1 as [|p l Hp _ IH]; cbn; [constructor |].
  apply Forall_app. now split.
Qed.

Lemma everywhere_init cancelled numGo :
  everywhere Q (Orchestrate st cancelled numGo).
Proof.
  repeat split; cbn; try constructor.
  induction (Z.to_nat numGo); cbn; constructor; cbn; auto.
Qed.

Ltac place :=
  repeat split; cbn; auto;
  try match goal with
      | E : drainer _ = _ |- _ => rewrite E; cbn; auto
      end.

Lemma everywhere_step a w w' :
  everywhere Q w -> step st a w = Some w' -> everywhere Q w'.
Proof.
  intros (Hk & Hw & Hd & Hs) S. unfold step in S.
  destruct (crashed w); [discriminate |].
  destruct a; cbn [stepSplitter stepWorker stepDrainer stepCaller] in S;
    try (unfold stepSplitter in S).
  - injection S as <-. place.
  - break_step S. place.
  - break_step S. place.
  - break_step S; place;
      apply setWorker_Forall; cbn; auto.
    apply Forall_concat_all, pagesQ.
  - break_step S. place.
    apply setWorker_Forall; cbn; auto.
  - break_step S.
    match goal with
    | E : nth_error (workers w) _ = Some _ |- _ =>
        pose proof (nth_error_Forall _ _ _ _ E Hw) as Hp
    end.
    cbn in Hp. apply Forall_app in Hp. destruct Hp as [Hp1 Hp2].
    match goal with
    | E : Chan.send _ _ _ = Some _ |- _ =>
        unfold Chan.send in E; break_step E
    end.
    place.
    + apply Forall_app. split; [exact Hk | now constructor].
    + apply setWorker_Forall; cbn; auto.
  - break_step S; place;
      apply setWorker_Forall; cbn; auto.
  - break_step S. place.
    apply setWorker_Forall; cbn; auto.
  - break_step S. place.
  - break_step S. place.
  - break_step S; [| place].
    match goal with
    | E : Chan.recv _ = Chan.Got _ _ |- _ =>
        unfold Chan.recv in E; break_step E
    end.
    inversion Hk; subst. place.
  - break_step S.
    match goal with
    | E : Chan.recv _ = Chan.Got _ _ |- _ =>
        unfold Chan.recv in E; break_step E
    end.
    inversion Hk; subst.
    cbn in Hd. place. apply Forall_app. now split.
  - break_step S; unfold callSend; cbn in Hd;
      destruct (Send st) as [send|].
    all: try (destruct (send batch)).
    all: place.
    all: try (apply Forall_app; split; auto).
  - break_step S. place.
  - break_step S. place.
  - break_step S; place.
  - break_step S. place.
Qed.

Lemma everywhere_reachable cancelled numGo w :
  reachable st cancelled numGo w -> everywhere Q w.
Proof.
  intros [acts R].
  eapply run_invariant; [apply everywhere_step | | exact R].
  apply everywhere_init.
Qed.

End Everywhere.

End Sink.

(** X9.  [streamKVs] stops at the first batch [Send] fails on.  In every
    run: a batch that was handed to [Send] before another one was accepted
    by it; a batch [Send] failed on is the last one it was handed, and the
    drainer has returned; while the drainer has not returned every batch
    so far was accepted; and a nil [Send] is never handed a batch (the
    call panics). *)
Theorem Send_is_not_called_again_after_it_fails :
  forall (sz : KVListSize) (st : Stream) (cancelled : bool) (numGo : Z)
         (w : world),
    reachable st cancelled numGo w ->
    (forall l1 b l2,
        sinkLog w = l1 ++ b :: l2 -> l2 <> [] -> accepted st b)
    /\ (forall l1 b l2,
          sinkLog w = l1 ++ b :: l2 -> ~ accepted st b ->
          l2 = [] /\ drainer w = DDone)
    /\ (drainer w <> DDone -> Forall (accepted st) (sinkLog w))
    /\ (Send st = None -> sinkLog w = []).
Proof.
  intros sz st cancelled numGo w R.
  destruct (sendStops_reachable st cancelled numGo w R) as (A & B & C).
  assert (Before : forall l1 b l2,
             sinkLog w = l1 ++ b :: l2 -> l2 <> [] -> accepted st b).
  { intros l1 b l2 E N. rewrite E in A.
    rewrite removelast_app in A by discriminate.
    apply Forall_app in A. destruct A as [_ A].
    destruct l2 as [|x l2]; [congruence |].
    change (removelast (b :: x :: l2)) with (b :: removelast (x :: l2)) in A.
    now inversion A. }
  split; [exact Before |]. split; [| split; [exact B | exact C]].
  intros l1 b l2 E N. split.
  - destruct l2 as [|x l2]; [reflexivity |].
    exfalso. apply N. apply (Before l1 b (x :: l2) E). discriminate.
  - destruct (drainer w) eqn:D; try reflexivity; exfalso; apply N;
      (assert (F : Forall (accepted st) (sinkLog w))
        by (apply B; discriminate));
      rewrite Forall_forall in F; apply F; rewrite E; apply in_elt.
Qed.

Lemma Send_is_not_called_again_at_failing_sink :
  exists w,
    @run SampleRuns.fourMiB SampleDeadlock.stream SampleDeadlock.sinkFails
         (@Orchestrate SampleDeadlock.stream false 2) = Some w
    /\ sinkLog w = [[recordOf (Sample.live Sample.a 1)]]
    /\ ~ accepted SampleDeadlock.stream [recordOf (Sample.live Sample.a 1)]
    /\ drainer w = DDone.
Proof.
  eexists. split; [vm_compute; reflexivity |].
  split; [reflexivity |].
  assert (N : ~ accepted SampleDeadlock.stream
                [recordOf (Sample.live Sample.a 1)]).
  { intros (send & Se & Sb). injection Se as <-. discriminate. }
  split; [exact N |].
  match goal with
  | |- drainer ?w = DDone =>
      refine (proj2 (proj1 (proj2 (Send_is_not_called_again_after_it_fails
                                     SampleRuns.fourMiB SampleDeadlock.stream
                                     false 2 w _))
                       [] [recordOf (Sample.live Sample.a 1)] [] eq_refl N))
  end.
  exists SampleDeadlock.sinkFails. vm_compute. reflexivity.
Defined.

Section SinkProvenance.

Context `{KVListSize}.

Variable st : Stream.

Hypothesis defaultPolicy : KeyToList st = None.

Lemma iterate_pages_fromSnapshot kr size :
  Forall (Forall (fun r =>
                    fromSnapshot st r
                    /\ (keysAscend (produceKVs_txn st) -> pb.Key r <> [])))
         (pushed (iterate st (produceKVs_txn st) kr size)).
Proof.
  apply Forall_forall. intros page Ip. apply Forall_forall. intros r Ir.
  assert (I : In r (records (iterate st (produceKVs_txn st) kr size))).
  { unfold records. apply in_concat. now exists page. }
  unfold iterate in I.
  destruct (iterate_loop_provenance st kr defaultPolicy _ _ _ _ _ _ I)
    as [[] | (l1 & e & l2 & E & -> & Dl & V & Is & N)].
  cbn [Seek NewIterator cur Prefix data] in E, Is.
  split.
  - exists e. rewrite Key_recordOf.
    unfold inScan, hasPrefix in Is. apply andb_true_iff in Is.
    repeat split; auto; try apply Is.
    apply (seekFrom_incl (left kr) (produceKVs_txn st)).
    rewrite E. apply in_elt.
  - intros S. rewrite Key_recordOf. intros K.
    destruct N as [N | (e' & Ie & N)]; [congruence |].
    pose proof (keysAscend_seekFrom (left kr) _ S) as S'.
    rewrite E in S'.
    pose proof (keysAscend_app_inv _ _ _ _ S' Ie) as G.
    rewrite K in G. apply geb_nil in G. congruence.
Qed.

End SinkProvenance.

(** X10.  End to end, with the default policy: in every run of
    [Orchestrate], whatever the number of workers, the schedule, the
    cancellation and the sizes, every Record of every batch handed to
    [Send] is made of an entry of the snapshot the stream reads that is
    live (not deleted, not expired), whose value could be copied and whose
    key has the prefix of the stream; and on a snapshot whose keys ascend
    no such Record has the empty key.  The same holds of the Records still
    on their way: in [kvChan], with a worker, or in the batch of the
    drainer. *)
Theorem Send_receives_live_entries_of_the_snapshot :
  forall (sz : KVListSize) (st : Stream),
    KeyToList st = None ->
    forall (cancelled : bool) (numGo : Z) (w : world),
      reachable st cancelled numGo w ->
      let good := fun r =>
        fromSnapshot st r
        /\ (keysAscend (produceKVs_txn st) -> pb.Key r <> []) in
      (forall batch r, In batch (sinkLog w) -> In r batch -> good r)
      /\ Forall good (heldByDrainer (drainer w))
      /\ Forall (Forall good) (Chan.buf (kvChan w))
      /\ Forall (fun s => Forall good (heldByWorker s)) (workers w).
Proof.
  intros sz st D cancelled numGo w R. cbv zeta.
  destruct (everywhere_reachable st _ (iterate_pages_fromSnapshot st D)
              cancelled numGo w R) as (Hk & Hw & Hd & Hs).
  split; [| auto].
  intros batch r Ib Ir. rewrite Forall_forall in Hs.
  specialize (Hs batch Ib). rewrite Forall_forall in Hs. now apply Hs.
Qed.

Lemma Send_receives_live_entries_at_one_key :
  KeyToList SampleRuns.oneKey = None
  /\ exists w,
       @run SampleRuns.fourMiB SampleRuns.oneKey SampleRuns.unaware
            (@Orchestrate SampleRuns.oneKey true 1) = Some w
       /\ sinkLog w = [[recordOf (Sample.live Sample.a 1)]]
       /\ forall batch r,
            In batch (sinkLog w) -> In r batch ->
            fromSnapshot SampleRuns.oneKey r
            /\ (keysAscend (produceKVs_txn SampleRuns.oneKey) ->
                pb.Key r <> []).
Proof.
  assert (D : KeyToList SampleRuns.oneKey = None) by reflexivity.
  split; [exact D |].
  eexists. split; [vm_compute; reflexivity |].
  split; [reflexivity |].
  match goal with
  | |- forall batch r, In batch (sinkLog ?w) -> _ =>
      refine (proj1 (Send_receives_live_entries_of_the_snapshot
                       SampleRuns.fourMiB SampleRuns.oneKey D true 1 w _))
  end.
  exists SampleRuns.unaware. vm_compute. reflexivity.
Defined.

(* ------------------------------------------------------------------ *)
(** ** The order of pages and ranges *)

Section Orders.

Context `{KVListSize}.

Variable st : Stream.

Lemma inOrderOfSending_frame pages w w' :
  kvChan w' = kvChan w -> sinkLog w' = sinkLog w ->
  (drainer w' = drainer w
   \/ ((forall batch, drainer w <> DSlurp batch)
       /\ forall batch, drainer w' <> DSlurp batch)) ->
  inOrderOfSending pages w -> inOrderOfSending pages w'.
Proof.
  intros K L D (groups & gathered & E & G & M).
  exists groups, gathered. rewrite K, L. repeat split; auto.
  destruct D as [-> | [D D']]; [exact M |].
  destruct (drainer w) eqn:Q; try (exfalso; eapply D; reflexivity);
    destruct (drainer w'); auto; exfalso; eapply D'; reflexivity.
Qed.

Lemma inOrderOfSending_step a pages w w' :
  inOrderOfSending pages w -> step st a w = Some w' ->
  inOrderOfSending (pages ++ pageSent a w) w'.
Proof.
  intros I S. unfold step in S. destruct (crashed w); [discriminate |].
  destruct a; cbn [stepSplitter stepWorker stepDrainer stepCaller] in S;
    try (unfold stepSplitter in S); cbn [pageSent]; rewrite ?app_nil_r.
  - injection S as <-. eapply inOrderOfSending_frame; [| | | exact I]; auto.
  - break_step S. eapply inOrderOfSending_frame; [| | | exact I]; auto.
  - break_step S. eapply inOrderOfSending_frame; [| | | exact I]; auto.
  - break_step S; eapply inOrderOfSending_frame; [| | | exact I | | | | exact I];
      auto.
  - break_step S. eapply inOrderOfSending_frame; [| | | exact I]; auto.
  - (* a worker sends a page *)
    break_step S.
    match goal with
    | E : Chan.send _ _ _ = Some _ |- _ =>
        unfold Chan.send in E; break_step E
    end.
    destruct I as (groups & gathered & E & G & M).
    exists groups, gathered. cbn. rewrite E, <- !app_assoc.
    repeat split; auto.
  - break_step S; rewrite ?app_nil_r;
      eapply inOrderOfSending_frame; [| | | exact I | | | | exact I]; auto.
  - break_step S. eapply inOrderOfSending_frame; [| | | exact I]; auto.
  - (* the drainer leaves on the cancelled context *)
    break_step S. eapply inOrderOfSending_frame; [| | | exact I]; auto.
    right. cbn. split; intros batch; congruence.
  - break_step S. eapply inOrderOfSending_frame; [| | | exact I]; auto.
  - (* the drainer receives its first page, or finds [kvChan] closed *)
    break_step S.
    + match goal with
      | E : Chan.recv _ = Chan.Got _ _ |- _ =>
          unfold Chan.recv in E; break_step E
      end.
      destruct I as (groups & gathered & E & G & M).
      match goal with
      | Q : drainer w = DSelect |- _ => rewrite Q in M
      end.
      subst gathered.
      match goal with
      | Q : Chan.buf (kvChan w) = _ |- _ => rewrite Q in E
      end.
      eexists groups, [_]. cbn. rewrite app_nil_r.
      repeat split; eauto.
    + eapply inOrderOfSending_frame; [| | | exact I]; auto.
      right. cbn. split; intros batch; congruence.
  - (* the drainer gathers one more page *)
    break_step S.
    match goal with
    | E : Chan.recv _ = Chan.Got _ _ |- _ =>
        unfold Chan.recv in E; break_step E
    end.
    destruct I as (groups & gathered & E & G & M).
    match goal with
    | Q : drainer w = DSlurp _ |- _ => rewrite Q in M
    end.
    match goal with
    | Q : Chan.buf (kvChan w) = _ |- _ => rewrite Q in E
    end.
    eexists groups, (gathered ++ [_]). cbn.
    rewrite concat_app. cbn. rewrite app_nil_r, <- app_assoc.
    repeat split; eauto. now rewrite M.
  - (* the drainer calls Send *)
    break_step S; unfold callSend;
      destruct I as (groups & gathered & E & G & M);
      match goal with
      | Q : drainer w = DSlurp _ |- _ => rewrite Q in M
      end;
      destruct (Send st) as [send|].
    all: try (destruct (send batch)).
    all: try (exists (groups ++ [gathered]), []; cbn;
              rewrite concat_app, map_app; cbn;
              rewrite app_nil_r, <- app_assoc, G, M;
              repeat split; auto; fail).
    all: exists groups, gathered; cbn; repeat split; auto;
      match goal with
      | Q : drainer _ = DSlurp _ |- _ => now rewrite Q
      end.
  - break_step S. eapply inOrderOfSending_frame; [| | | exact I]; auto.
  - break_step S.
    destruct I as (groups & gathered & E & G & M).
    exists groups, gathered. cbn. repeat split; auto.
  - break_step S; eapply inOrderOfSending_frame; [| | | exact I | | | | exact I | | | | exact I];
      auto.
  - break_step S. eapply inOrderOfSending_frame; [| | | exact I]; auto.
Qed.

Lemma inOrderOfSending_run acts : forall pages w w',
  inOrderOfSending pages w -> run st acts w = Some w' ->
  inOrderOfSending (pages ++ sent st acts w) w'.
Proof.
  induction acts as [|a acts IH]; intros pages w w' I R; cbn in *.
  - injection R as <-. now rewrite app_nil_r.
  - destruct (step st a w) as [w1|] eqn:S; [| discriminate].
    rewrite app_assoc. eapply IH; [| exact R].
    eapply inOrderOfSending_step; eassumption.
Qed.

Lemma inOrderOfSplitting_step a ranges w w' :
  inOrderOfSplitting st ranges w -> step st a w = Some w' ->
  inOrderOfSplitting st (ranges ++ rangeTaken a w) w'.
Proof.
  unfold inOrderOfSplitting. intros I S. unfold step in S.
  destruct (crashed w); [discriminate |].
  destruct a; cbn [stepSplitter stepWorker stepDrainer stepCaller] in S;
    try (unfold stepSplitter in S); cbn [rangeTaken]; rewrite ?app_nil_r.
  1, 5-17: break_step S; cbn; rewrite ?app_nil_r; try exact I;
    unfold callSend; destruct (Send st) as [send|];
    try (destruct (send batch)); exact I.
  - (* the splitter sends a range *)
    break_step S.
    match goal with
    | E : Chan.send _ _ _ = Some _ |- _ =>
        unfold Chan.send in E; break_step E
    end.
    cbn in *. now rewrite <- app_assoc.
  - break_step S.
    cbn in *. exact I.
  - (* a worker takes a range, or finds [rangeCh] closed *)
    break_step S; cbn; rewrite ?app_nil_r; try exact I.
    match goal with
    | E : Chan.recv _ = Chan.Got _ _ |- _ =>
        unfold Chan.recv in E; break_step E
    end.
    cbn in *. now rewrite <- app_assoc.
Qed.

Lemma inOrderOfSplitting_run acts : forall ranges w w',
  inOrderOfSplitting st ranges w -> run st acts w = Some w' ->
  inOrderOfSplitting st (ranges ++ taken st acts w) w'.
Proof.
  induction acts as [|a acts IH]; intros ranges w w' I R; cbn in *.
  - injection R as <-. now rewrite app_nil_r.
  - destruct (step st a w) as [w1|] eqn:S; [| discriminate].
    rewrite app_assoc. eapply IH; [| exact R].
    eapply inOrderOfSplitting_step; eassumption.
Qed.

End Orders.

Lemma concat_groups {A : Type} (groups : list (list (list A))) :
  concat (map (@concat A) groups) = concat (concat groups).
Proof.
  induction groups as [|g groups IH]; cbn; [reflexivity |].
  now rewrite concat_app, IH.
Qed.

(** X11.  Nothing is reordered, duplicated or lost between [kvChan] and
    [Send].  Along any run, the pages the workers sent on [kvChan], in the
    order of the sends, are: first those handed to [Send], every batch
    being the concatenation of a group of consecutive pages; then those
    gathered in the batch the drainer is about to hand over; then those
    still in [kvChan].  When [Orchestrate] returns nil, the Records [Send]
    was given are all the Records that were sent, in that order. *)
Theorem batches_keep_the_order_of_the_pages :
  forall (sz : KVListSize) (st : Stream) (cancelled : bool) (numGo : Z)
         (acts : list action) (w : world),
    run st acts (Orchestrate st cancelled numGo) = Some w ->
    (exists groups gathered,
        sent st acts (Orchestrate st cancelled numGo)
        = concat groups ++ gathered ++ Chan.buf (kvChan w)
        /\ sinkLog w = map (@concat pb.KV) groups
        /\ heldByDrainer (drainer w) = concat gathered)
    /\ (caller w = CReturned None ->
        concat (sinkLog w)
        = concat (sent st acts (Orchestrate st cancelled numGo))).
Proof.
  intros sz st cancelled numGo acts w R.
  assert (I0 : inOrderOfSending [] (Orchestrate st cancelled numGo)).
  { exists [], []. repeat split. }
  destruct (inOrderOfSending_run st acts _ _ _ I0 R)
    as (groups & gathered & E & G & M).
  cbn [app] in E. split.
  - exists groups, gathered. repeat split; auto.
    destruct (drainer w); cbn; subst; reflexivity.
  - intros Q.
    assert (Rw : reachable st cancelled numGo w) by (now exists acts).
    destruct (wound_reachable st numGo _ _ Rw) as (_ & _ & Rt & _).
    destruct (Rt Q) as (_ & Kb & Dd).
    rewrite Dd in M. subst gathered. rewrite Kb in E. cbn in E.
    rewrite app_nil_r in E. now rewrite E, G, concat_groups.
Qed.

Lemma batches_keep_the_order_at_one_key :
  exists w,
    @run SampleRuns.fourMiB SampleRuns.oneKey SampleRuns.unaware
         (@Orchestrate SampleRuns.oneKey true 1) = Some w
    /\ @sent SampleRuns.fourMiB SampleRuns.oneKey SampleRuns.unaware
             (@Orchestrate SampleRuns.oneKey true 1)
       = [[recordOf (Sample.live Sample.a 1)]]
    /\ concat (sinkLog w)
       = concat (@sent SampleRuns.fourMiB SampleRuns.oneKey SampleRuns.unaware
                       (@Orchestrate SampleRuns.oneKey true 1)).
Proof.
  eexists. split; [vm_compute; reflexivity |].
  split; [reflexivity |].
  match goal with
  | |- concat (sinkLog ?w) = _ =>
      refine (proj2 (batches_keep_the_order_of_the_pages
                       SampleRuns.fourMiB SampleRuns.oneKey true 1
                       SampleRuns.unaware w _) eq_refl)
  end.
  vm_compute. reflexivity.
Defined.

(** X12.  Every range is handed to one worker, and the ranges are handed
    out in the order [produceRanges] makes them.  Along any run the ranges
    the workers took out of [rangeCh], in the order they took them,
    followed by those waiting in [rangeCh] and by those the splitter has
    yet to send, are the ranges of [produceRanges]: none is taken twice,
    none is skipped.  When [Orchestrate] with at least one worker returns
    nil, every range was taken. *)
Theorem ranges_are_handed_out_once_and_in_order :
  forall (sz : KVListSize) (st : Stream) (cancelled : bool) (numGo : Z)
         (acts : list action) (w : world),
    run st acts (Orchestrate st cancelled numGo) = Some w ->
    taken st acts (Orchestrate st cancelled numGo)
      ++ Chan.buf (rangeCh w) ++ pendingRanges (splitter w)
    = produceRanges st
    /\ (1 <= numGo -> caller w = CReturned None ->
        taken st acts (Orchestrate st cancelled numGo) = produceRanges st).
Proof.
  intros sz st cancelled numGo acts w R.
  assert (I0 : inOrderOfSplitting st [] (Orchestrate st cancelled numGo)).
  { unfold inOrderOfSplitting. cbn. reflexivity. }
  pose proof (inOrderOfSplitting_run st acts _ _ _ I0 R) as I.
  unfold inOrderOfSplitting in I. cbn [app] in I.
  split; [exact I |]. intros G Q.
  assert (Rw : reachable st cancelled numGo w) by (now exists acts).
  destruct (wound_reachable st numGo _ _ Rw) as (_ & _ & _ & W & Sp & L).
  destruct (slotKeepsFirst_reachable st _ _ _ Rw) as (_ & _ & M).
  rewrite Q in M. destruct M as [D M].
  destruct (reported w) as [|e es] eqn:Er; [| discriminate].
  destruct (workers w) as [|s ws] eqn:Ew; [cbn in L; lia |].
  inversion D as [|? ? Ds _]; subst.
  inversion W as [|? ? Ws _]; subst.
  destruct (Ws eq_refl) as [N | [Rc Rb]]; [congruence |].
  rewrite Rb, (Sp Rc) in I. cbn in I. now rewrite app_nil_r in I.
Qed.

Lemma ranges_are_handed_out_at_one_key :
  exists w,
    @run SampleRuns.fourMiB SampleRuns.oneKey SampleRuns.unaware
         (@Orchestrate SampleRuns.oneKey true 1) = Some w
    /\ 1 <= 1
    /\ caller w = CReturned None
    /\ @taken SampleRuns.fourMiB SampleRuns.oneKey SampleRuns.unaware
              (@Orchestrate SampleRuns.oneKey true 1)
       = produceRanges SampleRuns.oneKey.
Proof.
  eexists. split; [vm_compute; reflexivity |].
  split; [lia |].
  match goal with
  | |- caller ?w = _ /\ _ =>
      split; [reflexivity |];
      refine (proj2 (ranges_are_handed_out_once_and_in_order
                       SampleRuns.fourMiB SampleRuns.oneKey true 1
                       SampleRuns.unaware w _) ltac:(lia) eq_refl)
  end.
  vm_compute. reflexivity.
Defined.

(* ------------------------------------------------------------------ *)
(** ** [Orchestrate] without workers *)

Section Unmanned.

Context `{KVListSize}.

Variable st : Stream.

Lemma no_workers numGo : numGo <= 0 -> Z.to_nat numGo = 0%nat.
Proof. destruct numGo; cbn; try reflexivity. lia. Qed.

Lemma unmanned_init cancelled numGo :
  numGo <= 0 -> unmanned st (Orchestrate st cancelled numGo).
Proof.
  intros G. unfold unmanned. cbn. rewrite (no_workers _ G). cbn.
  repeat split; auto. discriminate.
Qed.

Lemma nth_error_nowhere {A : Type} i : nth_error (@nil A) i = None.
Proof. now destruct i. Qed.

Lemma Forall_done_more (w : world) (l : list (option error)) :
  Forall (fun r => r = None \/ (r = Some Canceled /\ ctxDone w = true)) l ->
  Forall (fun r => r = None \/ (r = Some Canceled /\ true = true)) l.
Proof. apply Forall_impl. intros r [N | [C _]]; auto. Qed.

Lemma unmanned_step a w w' :
  unmanned st w -> step st a w = Some w' -> unmanned st w'.
Proof.
  intros (W & L & K & D & E & V & C & R) S. unfold step in S.
  destruct (crashed w); [discriminate |].
  destruct a; cbn [stepSplitter stepWorker stepDrainer stepCaller] in S;
    try (unfold stepSplitter in S);
    try (rewrite W, nth_error_nowhere in S; discriminate).
  - injection S as <-. unfold unmanned. cbn. repeat split; auto.
    + now apply (Forall_done_more w).
    + intros r Q. destruct (C r Q) as [N | [N _]]; auto.
  - break_step S.
    match goal with
    | Q : Chan.send _ _ _ = Some _ |- _ =>
        unfold Chan.send in Q; break_step Q
    end.
    unfold unmanned. cbn in *. repeat split; auto.
    now rewrite <- app_assoc.
  - break_step S. unfold unmanned. cbn in *. repeat split; auto.
  - break_step S. unfold unmanned. cbn in *.
    match goal with
    | Q : ctxDone w = true |- _ => rewrite Q
    end.
    repeat split; auto.
    apply Forall_app. split; [exact V |]. constructor; [| constructor].
    right. split; reflexivity.
  - break_step S. unfold unmanned. repeat split; auto.
  - break_step S.
    + match goal with
      | Q : Chan.recv _ = Chan.Got _ _ |- _ =>
          unfold Chan.recv in Q; rewrite K in Q; break_step Q
      end.
    + unfold unmanned. cbn in *. repeat split; auto.
      apply Forall_app. split; [exact V |]. constructor; [| constructor].
      now left.
  - break_step S; destruct D; congruence.
  - break_step S; destruct D; congruence.
  - break_step S. unfold unmanned. cbn in *. repeat split; auto.
    intros r Q. discriminate.
  - break_step S. unfold unmanned. cbn in *. repeat split; auto.
    intros r Q. discriminate.
  - break_step S.
    + match goal with
      | Q : Chan.recv _ = Chan.Got _ _ |- _ =>
          unfold Chan.recv in Q; rewrite E in Q; break_step Q
      end.
    + unfold unmanned. cbn in *. repeat split; auto. intros r Q. discriminate.
    + unfold unmanned. cbn in *. repeat split; auto. intros r Q. discriminate.
  - break_step S.
    match goal with
    | Q : Chan.recv _ = Chan.Got _ _ |- _ =>
        unfold Chan.recv in Q; break_step Q
    end.
    inversion V; subst.
    unfold unmanned. cbn in *. repeat split; auto.
    intros r Q. injection Q as <-. assumption.
Qed.

Lemma unmanned_reachable cancelled numGo w :
  numGo <= 0 -> reachable st cancelled numGo w -> unmanned st w.
Proof.
  intros G [acts R].
  eapply run_invariant; [apply unmanned_step | | exact R].
  now apply unmanned_init.
Qed.

End Unmanned.

(** X13.  [Orchestrate] with [numGo] zero or negative starts no worker.
    In every such run nothing is scanned and [Send] is never called, and
    if [Orchestrate] returns it returns nil, or [ctx.Err()] when the
    context is done: the store is reported as streamed although not a
    Record was sent.  Such a run to the return of nil exists, whether or
    not the context was cancelled.  No range ever leaves [rangeCh], so
    with more than three ranges [produceRanges] never gets to close it and
    its goroutine is left waiting. *)
Theorem Orchestrate_without_workers_streams_nothing :
  forall (sz : KVListSize) (st : Stream) (cancelled : bool) (numGo : Z),
    numGo <= 0 ->
    (forall w,
        reachable st cancelled numGo w ->
        workers w = []
        /\ sinkLog w = []
        /\ (forall r, caller w = CReturned r ->
                      r = None \/ (r = Some Canceled /\ ctxDone w = true))
        /\ ((3 < length (produceRanges st))%nat ->
            splitter w <> SplitDone /\ Chan.closed (rangeCh w) = false))
    /\ (exists w,
          run st nobodyWorks (Orchestrate st cancelled numGo) = Some w
          /\ caller w = CReturned None
          /\ sinkLog w = []).
Proof.
  intros sz st cancelled numGo G. split.
  - intros w Rw.
    destruct (unmanned_reachable st cancelled numGo w G Rw)
      as (W & L & _ & _ & _ & _ & C & R).
    destruct (channelsSafe_reachable st cancelled numGo w Rw)
      as (R1 & _ & _ & _ & _ & R2 & _).
    split; [exact W |]. split; [exact L |]. split; [exact C |].
    intros Many. rewrite <- R in Many. split.
    + intros Q. rewrite Q in Many. cbn in Many.
      rewrite app_nil_r in Many. lia.
    + destruct (Chan.closed (rangeCh w)); [| reflexivity].
      rewrite (R1 eq_refl) in Many. cbn in Many.
      rewrite app_nil_r in Many. lia.
  - eexists. unfold nobodyWorks, Orchestrate.
    rewrite (no_workers _ G). cbn. repeat split; reflexivity.
Qed.

Lemma Orchestrate_without_workers_at_four_ranges :
  0 <= 0
  /\ (3 < length (produceRanges SampleRuns.fourRanges))%nat
  /\ exists w,
       @run SampleRuns.fourMiB SampleRuns.fourRanges nobodyWorks
            (@Orchestrate SampleRuns.fourRanges false 0) = Some w
       /\ caller w = CReturned None
       /\ sinkLog w = [].
Proof.
  split; [lia |]. split; [cbn; lia |].
  apply (proj2 (Orchestrate_without_workers_streams_nothing
                  SampleRuns.fourMiB SampleRuns.fourRanges false 0
                  ltac:(lia))).
Defined.

(* ------------------------------------------------------------------ *)
(** ** A run to completion *)

Section Completion.

Context `{KVListSize}.

Variable st : Stream.
Variable send : pb.KVList -> option error.

Hypothesis sink : Send st = Some send.
Hypothesis sinkAccepts : forall batch, send batch = None.

Variable c : bool.
Variable others : list workerState.

Lemma deliver_pages rc sp after size : forall pages log,
  run st (concat (repeat deliverPage (length pages)))
      (atWork c rc sp (WSending pages after size) others log)
  = Some (atWork c rc sp (WSending [] after size) others (log ++ pages)).
Proof.
  induction pages as [|page pages IH]; intros log.
  - cbn. now rewrite app_nil_r.
  - cbn [length repeat concat]. rewrite run_app.
    assert (E : run st deliverPage
                    (atWork c rc sp (WSending (page :: pages) after size)
                            others log)
                = Some (atWork c rc sp (WSending pages after size) others
                               (log ++ [page]))).
    { unfold deliverPage, atWork. cbn -[setWorker].
      unfold callSend. cbn -[setWorker]. rewrite sink, sinkAccepts.
      reflexivity. }
    rewrite E, IH, <- app_assoc. reflexivity.
Qed.

Lemma scan_one_range kr pending size log :
  ending (iterate st (produceKVs_txn st) kr size) = Returned None ->
  run st (scanRange (length (pushed (iterate st (produceKVs_txn st) kr size))))
      (atWork c Chan.make (Splitting (kr :: pending)) (WSelect size) others
              log)
  = Some (atWork c Chan.make (Splitting pending)
                 (WSelect (sizeAfter (iterate st (produceKVs_txn st) kr size)))
                 others
                 (log ++ pushed (iterate st (produceKVs_txn st) kr size))).
Proof.
  intros E. remember (iterate st (produceKVs_txn st) kr size) as r eqn:Er.
  unfold scanRange.
  assert (T : run st [SplitSend; WorkerRecv 0]
                  (atWork c Chan.make (Splitting (kr :: pending))
                          (WSelect size) others log)
              = Some (atWork c Chan.make (Splitting pending)
                             (WSending (pushed r) (ending r) (sizeAfter r))
                             others log)).
  { unfold atWork. cbn -[setWorker iterate]. rewrite <- Er. reflexivity. }
  rewrite run_app, T, run_app, deliver_pages, E.
  reflexivity.
Qed.

Lemma serve_ranges : forall krs size pending log,
  ending (produceKVs_ranges st (produceKVs_txn st) krs size) = Returned None ->
  run st (serve st krs size)
      (atWork c Chan.make (Splitting (krs ++ pending)) (WSelect size) others
              log)
  = Some (atWork c Chan.make (Splitting pending)
                 (WSelect (sizeAfter (produceKVs_ranges st (produceKVs_txn st)
                                                        krs size)))
                 others
                 (log ++ pushed (produceKVs_ranges st (produceKVs_txn st)
                                                   krs size))).
Proof.
  induction krs as [|kr krs IH]; intros size pending log E.
  - cbn. now rewrite app_nil_r.
  - cbn [serve produceKVs_ranges app] in *. cbv zeta in *.
    destruct (ending (iterate st (produceKVs_txn st) kr size))
      as [[err |] |] eqn:Ek.
    + rewrite Ek in E. discriminate.
    + cbn [ending pushed sizeAfter] in *.
      rewrite run_app, (scan_one_range kr (krs ++ pending) size log Ek).
      rewrite (IH _ pending _ E), <- app_assoc. reflexivity.
    + rewrite Ek in E. discriminate.
Qed.

Lemma retire_workers log : forall sizes done,
  run st (map WorkerRecv (seq done (length sizes)))
      (winding c (repeat WDone done ++ map WSelect sizes) log)
  = Some (winding c (repeat WDone (done + length sizes)) log).
Proof.
  induction sizes as [|size sizes IH]; intros done.
  - cbn. now rewrite app_nil_r, Nat.add_0_r.
  - cbn [length seq map run].
    assert (L : length (repeat WDone done) = done) by apply repeat_length.
    pose proof (nth_error_middle (repeat WDone done) (map WSelect sizes)
                  (WSelect size)) as N.
    pose proof (setWorker_middle (repeat WDone done) (map WSelect sizes)
                  (WSelect size) WDone) as M.
    rewrite L in N, M.
    assert (T : step st (WorkerRecv done)
                  (winding c (repeat WDone done
                                ++ WSelect size :: map WSelect sizes) log)
                = Some (winding c (repeat WDone (S done) ++ map WSelect sizes)
                                log)).
    { unfold step, winding. cbn [crashed stepWorker workers].
      rewrite N. unfold withWorker. cbn -[setWorker]. rewrite M.
      change (WDone :: map WSelect sizes)
        with ([WDone] ++ map WSelect sizes).
      rewrite app_assoc, <- repeat_cons. reflexivity. }
    cbn [map] in T. rewrite T, IH.
    replace (done + S (length sizes))%nat with (S done + length sizes)%nat
      by lia.
    reflexivity.
Qed.

Lemma caller_returns n log :
  run st [MainWait; MainClose; MainCheck; DrainRecv; MainRecv]
      (winding c (repeat WDone n) log)
  = Some (mkWorld c (Chan.mk [] true) (Chan.mk [] true) Chan.make Chan.make
                  SplitDone (repeat WDone n) DDone (CReturned None)
                  log [] false).
Proof.
  cbn [run]. unfold step at 1.
  cbn [crashed winding stepCaller caller workers].
  rewrite forallb_isDone_repeat. reflexivity.
Qed.

End Completion.

(** X14.  [Orchestrate] can do its work.  With at least one worker, a
    [Send] that accepts every batch, and scans that all return nil, there
    is a run, on a context cancelled or not, in which the ranges are
    served one after the other, every page goes to [Send] as a batch of
    its own, the splitter closes [rangeCh], every worker returns, the
    caller closes [kvChan], the drainer returns nil and [Orchestrate]
    returns nil.  In that run [Send] is called with exactly the pages
    [produceKVs] makes of the ranges of [produceRanges], in their order,
    the counter [size] going from one range to the next. *)
Theorem Orchestrate_can_run_to_completion :
  forall (sz : KVListSize) (st : Stream) (send : pb.KVList -> option error)
         (cancelled : bool) (numGo : Z),
    1 <= numGo ->
    Send st = Some send ->
    (forall batch, send batch = None) ->
    ending (produceKVs st (produceRanges st)) = Returned None ->
    exists w,
      run st (inTurn st numGo) (Orchestrate st cancelled numGo) = Some w
      /\ caller w = CReturned None
      /\ sinkLog w = pushed (produceKVs st (produceRanges st))
      /\ Forall (fun s => s = WDone) (workers w)
      /\ drainer w = DDone
      /\ splitter w = SplitDone.
Proof.
  intros sz st send cancelled numGo G Se Acc E.
  destruct (Z.to_nat numGo) as [|n] eqn:En; [lia |].
  set (others := repeat (WSelect 0) n).
  assert (I0 : Orchestrate st cancelled numGo
               = atWork cancelled Chan.make (Splitting (produceRanges st ++ []))
                        (WSelect 0) others []).
  { unfold Orchestrate, atWork. rewrite En, app_nil_r. reflexivity. }
  unfold produceKVs in *.
  set (R := produceKVs_ranges st (produceKVs_txn st) (produceRanges st) 0) in *.
  pose proof (serve_ranges st send Se Acc cancelled others
                (produceRanges st) 0 [] [] E) as Sv.
  fold R in Sv. cbn [app] in Sv.
  assert (Cl : step st SplitClose
                 (atWork cancelled Chan.make (Splitting []) (WSelect (sizeAfter R))
                         others (pushed R))
               = Some (winding cancelled
                               (repeat WDone 0
                                  ++ map WSelect (sizeAfter R :: repeat 0 n))
                               (pushed R))).
  { unfold others. cbn. now rewrite map_repeat. }
  pose proof (retire_workers st cancelled (pushed R)
                (sizeAfter R :: repeat 0 n) 0) as Rt.
  cbn [length] in Rt. rewrite repeat_length in Rt. cbn [Nat.add] in Rt.
  pose proof (caller_returns st cancelled (S n) (pushed R)) as Cr.
  eexists. split.
  - unfold inTurn, windUp. rewrite En, I0, run_app, Sv.
    cbn [run]. rewrite Cl, run_app, Rt. exact Cr.
  - cbn. repeat split; auto.
    clear. induction n; cbn; constructor; auto.
Qed.

Lemma Orchestrate_runs_to_completion_at_four_ranges :
  1 <= 2
  /\ Send SampleRuns.fourRanges = Some (fun _ => None)
  /\ @ending
       (@produceKVs SampleRuns.fourMiB SampleRuns.fourRanges
                    (produceRanges SampleRuns.fourRanges))
     = Returned None
  /\ exists w,
       @run SampleRuns.fourMiB SampleRuns.fourRanges
            (@inTurn SampleRuns.fourMiB SampleRuns.fourRanges 2)
            (@Orchestrate SampleRuns.fourRanges false 2) = Some w
       /\ caller w = CReturned None
       /\ sinkLog w
          = pushed (@produceKVs SampleRuns.fourMiB SampleRuns.fourRanges
                                (produceRanges SampleRuns.fourRanges))
       /\ Forall (fun s => s = WDone) (workers w)
       /\ drainer w = DDone
       /\ splitter w = SplitDone.
Proof.
  assert (G : 1 <= 2) by lia.
  assert (E : @ending
                (@produceKVs SampleRuns.fourMiB SampleRuns.fourRanges
                             (produceRanges SampleRuns.fourRanges))
              = Returned None) by reflexivity.
  split; [exact G |]. split; [reflexivity |]. split; [exact E |].
  apply (Orchestrate_can_run_to_completion
           SampleRuns.fourMiB SampleRuns.fourRanges (fun _ => None) false 2
           G eq_refl (fun _ => eq_refl) E).
Defined.
